(** * Automata-Simulator: the visualisation stage

    A shallow embedding of [Visualize/visualize_syntax_tree.py] and
    [Visualize/visualize_dfa.py], and the properties of the tree layout, of
    the transition aggregation, of the console reports and of the loaders.

    Conventions of the embedding.
    - A JSON tree node is a value of [tree]; [Null] stands for Python's [None]
      and for a missing ['left'] / ['right'] key, which the source treats
      alike ([if 'left' in node and node['left'] is not None]).
    - Node and state ids are integers ([Z]).
    - Coordinates are Python floats, that is IEEE 754 binary64 numbers:
      values of [spec_float] with the operations [SFadd] and [SFsub] of the
      Standard Library at precision 53 and maximal exponent 1024 (rounding
      to nearest, ties to even).  The integer [0] of the default arguments
      and of the empty width is the float zero, to which Python converts it
      at the first addition with a float.
    - A file is absent, unreadable, a directory, or a sequence of bytes;
      reading it as text decodes the bytes as UTF-8 and may fail.
    - A Python [dict] used as a finite map is a [gmap]; [d.update(e)] is the
      union in which the entries of [e] win.
    - Strings are byte strings ([string]); the separator [", "] is ASCII, so
      splitting on it commutes with the UTF-8 encoding. *)

From Stdlib Require Import ZArith QArith Qpower Qabs String Ascii DecimalString.
From Stdlib Require Import Sorted SpecFloat.
From Stdlib Require PrimFloat FloatOps.
From stdpp Require Import gmap strings list fin_maps.

Open Scope string_scope.
Open Scope list_scope.

(** ** The Python runtime the two scripts rely on *)

Module Py.

(** The exceptions that occur in the two scripts. *)
Inductive exn : Type :=
| FileNotFoundError
| PermissionError
| IsADirectoryError
| UnicodeDecodeError
| JSONDecodeError
| KeyError (key : string)
| SystemExit (code : Z).

(** What a run does to the outside world: console lines, draw calls on the
    matplotlib axes ([D] is the type of the draw calls of the script) and
    the export of the figure. *)
Inductive event (D : Type) : Type :=
| Print (line : string)
| Draw (d : D)
| SaveFig (filename : string).
Arguments Print {D} line.
Arguments Draw {D} d.
Arguments SaveFig {D} filename.

(** A computation: the events it produced, and an exception or a value. *)
Definition M (D A : Type) : Type := list (event D) * (exn + A).

#[export] Instance M_ret {D : Type} : MRet (M D) := λ A a, ([], inr a).

#[export] Instance M_bind {D : Type} : MBind (M D) := λ A B f m,
  match m with
  | (out, inl e) => (out, inl e)
  | (out, inr a) => let '(out', r) := f a in (out ++ out', r)
  end.

Definition raise {D A : Type} (e : exn) : M D A := ([], inl e).
Definition print {D : Type} (line : string) : M D unit := ([Print line], inr tt).
Definition draw {D : Type} (d : D) : M D unit := ([Draw d], inr tt).
Definition savefig {D : Type} (filename : string) : M D unit :=
  ([SaveFig filename], inr tt).
Definition sys_exit {D A : Type} (code : Z) : M D A := raise (SystemExit code).

(** [try: body except ...: handler]; a handler that answers [None] does not
    match the exception, which then propagates. *)
Definition try_except {D A : Type} (body : M D A) (handler : exn → option (M D A))
    : M D A :=
  match body with
  | (out, inl e) =>
      match handler e with
      | Some h => let '(out', r) := h in (out ++ out', r)
      | None => (out, inl e)
      end
  | (out, inr a) => (out, inr a)
  end.

(** [for a in l: f(a)] *)
Fixpoint for_each {D A : Type} (l : list A) (f : A → M D unit) : M D unit :=
  match l with
  | [] => mret tt
  | a :: l' => f a ;; for_each l' f
  end.

(** A loop that carries a state. *)
Fixpoint foldM {D A S : Type} (f : S → A → M D S) (l : list A) (s : S) : M D S :=
  match l with
  | [] => mret s
  | a :: l' => s' ← f s a; foldM f l' s'
  end.

(** [d[k]] on a dictionary. *)
Definition getitem {D : Type} `{Countable K} {V : Type} (d : gmap K V) (k : K)
    (repr : string) : M D V :=
  match d !! k with
  | Some v => mret v
  | None => raise (KeyError repr)
  end.

(** The status the process ends with: 0 after a normal return, the code of
    [sys.exit], 1 after any other uncaught exception. *)
Definition exit_status {D A : Type} (m : M D A) : Z :=
  match m.2 with
  | inr _ => 0
  | inl (SystemExit code) => code
  | inl _ => 1
  end.

(** What a location of the file system holds. *)
Inductive file : Type :=
| Missing
| Denied
| Directory
| Regular (content : string).

Definition filesystem : Type := string → file.

(** [open(filename, 'r', encoding='utf-8')]: the bytes behind the file
    object, or the [OSError] of the location. *)
Definition open {D : Type} (fs : filesystem) (filename : string) : M D string :=
  match fs filename with
  | Regular content => mret content
  | Missing => raise FileNotFoundError
  | Denied => raise PermissionError
  | Directory => raise IsADirectoryError
  end.

Definition byte_in (lo hi : nat) (c : ascii) : bool :=
  (lo <=? nat_of_ascii c)%nat && (nat_of_ascii c <=? hi)%nat.

(** The byte sequences the strict UTF-8 codec accepts: no stray or missing
    continuation byte, no overlong form, no surrogate, nothing above
    U+10FFFF. *)
Fixpoint utf8_valid (s : string) : bool :=
  match s with
  | EmptyString => true
  | String c1 s1 =>
      if byte_in 0 127 c1 then utf8_valid s1
      else
        match s1 with
        | EmptyString => false
        | String c2 s2 =>
            if byte_in 194 223 c1 then byte_in 128 191 c2 && utf8_valid s2
            else
              match s2 with
              | EmptyString => false
              | String c3 s3 =>
                  if byte_in 224 239 c1 then
                    (if byte_in 224 224 c1 then byte_in 160 191 c2
                     else if byte_in 237 237 c1 then byte_in 128 159 c2
                     else byte_in 128 191 c2)
                    && byte_in 128 191 c3 && utf8_valid s3
                  else
                    match s3 with
                    | EmptyString => false
                    | String c4 s4 =>
                        byte_in 240 244 c1
                        && (if byte_in 240 240 c1 then byte_in 144 191 c2
                            else if byte_in 244 244 c1 then byte_in 128 143 c2
                            else byte_in 128 191 c2)
                        && byte_in 128 191 c3 && byte_in 128 191 c4
                        && utf8_valid s4
                    end
              end
        end
  end.

(** [f.read()] on a file opened as UTF-8 text.  A text is kept as its
    UTF-8 bytes. *)
Definition read {D : Type} (content : string) : M D string :=
  if utf8_valid content then mret content else raise UnicodeDecodeError.

(** [json.load(f)]: read the text of the file, then parse it.  The parser
    [json_load] is a parameter of the scripts; it answers [None] where
    Python raises [JSONDecodeError]. *)
Definition load_json {D Doc : Type} (json_load : string → option Doc)
    (content : string) : M D Doc :=
  text ← read content;
  match json_load text with
  | Some data => mret data
  | None => raise JSONDecodeError
  end.

(** [str(n)] for an integer. *)
Definition str (n : Z) : string := NilZero.string_of_int (Z.to_int n).

Definition str_option (o : option Z) : string :=
  match o with
  | Some n => str n
  | None => "None"
  end.

(** [len(s)]: the number of code points, that is the bytes of the UTF-8
    encoding that are not continuation bytes. *)
Fixpoint len (s : string) : nat :=
  match s with
  | EmptyString => 0
  | String c s' =>
      let n := nat_of_ascii c in
      (if (128 <=? n)%nat && (n <? 192)%nat then 0 else 1) + len s'
  end.

(** [s * n] *)
Fixpoint repeat_string (s : string) (n : nat) : string :=
  match n with
  | O => ""
  | S n' => s +:+ repeat_string s n'
  end.

(** The format specification [:<width]. *)
Definition ljust (width : nat) (s : string) : string :=
  s +:+ repeat_string " " (width - len s).

Definition newline : string := String (ascii_of_nat 10) "".

(** [s.split(', ')]: cut at the leftmost occurrences of the separator,
    scanning from the left; the result is never empty. *)
Fixpoint split_comma_space (s : string) : list string :=
  match s with
  | EmptyString => [""]
  | String c rest =>
      let keep :=
        match split_comma_space rest with
        | tok :: toks => String c tok :: toks
        | [] => [String c ""]
        end in
      if Ascii.eqb c "," then
        match rest with
        | String c' rest' =>
            if Ascii.eqb c' " " then "" :: split_comma_space rest' else keep
        | EmptyString => keep
        end
      else keep
  end.

(** [', '.join(l)] *)
Definition join_comma_space (l : list string) : string := String.concat ", " l.

(** [', ' in s] *)
Fixpoint contains_comma_space (s : string) : bool :=
  match s with
  | EmptyString => false
  | String c rest =>
      (Ascii.eqb c "," &&
         match rest with
         | String c' _ => Ascii.eqb c' " "
         | EmptyString => false
         end)
      || contains_comma_space rest
  end.

(** *** Vocabulary for the properties of a run *)

(** A diagnostic is a console line that starts with ["Error"]. *)
Definition is_diagnostic (line : string) : bool := String.prefix "Error" line.

(** The soft outcome: the run returns normally, has printed a diagnostic
    and has not exported the figure. *)
Definition skips_export {D : Type} (m : M D unit) : Prop :=
  m.2 = inr tt
  ∧ (∃ line, Print line ∈ m.1 ∧ is_diagnostic line = true)
  ∧ ∀ filename, SaveFig filename ∉ m.1.

(** The regular outcome: the run returns normally, has exported the figure
    to [filename] and has printed no diagnostic. *)
Definition exports {D : Type} (filename : string) (m : M D unit) : Prop :=
  m.2 = inr tt
  ∧ SaveFig filename ∈ m.1
  ∧ ∀ line, Print line ∈ m.1 → is_diagnostic line = false.

Definition not_found_message (filename : string) : string :=
  "Error: " +:+ filename +:+ " not found.".

Definition malformed_message (filename : string) : string :=
  "Error: Invalid JSON in " +:+ filename.

(** A run that reports a failure: it has printed a diagnostic and ends the
    process with a status that is not zero. *)
Definition reports_failure {D A : Type} (m : M D A) : Prop :=
  (∃ message, Print message ∈ m.1 ∧ is_diagnostic message = true)
  ∧ exit_status m ≠ 0%Z.

(** The failures of a load that the two [except] clauses do not name. *)
Definition unhandled (e : exn) : Prop :=
  e = PermissionError ∨ e = IsADirectoryError ∨ e = UnicodeDecodeError.

(** The contract of a loader, for a parser [json_load]: the parsed document
    when the file is there, is UTF-8 text and parses; one message that
    names the failure and exit status 1 when the file is absent, and when
    its text does not parse; otherwise the exception of the failure, with
    no message. *)
Definition loader_contract {D Doc : Type} (json_load : string → option Doc)
    (load : filesystem → string → M D Doc) : Prop :=
  ∀ fs filename,
    (∃ text data,
       fs filename = Regular text ∧ utf8_valid text = true
       ∧ json_load text = Some data
       ∧ load fs filename = ([], inr data))
    ∨ (fs filename = Missing
       ∧ load fs filename =
           ([Print (not_found_message filename)], inl (SystemExit 1))
       ∧ exit_status (load fs filename) ≠ 0%Z)
    ∨ (∃ text,
         fs filename = Regular text ∧ utf8_valid text = true
         ∧ json_load text = None
         ∧ load fs filename =
             ([Print (malformed_message filename)], inl (SystemExit 1))
         ∧ exit_status (load fs filename) ≠ 0%Z)
    ∨ (∃ e,
         (fs filename = Denied ∧ e = PermissionError
          ∨ fs filename = Directory ∧ e = IsADirectoryError
          ∨ (∃ content, fs filename = Regular content
                        ∧ utf8_valid content = false)
            ∧ e = UnicodeDecodeError)
         ∧ load fs filename = ([], inl e)
         ∧ exit_status (load fs filename) ≠ 0%Z).

End Py.

(** ** Python floats *)

Module Binary64.

Definition float : Type := spec_float.

Definition prec : Z := 53.
Definition emax : Z := 1024.

(** [x + y], [x - y] and [x * y] on floats. *)
Definition add (x y : float) : float := SFadd prec emax x y.
Definition sub (x y : float) : float := SFsub prec emax x y.
Definition mul (x y : float) : float := SFmul prec emax x y.

Definition leb (x y : float) : bool := SFleb x y.
Definition eqb (x y : float) : bool := SFeqb x y.

Definition zero : float := S754_zero false.

(** The float nearest to [k * 2^c]. *)
Definition of_scaled (k c : Z) : float := binary_normalize prec emax k c false.

(** The exponents [c] for which every [k * 2^c] with [0 < k < 2^53] is a
    binary64 number, normal or subnormal. *)
Definition grid_exponent (c : Z) : Prop := (-1022 <= c <= 971)%Z.

(** The real number a finite float stands for. *)
Definition value (x : float) : Q :=
  match x with
  | S754_finite s m e => inject_Z (cond_Zopp s (Zpos m)) * 2 ^ e
  | _ => 0
  end.

(** The number of binary digits of a mantissa, and a mantissa shifted to
    the left. *)
Definition digits (m : positive) : Z := Zpos (digits2_pos m).

Definition shl (m : positive) (k : Z) : positive :=
  match k with
  | Zpos n => Pos.iter xO m n
  | _ => m
  end.

End Binary64.

(** ** Syntax trees *)

Inductive tree : Type :=
| Null : tree
| Node (id : Z) (value : string) (left_child right_child : tree) : tree.

Module SyntaxTree.
Import Binary64.

(** [calculate_tree_positions(node, x, y, level, x_spacing, y_spacing)]:
    the position dictionary of the subtree and its width. *)
Fixpoint calculate_tree_positions (node : tree) (x y : float) (level : nat)
    (x_spacing y_spacing : float) : gmap Z (float * float) * float :=
  match node with
  | Null => (∅, zero)
  | Node id _ left_child right_child =>
      let '(left_positions, left_width) :=
        match left_child with
        | Null => (∅, zero)
        | Node _ _ _ _ =>
            calculate_tree_positions left_child x (sub y y_spacing) (S level)
              x_spacing y_spacing
        end in
      let current_x := add x left_width in
      let positions : gmap Z (float * float) := {[ id := (current_x, y) ]} in
      let '(right_positions, right_width) :=
        match right_child with
        | Null => (∅, zero)
        | Node _ _ _ _ =>
            calculate_tree_positions right_child (add current_x x_spacing)
              (sub y y_spacing) (S level) x_spacing y_spacing
        end in
      let positions := left_positions ∪ positions in
      let positions := right_positions ∪ positions in
      let total_width := add (add left_width x_spacing) right_width in
      (positions, total_width)
  end.

(** The default arguments of the source: [x=0, y=0, level=0,
    x_spacing=1.5, y_spacing=1.2].  The literal [1.5] is the float
    [0x1.8p+0]; the literal [1.2] is read as the float nearest to 6/5,
    [0x1.3333333333333p+0]. *)
Definition default_x_spacing : float :=
  S754_finite false 6755399441055744 (-52).
Definition default_y_spacing : float :=
  S754_finite false 5404319552844595 (-52).

Definition layout (root : tree) : gmap Z (float * float) * float :=
  calculate_tree_positions root zero zero 0
    default_x_spacing default_y_spacing.

(** Vocabulary for stating the layout properties. *)

(** The node ids of a tree, in the order the layout visits them
    (left subtree, node, right subtree). *)
Fixpoint ids (t : tree) : list Z :=
  match t with
  | Null => []
  | Node i _ l r => ids l ++ i :: ids r
  end.

Fixpoint node_count (t : tree) : nat :=
  match t with
  | Null => 0
  | Node _ _ l r => node_count l + 1 + node_count r
  end.

(** The ids of the nodes at depth [d] (the root is at depth 0). *)
Fixpoint ids_at_depth (t : tree) (d : nat) : list Z :=
  match t with
  | Null => []
  | Node i _ l r =>
      match d with
      | O => [i]
      | S d' => ids_at_depth l d' ++ ids_at_depth r d'
      end
  end.

(** Every non-empty subtree of a tree, the tree itself included. *)
Fixpoint subtrees (t : tree) : list tree :=
  match t with
  | Null => []
  | Node _ _ l r => t :: subtrees l ++ subtrees r
  end.

Definition is_null (t : tree) : bool :=
  match t with Null => true | Node _ _ _ _ => false end.


Definition xcoord (p : float * float) : float := fst p.

(** A tree whose two leaves carry the same id. *)
Definition shared_id : tree :=
  Node 0 "." (Node 1 "a" Null Null) (Node 1 "b" Null Null).

(** The tree of the regular expression [ab]: a concatenation node over two
    literals. *)
Definition concat_ab : tree :=
  Node 0 "." (Node 1 "a" Null Null) (Node 2 "b" Null Null).

(** A chain of [n] nodes, each the left child of the one before. *)
Fixpoint left_chain (n : nat) : tree :=
  match n with
  | O => Null
  | S n' => Node (Z.of_nat n') "a" (left_chain n') Null
  end.

(** The floats [1e16], [1.0], [10.0] and [0.1] (read as
    [0x1.999999999999ap-4]). *)
Definition float_1e16 : float := S754_finite false 5000000000000000 1.
Definition float_1 : float := S754_finite false 4503599627370496 (-52).
Definition float_10 : float := S754_finite false 5629499534213120 (-49).
Definition float_tenth : float := S754_finite false 7205759403792794 (-56).

(** [y] after [d] subtractions of [y_spacing]. *)
Definition row (y y_spacing : float) (d : nat) : float :=
  Nat.iter d (λ v, sub v y_spacing) y.

(** *** The rest of the tree script *)

(** The loaded document; [root] is [Null] when the key is missing or
    [null], and a display string is [None] when its key is missing. *)
Record tree_data : Type := {
  root : tree;
  original_regex : option string;
  regex_with_concat : option string;
  postfix : option string
}.

(** [tree_data.get(key, 'N/A')] *)
Definition get_or_na (o : option string) : string := default "N/A" o.

(** The draw calls of [draw_tree]. *)
Inductive directive : Type :=
| PlotLine (p1 p2 : float * float)
| Circle (center : float * float) (color ec : string)
| Text (at_pos : float * float) (text : string)
| Title (text : string)
| Legend
| AxisLimits.

(** A document without root node. *)
Definition no_root : tree_data :=
  {| root := Null; original_regex := Some "";
     regex_with_concat := Some ""; postfix := Some "" |}.

Section Script.
Import Py.
Variable json_load : string → option tree_data.

Definition load_syntax_tree (fs : filesystem) (filename : string)
    : M directive tree_data :=
  try_except
    (f ← open fs filename;
     load_json json_load f)
    (λ e, match e with
          | FileNotFoundError =>
              Some (print ("Error: " +:+ filename +:+ " not found.");;
                    sys_exit 1)
          | JSONDecodeError =>
              Some (print ("Error: Invalid JSON in " +:+ filename);;
                    sys_exit 1)
          | _ => None
          end).

Fixpoint draw_edges (positions : gmap Z (float * float)) (node : tree)
    : M directive unit :=
  match node with
  | Null => mret tt
  | Node node_id _ left_child right_child =>
      node_pos ← getitem positions node_id (str node_id);
      match left_child with
      | Node left_id _ _ _ =>
          left_pos ← getitem positions left_id (str left_id);
          draw (PlotLine node_pos left_pos);;
          draw_edges positions left_child
      | Null => mret tt
      end;;
      match right_child with
      | Node right_id _ _ _ =>
          right_pos ← getitem positions right_id (str right_id);
          draw (PlotLine node_pos right_pos);;
          draw_edges positions right_child
      | Null => mret tt
      end
  end.

Definition is_operator (value : string) : bool :=
  bool_decide (value ∈ ["*"; "."; "|"]).

Fixpoint draw_nodes (positions : gmap Z (float * float)) (node : tree)
    : M directive unit :=
  match node with
  | Null => mret tt
  | Node node_id value left_child right_child =>
      pos ← getitem positions node_id (str node_id);
      let '(color, edge_color) :=
        if is_operator value then ("#FFD700", "#FF8C00")
        else ("#87CEEB", "#4682B4") in
      draw (Circle pos color edge_color);;
      draw (Text pos value);;
      match left_child with
      | Node _ _ _ _ => draw_nodes positions left_child
      | Null => mret tt
      end;;
      match right_child with
      | Node _ _ _ _ => draw_nodes positions right_child
      | Null => mret tt
      end
  end.

Definition draw_tree (data : tree_data) : M directive unit :=
  match root data with
  | Null => print "Error: No root node found in syntax tree."
  | Node _ _ _ _ =>
      let '(positions, _) :=
        calculate_tree_positions (root data) zero zero 0
          default_x_spacing default_y_spacing in
      draw_edges positions (root data);;
      draw_nodes positions (root data);;
      draw (Title ("Syntax Tree" +:+ newline +:+
                   "Original: " +:+ get_or_na (original_regex data)
                   +:+ newline +:+
                   "With Concat: " +:+ get_or_na (regex_with_concat data)
                   +:+ newline +:+
                   "Postfix: " +:+ get_or_na (postfix data)));;
      draw Legend;;
      draw AxisLimits;;
      savefig "syntax_tree.png";;
      print "Syntax tree visualization saved as 'syntax_tree.png'"
  end.

Fixpoint print_tree (node : tree) (prefix : string) (is_tail : bool)
    : M directive unit :=
  match node with
  | Null => mret tt
  | Node _ value left_child right_child =>
      let display_value :=
        if String.eqb value "ε" then "ε (epsilon)" else value in
      let connector := if is_tail then "└── " else "├── " in
      print (prefix +:+ connector +:+ display_value);;
      let extension := if is_tail then "    " else "│   " in
      let new_prefix := prefix +:+ extension in
      let has_left := negb (is_null left_child) in
      let has_right := negb (is_null right_child) in
      match left_child with
      | Node _ _ _ _ => print_tree left_child new_prefix (negb has_right)
      | Null => mret tt
      end;;
      match right_child with
      | Node _ _ _ _ => print_tree right_child new_prefix true
      | Null => mret tt
      end
  end.

Definition rule : string := repeat_string "=" 70.

Definition main (fs : filesystem) : M directive unit :=
  data ← load_syntax_tree fs "syntax_tree.json";
  print (newline +:+ rule);;
  print "SYNTAX TREE";;
  print rule;;
  print ("Original Regex:      " +:+ get_or_na (original_regex data));;
  print ("With Concatenation:  " +:+ get_or_na (regex_with_concat data));;
  print ("Postfix Notation:    " +:+ get_or_na (postfix data));;
  print rule;;
  match root data with
  | Node _ _ _ _ =>
      print (newline +:+ "Tree Structure (preorder traversal):");;
      print_tree (root data) "" true;;
      print ""
  | Null => mret tt
  end;;
  draw_tree data.
End Script.

(** *** More vocabulary for the tree script *)

(** The text [print_tree] shows for a node value. *)
Definition display_value (value : string) : string :=
  if String.eqb value "ε" then "ε (epsilon)" else value.

(** The node values with their depths, in preorder (node, left subtree,
    right subtree); the root is at depth [d]. *)
Fixpoint preorder (t : tree) (d : nat) : list (nat * string) :=
  match t with
  | Null => []
  | Node _ v l r => (d, v) :: preorder l (S d) ++ preorder r (S d)
  end.

Definition is_line (ev : Py.event directive) : bool :=
  match ev with Py.Draw (PlotLine _ _) => true | _ => false end.

Definition is_circle (ev : Py.event directive) : bool :=
  match ev with Py.Draw (Circle _ _ _) => true | _ => false end.

Definition is_text (ev : Py.event directive) : bool :=
  match ev with Py.Draw (Text _ _) => true | _ => false end.

Definition ycoord (p : float * float) : float := snd p.

(** How many lines, circles and texts a run has drawn. *)
Definition count_lines (evs : list (Py.event directive)) : nat :=
  length (filter (λ ev, is_line ev = true) evs).

Definition count_circles (evs : list (Py.event directive)) : nat :=
  length (filter (λ ev, is_circle ev = true) evs).

Definition count_texts (evs : list (Py.event directive)) : nat :=
  length (filter (λ ev, is_text ev = true) evs).

End SyntaxTree.

(** ** The DFA script *)

Module Dfa.
Import Py.

Record state : Type := { id : Z; accepting : bool }.

Record transition : Type := { from : Z; to : Z; symbol : string }.

(** The loaded document.  [states] and [transitions] are [[]] when the key
    is missing ([dfa_data.get('states', [])]); [start_state] is [None] when
    the key is missing or [null]. *)
Record dfa_data : Type := {
  states : list state;
  start_state : option Z;
  transitions : list transition
}.

(** The part of [networkx.DiGraph] the script uses: the nodes in insertion
    order, each with its ['accepting'] attribute when it has one, and the
    edges in insertion order. *)
Record DiGraph : Type := {
  nodes : list (Z * option bool);
  adj : list (Z * Z)
}.

Definition empty_graph : DiGraph := {| nodes := []; adj := [] |}.

Definition has_node (G : DiGraph) (n : Z) : bool :=
  bool_decide (n ∈ (nodes G).*1).

(** [G.add_node(n, accepting=a)]: a new node, or the attribute of the
    existing one updated. *)
Definition add_node (G : DiGraph) (n : Z) (a : bool) : DiGraph :=
  if has_node G n then
    {| nodes := (λ na, if bool_decide (na.1 = n) then (n, Some a) else na)
                  <$> nodes G;
       adj := adj G |}
  else {| nodes := nodes G ++ [(n, Some a)]; adj := adj G |}.

(** A node that an edge mentions is created without attributes. *)
Definition ensure_node (G : DiGraph) (n : Z) : DiGraph :=
  if has_node G n then G
  else {| nodes := nodes G ++ [(n, None)]; adj := adj G |}.

Definition has_edge (G : DiGraph) (u v : Z) : bool :=
  bool_decide ((u, v) ∈ adj G).

Definition add_edge (G : DiGraph) (u v : Z) : DiGraph :=
  let G := ensure_node (ensure_node G u) v in
  if has_edge G u v then G
  else {| nodes := nodes G; adj := adj G ++ [(u, v)] |}.

(** [G.edges()]: node by node, the out-edges of each in insertion order. *)
Definition edges (G : DiGraph) : list (Z * Z) :=
  n ← (nodes G).*1; filter (λ e, e.1 = n) (adj G).

(** [G.nodes[n]['accepting']] *)
Definition node_accepting {D : Type} (G : DiGraph) (n : Z) : M D bool :=
  match list_find (λ na, na.1 = n) (nodes G) with
  | Some (_, (_, Some a)) => mret a
  | _ => raise (KeyError "accepting")
  end.

Definition edge_key_repr (u v : Z) : string :=
  "(" +:+ str u +:+ ", " +:+ str v +:+ ")".

(** The draw calls of [draw_dfa].  The coordinates come from
    [nx.spring_layout] (called a second time with default parameters if the
    first call raises), which places every node of the graph; a draw call
    is recorded with the node or the edge it is drawn at. *)
Inductive directive : Type :=
| LoopCircle (u : Z)
| LoopLabel (u : Z) (label : string)
| EdgeArrow (u v : Z)
| EdgeLabel (u v : Z) (label : string)
| OuterCircle (node : Z) (edge_color : string)
| MainCircle (node : Z) (node_color edge_color : string)
| NodeLabel (node : Z) (text : string)
| StartArrow (node : Z) (edge_color : string)
| StartText (node : Z)
| Title (text : string)
| InfoText (text : string)
| Legend
| AxisLimits.

(** One round of the loop over the transitions. *)
Definition add_transition {D : Type} (acc : DiGraph * gmap (Z * Z) string)
    (trans : transition) : M D (DiGraph * gmap (Z * Z) string) :=
  let '(G, edge_labels) := acc in
  let from_state := from trans in
  let to_state := to trans in
  let symbol := symbol trans in
  if has_edge G from_state to_state then
    current_label ← getitem edge_labels (from_state, to_state)
                      (edge_key_repr from_state to_state);
    if bool_decide (symbol ∈ split_comma_space current_label)
    then mret (G, edge_labels)
    else mret (G, <[(from_state, to_state) :=
                      current_label +:+ ", " +:+ symbol]> edge_labels)
  else
    mret (add_edge G from_state to_state,
          <[(from_state, to_state) := symbol]> edge_labels).

(** The loop over the states: one [add_node] for each. *)
Definition add_states (states : list state) : DiGraph :=
  fold_left (λ G state, add_node G (id state) (accepting state))
    states empty_graph.

(** The graph and the edge labels [draw_dfa] builds. *)
Definition build_graph {D : Type} (states : list state)
    (transitions : list transition) : M D (DiGraph * gmap (Z * Z) string) :=
  let G := add_states states in
  foldM add_transition transitions (G, ∅).

Definition draw_edge (edge_labels : gmap (Z * Z) string) (e : Z * Z)
    : M directive unit :=
  let '(u, v) := e in
  if bool_decide (u = v) then
    draw (LoopCircle u);;
    label ← getitem edge_labels (u, v) (edge_key_repr u v);
    draw (LoopLabel u label)
  else
    draw (EdgeArrow u v);;
    label ← getitem edge_labels (u, v) (edge_key_repr u v);
    draw (EdgeLabel u v label).

Definition draw_node (G : DiGraph) (start_state_id : option Z) (node_id : Z)
    : M directive unit :=
  is_accepting ← node_accepting G node_id;
  let is_start := bool_decide (Some node_id = start_state_id) in
  let '(node_color, edge_color) :=
    if is_start && is_accepting then ("#90EE90", "#228B22")
    else if is_start then ("#87CEEB", "#4169E1")
    else if is_accepting then ("#FFB6C1", "#DC143C")
    else ("#F0F0F0", "#696969") in
  (if is_accepting then draw (OuterCircle node_id edge_color) else mret tt);;
  draw (MainCircle node_id node_color edge_color);;
  draw (NodeLabel node_id (str node_id));;
  if is_start then
    draw (StartArrow node_id edge_color);;
    draw (StartText node_id)
  else mret tt.

(** [sum(1 for s in states if s['accepting'])] *)
Definition count_accepting (states : list state) : nat :=
  length (filter (λ s, accepting s = true) states).

Definition draw_dfa (data : dfa_data) : M directive unit :=
  let states := states data in
  let start_state_id := start_state data in
  let transitions := transitions data in
  match states with
  | [] => print "Error: No states found in DFA."
  | _ :: _ =>
      '(G, edge_labels) ← build_graph states transitions;
      for_each (edges G) (draw_edge edge_labels);;
      for_each (nodes G).*1 (draw_node G start_state_id);;
      draw (Title "DFA (Deterministic Finite Automaton)");;
      draw (InfoText
              ("Total States: " +:+ str (Z.of_nat (length states))
               +:+ newline +:+
               "Accepting States: "
               +:+ str (Z.of_nat (count_accepting states)) +:+ newline +:+
               "Transitions: " +:+ str (Z.of_nat (length transitions))));;
      draw Legend;;
      draw AxisLimits;;
      savefig "dfa.png";;
      print "DFA visualization saved as 'dfa.png'"
  end.

(** The sort key [(t['from'], t['symbol'], t['to'])], compared as Python
    compares tuples. *)
Definition key_le (t1 t2 : transition) : bool :=
  match (from t1 ?= from t2)%Z with
  | Lt => true
  | Gt => false
  | Eq =>
      match String.compare (symbol t1) (symbol t2) with
      | Lt => true
      | Gt => false
      | Eq => (to t1 <=? to t2)%Z
      end
  end.

Fixpoint insert_sorted (t : transition) (l : list transition)
    : list transition :=
  match l with
  | [] => [t]
  | t' :: l' => if key_le t t' then t :: l else t' :: insert_sorted t l'
  end.

(** [sorted(transitions, key=...)] *)
Definition sorted (l : list transition) : list transition :=
  foldr insert_sorted [] l.

(** [[s['id'] for s in states if s['accepting']]] *)
Definition accepting_states (states : list state) : list Z :=
  id <$> filter (λ s, accepting s = true) states.

(** The line of the summary that shows the accepting states. *)
Definition accepting_line (states : list state) : string :=
  "Accepting States:  {" +:+
  join_comma_space (str <$> accepting_states states) +:+ "}".

(** *** Vocabulary for the properties of the aggregation *)

(** The ordered pair of a transition. *)
Definition pair_of (t : transition) : Z * Z := (from t, to t).

(** The symbols of the transitions on one ordered pair, in document
    order. *)
Definition symbols_for (e : Z * Z) (ts : list transition) : list string :=
  symbol <$> filter (λ t, pair_of t = e) ts.

(** The distinct elements of a list in order of first appearance. *)
Definition first_seen (l : list string) : list string :=
  fold_left (λ seen s, if bool_decide (s ∈ seen) then seen else seen ++ [s])
    l [].

(** The label the specification gives to a merged edge: the distinct
    symbols of the pair, in order of first appearance, joined by [", "]. *)
Definition spec_label (e : Z * Z) (ts : list transition) : string :=
  join_comma_space (first_seen (symbols_for e ts)).

(** Transition aggregation as the specification states it, for one
    document: the loop succeeds, there is exactly one merged edge for each
    pair that has a transition and none for the others, and the label of a
    merged edge is [spec_label], in which each symbol of the pair occurs
    once. *)
Definition aggregation_as_specified (states : list state)
    (transitions : list transition) : Prop :=
  ∃ G edge_labels,
    build_graph (D:=directive) states transitions = ([], inr (G, edge_labels))
    ∧ NoDup (edges G)
    ∧ (∀ e, e ∈ edges G ↔ e ∈ pair_of <$> transitions)
    ∧ (∀ e, e ∈ pair_of <$> transitions →
         ∃ label,
           edge_labels !! e = Some label
           ∧ label = spec_label e transitions
           ∧ ∀ s, s ∈ symbols_for e transitions →
               length (filter (λ tok, tok = s) (split_comma_space label)) = 1).

(** What holds of the graph and the labels after the transitions [ts] have
    been processed. *)
Record graph_inv (ts : list transition) (G : DiGraph)
    (edge_labels : gmap (Z * Z) string) : Prop := {
  inv_nodes_NoDup : NoDup (nodes G).*1;
  inv_adj_NoDup : NoDup (adj G);
  inv_adj_pairs : ∀ e, e ∈ adj G ↔ e ∈ pair_of <$> ts;
  inv_labels_dom : ∀ e, is_Some (edge_labels !! e) ↔ e ∈ adj G;
  inv_sources : ∀ e, e ∈ adj G → e.1 ∈ (nodes G).*1
}.

Definition labels_inv (ts : list transition)
    (edge_labels : gmap (Z * Z) string) : Prop :=
  ∀ e, e ∈ pair_of <$> ts → edge_labels !! e = Some (spec_label e ts).

(** Every transition goes from a declared state to a declared state (the
    invariant of a DFA document). *)
Definition references_declared (states : list state)
    (transitions : list transition) : Prop :=
  Forall (λ t, from t ∈ id <$> states ∧ to t ∈ id <$> states) transitions.

(** *** Vocabulary for the properties of the report and of the rendering *)

(** The accepting-state ids are shown in numeric order. *)
Definition accepting_in_numeric_order (states : list state) : Prop :=
  Sorted Z.le (accepting_states states).

(** A degenerate document: no start state, no state or no transition. *)
Definition degenerate (data : dfa_data) : Prop :=
  start_state data = None ∨ states data = [] ∨ transitions data = [].

(** The start state of the document is not the id of any of its states. *)
Definition dangling_start (data : dfa_data) : Prop :=
  ∀ s, s ∈ states data → Some (id s) ≠ start_state data.

(** The fill and outline colours of the two node styles that are not start
    styles: accepting-only and plain. *)
Definition non_start_style (node_color edge_color : string) : Prop :=
  (node_color = "#FFB6C1" ∧ edge_color = "#DC143C")
  ∨ (node_color = "#F0F0F0" ∧ edge_color = "#696969").

(** No symbol of the document contains the separator. *)
Definition separator_free (transitions : list transition) : Prop :=
  Forall (λ t, contains_comma_space (symbol t) = false) transitions.

(** The events after the two loops of [draw_dfa]. *)
Definition closing_events (data : dfa_data) : list (event directive) :=
  [ Draw (Title "DFA (Deterministic Finite Automaton)");
    Draw (InfoText
            ("Total States: " +:+ str (Z.of_nat (length (states data)))
             +:+ newline +:+
             "Accepting States: "
             +:+ str (Z.of_nat (count_accepting (states data)))
             +:+ newline +:+
             "Transitions: "
             +:+ str (Z.of_nat (length (transitions data)))));
    Draw Legend;
    Draw AxisLimits;
    SaveFig "dfa.png";
    Print "DFA visualization saved as 'dfa.png'" ].

(** Example documents. *)

(** Two accepting states, listed with the larger id first. *)
Definition two_accepting : list state :=
  [ {| id := 2; accepting := true |}; {| id := 1; accepting := true |} ].

(** One state, no start state, no transition. *)
Definition lone_state : dfa_data :=
  {| states := [ {| id := 0; accepting := true |} ];
     start_state := None;
     transitions := [] |}.

(** No state at all. *)
Definition no_states : dfa_data :=
  {| states := []; start_state := None; transitions := [] |}.

(** The transitions of the example in the specification. *)
Definition a_b_a : list transition :=
  [ {| from := 0; to := 1; symbol := "a" |};
    {| from := 0; to := 1; symbol := "b" |};
    {| from := 0; to := 1; symbol := "a" |} ].

(** A start state that names no state, and a transition to a state that is
    not declared. *)
Definition undeclared_target : dfa_data :=
  {| states := [ {| id := 0; accepting := false |} ];
     start_state := Some 7%Z;
     transitions := [ {| from := 0; to := 1; symbol := "a" |} ] |}.

(** The same document with the declared state as start state. *)
Definition declared_start : dfa_data :=
  {| states := [ {| id := 0; accepting := false |} ];
     start_state := Some 0%Z;
     transitions := [ {| from := 0; to := 1; symbol := "a" |} ] |}.

(** Two states and a start state that names neither. *)
Definition dangling : dfa_data :=
  {| states := [ {| id := 0; accepting := false |};
                 {| id := 1; accepting := true |} ];
     start_state := Some 7%Z;
     transitions := [ {| from := 0; to := 1; symbol := "a" |};
                      {| from := 1; to := 1; symbol := "b" |} ] |}.

Definition rule : string := repeat_string "=" 70.
Definition thin_rule : string := repeat_string "-" 70.

(** A row of the transition table:
    [f"{trans['from']:<8} {trans['symbol']:<10} {trans['to']:<8}"]. *)
Definition table_row (trans : transition) : string :=
  ljust 8 (str (from trans)) +:+ " " +:+
  ljust 10 (symbol trans) +:+ " " +:+
  ljust 8 (str (to trans)).

(** The console lines of [main] before it calls [draw_dfa]. *)
Definition report_lines (data : dfa_data) : list string :=
  [ newline +:+ rule;
    "DFA (DETERMINISTIC FINITE AUTOMATON)";
    rule;
    "Total States:      " +:+ str (Z.of_nat (length (states data)));
    "Start State:       " +:+ str_option (start_state data);
    accepting_line (states data);
    "Total Transitions: " +:+ str (Z.of_nat (length (transitions data)));
    "";
    "Transition Table:";
    thin_rule;
    ljust 8 "From" +:+ " " +:+ ljust 10 "Symbol" +:+ " " +:+ ljust 8 "To";
    thin_rule ]
  ++ (table_row <$> sorted (transitions data))
  ++ [ rule; "" ].

Section Script.
Variable json_load : string → option dfa_data.

Definition load_dfa (fs : filesystem) (filename : string)
    : M directive dfa_data :=
  try_except
    (f ← open fs filename;
     load_json json_load f)
    (λ e, match e with
          | FileNotFoundError =>
              Some (print ("Error: " +:+ filename +:+ " not found.");;
                    sys_exit 1)
          | JSONDecodeError =>
              Some (print ("Error: Invalid JSON in " +:+ filename);;
                    sys_exit 1)
          | _ => None
          end).

Definition main (fs : filesystem) : M directive unit :=
  data ← load_dfa fs "dfa.json";
  print (newline +:+ rule);;
  print "DFA (DETERMINISTIC FINITE AUTOMATON)";;
  print rule;;
  let states := states data in
  let start_state_id := start_state data in
  let transitions := transitions data in
  print ("Total States:      " +:+ str (Z.of_nat (length states)));;
  print ("Start State:       " +:+ str_option start_state_id);;
  let accepting_states := accepting_states states in
  print ("Accepting States:  {" +:+
         join_comma_space (str <$> accepting_states) +:+ "}");;
  print ("Total Transitions: " +:+ str (Z.of_nat (length transitions)));;
  print "";;
  print "Transition Table:";;
  print thin_rule;;
  print (ljust 8 "From" +:+ " " +:+ ljust 10 "Symbol" +:+ " "
         +:+ ljust 8 "To");;
  print thin_rule;;
  for_each (sorted transitions) (λ trans, print (table_row trans));;
  print rule;;
  print "";;
  draw_dfa data.
End Script.

(** *** More vocabulary for the DFA script *)

(** What holds of the labels for every document, with or without
    separators in the symbols: the label of a pair is the join of some of
    its symbols, in document order, beginning with the first. *)
Definition labels_sound (ts : list transition)
    (edge_labels : gmap (Z * Z) string) : Prop :=
  ∀ e, e ∈ pair_of <$> ts →
    ∃ kept,
      edge_labels !! e = Some (join_comma_space kept)
      ∧ kept `sublist_of` symbols_for e ts
      ∧ head kept = head (symbols_for e ts)
      ∧ kept ≠ [].

(** The fill and outline colours of a node, from its two flags. *)
Definition node_style (is_start is_accepting : bool) : string * string :=
  match is_start, is_accepting with
  | true, true => ("#90EE90", "#228B22")
  | true, false => ("#87CEEB", "#4169E1")
  | false, true => ("#FFB6C1", "#DC143C")
  | false, false => ("#F0F0F0", "#696969")
  end.

(** The draw calls of the loop over the edges. *)
Definition is_edge_event (ev : event directive) : bool :=
  match ev with
  | Draw (LoopCircle _) | Draw (LoopLabel _ _)
  | Draw (EdgeArrow _ _) | Draw (EdgeLabel _ _ _) => true
  | _ => false
  end.

(** The draw calls of the loop over the nodes. *)
Definition is_node_event (ev : event directive) : bool :=
  match ev with
  | Draw (OuterCircle _ _) | Draw (MainCircle _ _ _) | Draw (NodeLabel _ _)
  | Draw (StartArrow _ _) | Draw (StartText _) => true
  | _ => false
  end.

(** The start state of the document is the state [s]. *)
Definition is_start_state (data : dfa_data) (s : state) : bool :=
  bool_decide (Some (id s) = start_state data).

End Dfa.

(** * Properties of the float arithmetic *)

Module FloatFacts.
Import Binary64.

Lemma digits2_size m : digits2_pos m = Pos.size m.
Proof. induction m as [m IH|m IH|]; cbn; by rewrite ?IH. Qed.

Lemma digits_pos m : (0 < digits m)%Z.
Proof. unfold digits. lia. Qed.

Lemma digits_bounds m : (2 ^ (digits m - 1) <= Zpos m < 2 ^ digits m)%Z.
Proof.
  unfold digits. rewrite digits2_size. split.
  - pose proof (Pos.size_le m) as H.
    assert (H' : (Zpos (2 ^ Pos.size m) <= Zpos m~0)%Z) by lia.
    rewrite Pos2Z.inj_pow in H'.
    replace (Zpos (Pos.size m)) with (Z.succ (Zpos (Pos.size m) - 1)) in H' by lia.
    rewrite Z.pow_succ_r in H' by lia. lia.
  - pose proof (Pos.size_gt m) as H.
    assert (H' : (Zpos m < Zpos (2 ^ Pos.size m))%Z) by lia.
    by rewrite Pos2Z.inj_pow in H'.
Qed.

Lemma digits_le m n : (Zpos m < 2 ^ n)%Z → (0 <= n)%Z → (digits m <= n)%Z.
Proof.
  intros Hlt Hn. destruct (Z.le_gt_cases (digits m) n) as [|Hgt]; [done|].
  pose proof (digits_bounds m) as [Hlo _].
  assert (2 ^ n <= 2 ^ (digits m - 1))%Z by (apply Z.pow_le_mono_r; lia).
  lia.
Qed.

Lemma digits_mono m n : (Zpos m <= Zpos n)%Z → (digits m <= digits n)%Z.
Proof.
  intros Hle. apply digits_le; [|pose proof (digits_pos n); lia].
  pose proof (digits_bounds n). lia.
Qed.

Lemma shl_0 m : shl m 0 = m.
Proof. done. Qed.

Lemma shl_succ m k : (0 <= k)%Z → shl m (Z.succ k) = xO (shl m k).
Proof.
  intros Hk. destruct k as [|n|n]; [done| |lia].
  replace (Z.succ (Zpos n)) with (Zpos (Pos.succ n)) by lia.
  cbn [shl]. by rewrite Pos.iter_succ.
Qed.

Lemma shl_spec m k : (0 <= k)%Z → Zpos (shl m k) = (Zpos m * 2 ^ k)%Z.
Proof.
  intros Hk. pattern k. apply natlike_ind; [| |done].
  - rewrite shl_0. lia.
  - intros j Hj IH. rewrite shl_succ, Z.pow_succ_r by done.
    rewrite Pos2Z.inj_xO, IH. lia.
Qed.

Lemma shl_inj_eq m n : (0 <= n)%Z → ∀ p, Zpos p = (Zpos m * 2 ^ n)%Z → p = shl m n.
Proof. intros Hn p Hp. rewrite <- shl_spec in Hp by done. by injection Hp. Qed.

Lemma shl_shl m j k : (0 <= j)%Z → (0 <= k)%Z → shl (shl m j) k = shl m (j + k).
Proof.
  intros Hj Hk. apply shl_inj_eq; [lia|].
  rewrite !shl_spec, Z.pow_add_r by lia. lia.
Qed.

Lemma digits_shl m k : (0 <= k)%Z → digits (shl m k) = (digits m + k)%Z.
Proof.
  intros Hk. pattern k. apply natlike_ind; [| |done].
  - rewrite shl_0. lia.
  - intros j Hj IH. rewrite shl_succ by done.
    unfold digits in *. cbn [digits2_pos]. lia.
Qed.

Lemma iter_pos_iter {A : Type} (f : A → A) n x :
  SpecFloat.iter_pos f n x = Pos.iter f x n.
Proof.
  revert x; induction n as [n IH|n IH|]; intros x; cbn; [|by rewrite !IH|done].
  by rewrite !IH, <- !Pos.iter_swap.
Qed.

Lemma shr_exact m n :
  SpecFloat.iter_pos shr_1 n {| shr_m := Zpos (shl m (Zpos n)); shr_r := false; shr_s := false |}
  = {| shr_m := Zpos m; shr_r := false; shr_s := false |}.
Proof.
  rewrite iter_pos_iter. revert m. induction n as [|n IH] using Pos.peano_ind; intros m.
  - done.
  - rewrite Pos.iter_succ_r.
    replace (Zpos (Pos.succ n)) with (Z.succ (Zpos n)) by lia.
    rewrite shl_succ by lia. cbn [shr_1 orb]. apply IH.
Qed.

Lemma shl_align_fst m e e' : (e' <= e)%Z → (shl_align m e e').1 = shl m (e - e').
Proof.
  intros Hle. unfold shl_align.
  destruct (e' - e)%Z as [|d|d] eqn:Hd.
  - by replace (e - e')%Z with 0%Z by lia.
  - lia.
  - by replace (e - e')%Z with (Zpos d) by lia.
Qed.

(** Rounding a mantissa that fits in 53 bits is exact. *)
Lemma binary_round_exact m j e :
  (0 <= j)%Z → (digits m <= 53)%Z →
  (-1074 <= e + j + digits m - 53 <= 971)%Z →
  binary_round prec emax false (shl m j) e
  = S754_finite false (shl m (53 - digits m)) (e + j + digits m - 53).
Proof.
  intros Hj Hd He. unfold binary_round.
  change (Zpos (digits2_pos (shl m j))) with (digits (shl m j)).
  rewrite digits_shl by done.
  assert (Hfexp : ∀ d, (-1074 <= d - 53)%Z → fexp prec emax d = (d - 53)%Z).
  { intros d Hd'. unfold fexp, emin, prec, emax. lia. }
  rewrite Hfexp by lia.
  set (e1 := (e + j + digits m - 53)%Z) in *.
  assert (Hfinal : ∀ e0, e0 = e1 →
    binary_round_aux prec emax false (Zpos (shl m (53 - digits m))) e0 loc_Exact
    = S754_finite false (shl m (53 - digits m)) e1).
  { intros e0 ->. unfold binary_round_aux, shr_fexp.
    change (Zdigits2 (Zpos ?p)) with (digits p).
    rewrite digits_shl by lia. rewrite Hfexp by lia.
    replace (digits m + (53 - digits m) + e1 - 53 - e1)%Z with 0%Z by lia.
    cbn [shr shr_record_of_loc loc_of_shr_record shr_m round_nearest_even].
    change (Zdigits2 (Zpos ?p)) with (digits p).
    rewrite digits_shl by lia. rewrite Hfexp by lia.
    replace (digits m + (53 - digits m) + e1 - 53 - e1)%Z with 0%Z by lia.
    cbn [shr shr_record_of_loc shr_m].
    unfold prec, emax. destruct (Z.leb_spec e1 (1024 - 53)); [done|lia]. }
  unfold shl_align.
  destruct (digits m + j + e - 53 - e)%Z as [|d|d] eqn:Hshift.
  - (* already 53 digits *)
    assert (j = 53 - digits m)%Z as -> by lia. apply Hfinal. unfold e1. lia.
  - (* more than 53 digits: the low bits are zero *)
    unfold binary_round_aux at 1, shr_fexp at 1.
    change (Zdigits2 (Zpos ?p)) with (digits p).
    rewrite digits_shl by done. rewrite Hfexp by lia.
    rewrite Hshift. cbn [shr shr_record_of_loc].
    assert (Hsplit : shl m j = shl (shl m (53 - digits m)) (Zpos d)).
    { rewrite shl_shl by lia. f_equal. lia. }
    rewrite Hsplit, shr_exact.
    cbn [loc_of_shr_record shr_m round_nearest_even].
    unfold shr_fexp. change (Zdigits2 (Zpos ?p)) with (digits p).
    rewrite digits_shl by lia. rewrite Hfexp by lia.
    replace (digits m + (53 - digits m) + (e + Zpos d) - 53 - (e + Zpos d))%Z
      with 0%Z by lia.
    cbn [shr shr_record_of_loc shr_m].
    replace (e + Zpos d)%Z with e1 by (unfold e1; lia).
    unfold prec, emax. destruct (Z.leb_spec e1 (1024 - 53)); [done|lia].
  - (* fewer than 53 digits: shift left *)
    change (Pos.iter xO (shl m j) d) with (shl (shl m j) (Zpos d)).
    rewrite shl_shl by lia.
    replace (j + Zpos d)%Z with (53 - digits m)%Z by lia.
    apply Hfinal. unfold e1. lia.
Qed.

Lemma of_scaled_pos c m :
  grid_exponent c → (Zpos m < 2 ^ 53)%Z →
  of_scaled (Zpos m) c
  = S754_finite false (shl m (53 - digits m)) (c + digits m - 53).
Proof.
  intros Hc Hm. pose proof (digits_pos m).
  assert (digits m <= 53)%Z by (by apply digits_le).
  unfold of_scaled, binary_normalize. rewrite <- (shl_0 m) at 1.
  rewrite binary_round_exact; [f_equal; lia|lia|done|unfold grid_exponent in Hc; lia].
Qed.

Lemma add_of_scaled c p q :
  grid_exponent c → (0 <= p)%Z → (0 <= q)%Z → (p + q < 2 ^ 53)%Z →
  add (of_scaled p c) (of_scaled q c) = of_scaled (p + q) c.
Proof.
  intros Hc Hp Hq Hsum.
  destruct p as [|p|p]; [|destruct q as [|q|q]|lia]; [| |clear Hp Hq|lia].
  - rewrite Z.add_0_l. destruct q as [|q|q]; [done| |lia].
    by rewrite of_scaled_pos by (done || lia).
  - rewrite Z.add_0_r. by rewrite of_scaled_pos by (done || lia).
  - change (Zpos p + Zpos q)%Z with (Zpos (p + q)) in *.
    rewrite !of_scaled_pos by (done || lia).
    pose proof (digits_pos p). pose proof (digits_pos q).
    assert (digits p <= digits (p + q))%Z by (apply digits_mono; lia).
    assert (digits q <= digits (p + q))%Z by (apply digits_mono; lia).
    assert (digits (p + q) <= 53)%Z by (by apply digits_le).
    unfold add, SFadd. cbn [cond_Zopp].
    remember (Z.min (c + digits p - 53) (c + digits q - 53)) as ez eqn:Hez.
    rewrite !shl_align_fst by lia. rewrite !shl_shl by lia.
    replace (53 - digits p + (c + digits p - 53 - ez))%Z with (- ez + c)%Z by lia.
    replace (53 - digits q + (c + digits q - 53 - ez))%Z with (- ez + c)%Z by lia.
    assert (Hk : (0 <= - ez + c)%Z) by lia.
    assert (Hadd : (Zpos (shl p (- ez + c)) + Zpos (shl q (- ez + c)))%Z
                   = Zpos (shl (p + q) (- ez + c))).
    { rewrite !shl_spec by done. lia. }
    rewrite Hadd. cbn [binary_normalize].
    rewrite binary_round_exact; [f_equal; lia|done|done|].
    unfold grid_exponent in Hc. lia.
Qed.

Lemma compare_shl m n k :
  (0 <= k)%Z → Pos.compare (shl m k) (shl n k) = Pos.compare m n.
Proof.
  intros Hk. rewrite !Pos2Z.inj_compare, !shl_spec by done.
  assert (0 < 2 ^ k)%Z by (by apply Z.pow_pos_nonneg).
  destruct (Z.compare_spec (Zpos m) (Zpos n)) as [Heq|Hlt|Hgt].
  - rewrite Heq. apply Z.compare_refl.
  - apply Z.compare_lt_iff. nia.
  - apply Z.compare_gt_iff. nia.
Qed.

Lemma compare_of_scaled c a b :
  grid_exponent c → (0 <= a < 2 ^ 53)%Z → (0 <= b < 2 ^ 53)%Z →
  SFcompare (of_scaled a c) (of_scaled b c) = Some (a ?= b)%Z.
Proof.
  intros Hc Ha Hb.
  destruct a as [|a|a]; [|destruct b as [|b|b]|lia]; [| | |lia].
  - destruct b as [|b|b]; [done| |lia].
    by rewrite of_scaled_pos by (done || lia).
  - by rewrite of_scaled_pos by (done || lia).
  - rewrite !of_scaled_pos by (done || lia). cbn [SFcompare]. f_equal.
    pose proof (digits_bounds a) as [Ha1 Ha2].
    pose proof (digits_bounds b) as [Hb1 Hb2].
    pose proof (digits_pos a). pose proof (digits_pos b).
    destruct (Z.compare_spec (c + digits a - 53) (c + digits b - 53))
      as [Heq|Hlt|Hgt].
    + assert (Hd : digits a = digits b) by lia. rewrite Hd.
      rewrite Pos.compare_cont_spec. cbn [Pos.switch_Eq].
      rewrite compare_shl by (assert (digits b <= 53)%Z by (apply digits_le; lia); lia).
      cbn [Z.compare]. by destruct (Pos.compare a b).
    + symmetry. apply Z.compare_lt_iff.
      assert (2 ^ digits a <= 2 ^ (digits b - 1))%Z
        by (apply Z.pow_le_mono_r; lia). lia.
    + symmetry. apply Z.compare_gt_iff.
      assert (2 ^ digits b <= 2 ^ (digits a - 1))%Z
        by (apply Z.pow_le_mono_r; lia). lia.
Qed.

Lemma value_of_scaled c k :
  grid_exponent c → (0 <= k < 2 ^ 53)%Z →
  (value (of_scaled k c) == inject_Z k * 2 ^ c)%Q.
Proof.
  intros Hc Hk. destruct k as [|m|m]; [| |lia].
  { change (value (of_scaled 0 c)) with 0%Q. change (inject_Z 0) with 0%Q.
    by rewrite Qmult_0_l. }
  rewrite of_scaled_pos by (done || lia).
  pose proof (digits_pos m).
  assert (digits m <= 53)%Z by (apply digits_le; lia).
  cbn [value cond_Zopp]. rewrite shl_spec by lia.
  rewrite inject_Z_mult.
  rewrite (Zpower_Qpower 2) by lia.
  change (inject_Z 2) with 2%Q.
  rewrite <- Qmult_assoc, <- Qpower_plus by done.
  by replace (53 - digits m + (c + digits m - 53))%Z with c by lia.
Qed.

End FloatFacts.

(** The float constants of this file are what the literals of the source
    denote, and two of the roundings above, checked against the machine
    floats of the kernel. *)
Module LiteralFacts.
Import PrimFloat.

Example literals_as_parsed :
  FloatOps.Prim2SF 1.5%float = SyntaxTree.default_x_spacing
  ∧ FloatOps.Prim2SF 1.2%float = SyntaxTree.default_y_spacing
  ∧ FloatOps.Prim2SF 0%float = Binary64.zero
  ∧ FloatOps.Prim2SF 1e16%float = SyntaxTree.float_1e16
  ∧ FloatOps.Prim2SF 1%float = SyntaxTree.float_1
  ∧ FloatOps.Prim2SF 10%float = SyntaxTree.float_10
  ∧ FloatOps.Prim2SF 0.1%float = SyntaxTree.float_tenth.
Proof. repeat split; by vm_compute. Qed.

Example machine_addition_agrees :
  FloatOps.Prim2SF (1e16 + 1)%float
  = Binary64.add SyntaxTree.float_1e16 SyntaxTree.float_1
  ∧ FloatOps.Prim2SF (0 - 1.2 - 1.2 - 1.2)%float
    = SyntaxTree.row Binary64.zero SyntaxTree.default_y_spacing 3.
Proof. split; by vm_compute. Qed.

End LiteralFacts.

(** * Properties of the tree layout *)

Module TreeFacts.
Import Binary64 SyntaxTree FloatFacts.

(** The guard on the children only avoids a call that would return the
    empty layout anyway. *)
Lemma calculate_tree_positions_eq i v l r x y level xs ys :
  calculate_tree_positions (Node i v l r) x y level xs ys =
    let '(lp, lw) := calculate_tree_positions l x (sub y ys) (S level) xs ys in
    let '(rp, rw) :=
      calculate_tree_positions r (add (add x lw) xs) (sub y ys) (S level)
        xs ys in
    (rp ∪ (lp ∪ {[ i := (add x lw, y) ]}), add (add lw xs) rw).
Proof. destruct l, r; reflexivity. Qed.

Lemma ids_length t : length (ids t) = node_count t.
Proof.
  induction t as [|i v l IHl r IHr]; [done|].
  cbn [ids node_count]. rewrite length_app. cbn. lia.
Qed.

Lemma root_in_ids i v l r : i ∈ ids (Node i v l r).
Proof. cbn [ids]. apply elem_of_app. right. by left. Qed.

Lemma subtrees_ids s t : s ∈ subtrees t → ids s ⊆ ids t.
Proof.
  induction t as [|i v l IHl r IHr]; cbn [subtrees ids].
  - by intros ?%elem_of_nil.
  - intros [->|Hs]%elem_of_cons; [done|].
    apply elem_of_app in Hs as [Hs|Hs]; intros j Hj.
    + apply elem_of_app. left. by apply IHl.
    + apply elem_of_app. right. right. by apply IHr.
Qed.


Lemma ids_at_depth_ids t d j : j ∈ ids_at_depth t d → j ∈ ids t.
Proof.
  revert d; induction t as [|i v l IHl r IHr]; intros d;
    cbn [ids_at_depth ids].
  - by intros ?%elem_of_nil.
  - destruct d as [|d].
    + intros ->%list_elem_of_singleton. apply elem_of_app. right. by left.
    + intros [H|H]%elem_of_app; apply elem_of_app.
      * left. by eapply IHl.
      * right. right. by eapply IHr.
Qed.

Section Layout.
Variables x_spacing y_spacing : float.

Local Abbreviation calc t x y level :=
  (calculate_tree_positions t x y level x_spacing y_spacing).

(** The keys of the layout are the ids of the tree. *)
Lemma positions_dom t x y level :
  dom (calc t x y level).1 = list_to_set (ids t).
Proof.
  revert x y level; induction t as [|i v l IHl r IHr]; intros x y level.
  - simpl. by rewrite dom_empty_L.
  - rewrite calculate_tree_positions_eq.
    specialize (IHl x (sub y y_spacing) (S level)).
    destruct (calc l x (sub y y_spacing) (S level)) as [lp lw].
    specialize (IHr (add (add x lw) x_spacing) (sub y y_spacing) (S level)).
    destruct (calc r (add (add x lw) x_spacing) (sub y y_spacing) (S level))
      as [rp rw].
    cbn [fst snd ids] in *.
    rewrite !dom_union_L, dom_singleton_L, IHl, IHr.
    rewrite list_to_set_app_L, list_to_set_cons.
    apply set_eq; intros z. rewrite !elem_of_union. tauto.
Qed.

Lemma positions_lookup_Some t x y level j :
  j ∈ ids t → is_Some ((calc t x y level).1 !! j).
Proof.
  intros Hj. apply elem_of_dom. rewrite positions_dom.
  by apply elem_of_list_to_set.
Qed.

Lemma positions_lookup_None t x y level j :
  j ∉ ids t → (calc t x y level).1 !! j = None.
Proof.
  intros Hj. apply not_elem_of_dom. rewrite positions_dom.
  by rewrite elem_of_list_to_set.
Qed.

(** The width of a subtree does not depend on where it is anchored. *)
Lemma width_anchor_free t x y level x' y' level' :
  (calc t x y level).2 = (calc t x' y' level').2.
Proof.
  revert x y level x' y' level'; induction t as [|i v l IHl r IHr];
    intros x y level x' y' level'; [done|].
  rewrite !calculate_tree_positions_eq.
  specialize (IHl x (sub y y_spacing) (S level)
                x' (sub y' y_spacing) (S level')).
  destruct (calc l x (sub y y_spacing) (S level)) as [lp lw].
  destruct (calc l x' (sub y' y_spacing) (S level')) as [lp' lw'].
  cbn [snd] in IHl. subst lw'.
  specialize (IHr (add (add x lw) x_spacing) (sub y y_spacing) (S level)
                (add (add x' lw) x_spacing) (sub y' y_spacing) (S level')).
  destruct (calc r (add (add x lw) x_spacing) (sub y y_spacing) (S level))
    as [rp rw].
  destruct (calc r (add (add x' lw) x_spacing) (sub y' y_spacing) (S level'))
    as [rp' rw'].
  cbn [snd] in *. by subst rw'.
Qed.

(** With unique ids, no entry of the dictionary is overwritten by the two
    [update] calls: each part of the tree reads its own layout. *)
Lemma lookup_in_left i v l r x y level j :
  NoDup (ids (Node i v l r)) → j ∈ ids l →
  (calc (Node i v l r) x y level).1 !! j =
    (calc l x (sub y y_spacing) (S level)).1 !! j.
Proof.
  intros Hnd Hj. rewrite calculate_tree_positions_eq.
  destruct (calc l x (sub y y_spacing) (S level)) as [lp lw] eqn:El.
  pose proof (positions_lookup_None r (add (add x lw) x_spacing)
                (sub y y_spacing) (S level) j) as Hr.
  pose proof (positions_lookup_Some l x (sub y y_spacing) (S level) j Hj)
    as [p Hp].
  destruct (calc r (add (add x lw) x_spacing) (sub y y_spacing) (S level))
    as [rp rw].
  rewrite El in Hp. cbn [fst] in *.
  cbn [ids] in Hnd. apply NoDup_app in Hnd as (_ & Hlr & _).
  rewrite lookup_union_r.
  - rewrite Hp. by apply lookup_union_Some_l.
  - apply Hr. intros Hin. apply (Hlr j Hj). by right.
Qed.

Lemma lookup_in_right i v l r x y level j :
  NoDup (ids (Node i v l r)) → j ∈ ids r →
  (calc (Node i v l r) x y level).1 !! j =
    (calc r (add (add x (calc l x (sub y y_spacing) (S level)).2) x_spacing)
       (sub y y_spacing) (S level)).1 !! j.
Proof.
  intros Hnd Hj. rewrite calculate_tree_positions_eq.
  destruct (calc l x (sub y y_spacing) (S level)) as [lp lw] eqn:El.
  cbn [snd].
  pose proof (positions_lookup_Some r (add (add x lw) x_spacing)
                (sub y y_spacing) (S level) j Hj) as [p Hp].
  destruct (calc r (add (add x lw) x_spacing) (sub y y_spacing) (S level))
    as [rp rw].
  cbn [fst] in *. rewrite Hp. by apply lookup_union_Some_l.
Qed.

(** With unique ids the entry of the root is its own. *)
Lemma lookup_root i v l r x y level :
  NoDup (ids (Node i v l r)) →
  (calc (Node i v l r) x y level).1 !! i =
    Some (add x (calc l x (sub y y_spacing) (S level)).2, y).
Proof.
  intros Hnd. rewrite calculate_tree_positions_eq.
  cbn [ids] in Hnd. apply NoDup_app in Hnd as (_ & Hl & Hr).
  apply NoDup_cons in Hr as [Hr _].
  pose proof (positions_lookup_None l x (sub y y_spacing) (S level) i) as Hnl.
  destruct (calc l x (sub y y_spacing) (S level)) as [lp lw].
  pose proof (positions_lookup_None r (add (add x lw) x_spacing)
                (sub y y_spacing) (S level) i Hr) as Hnr.
  destruct (calc r (add (add x lw) x_spacing) (sub y y_spacing) (S level))
    as [rp rw].
  cbn [fst snd] in *.
  rewrite lookup_union_r by done. rewrite lookup_union_r.
  - apply lookup_singleton_eq.
  - apply Hnl. intros Hi. apply (Hl i Hi). by left.
Qed.

End Layout.

(** ** The layout on a grid

    When the anchor and the horizontal spacing are multiples [a * 2^c] and
    [s * 2^c] of one power of two, and the rightmost coordinate stays below
    [2^53 * 2^c], no addition of the layout rounds. *)

Section Grid.
Variables (c s : Z) (y_spacing : float).
Hypothesis c_range : grid_exponent c.
Hypothesis s_pos : (0 < s)%Z.

Local Abbreviation calc t x y level :=
  (calculate_tree_positions t x y level (of_scaled s c) y_spacing).

Lemma count_bounds (nl nr : nat) (a : Z) :
  (0 <= a)%Z →
  (a + Z.of_nat (nl + 1 + nr) * s < 2 ^ 53)%Z →
  (0 <= Z.of_nat nl * s)%Z ∧ (0 <= Z.of_nat nr * s)%Z
  ∧ (a + Z.of_nat nl * s + s + Z.of_nat nr * s < 2 ^ 53)%Z.
Proof.
  intros Ha Hb. rewrite !Nat2Z.inj_add, !Z.mul_add_distr_r in Hb.
  assert (0 <= Z.of_nat nl * s)%Z by (apply Z.mul_nonneg_nonneg; lia).
  assert (0 <= Z.of_nat nr * s)%Z by (apply Z.mul_nonneg_nonneg; lia).
  lia.
Qed.

(** The width of a subtree is the float of value (number of nodes) times
    the spacing. *)
Lemma grid_width t x y level :
  (Z.of_nat (node_count t) * s < 2 ^ 53)%Z →
  (calc t x y level).2 = of_scaled (Z.of_nat (node_count t) * s) c.
Proof.
  revert x y level; induction t as [|i v l IHl r IHr];
    intros x y level Hb; [done|].
  cbn [node_count] in Hb |- *.
  destruct (count_bounds (node_count l) (node_count r) 0) as (Hl & Hr & Hsum);
    [done|done|].
  rewrite calculate_tree_positions_eq.
  specialize (IHl x (sub y y_spacing) (S level)).
  destruct (calc l x (sub y y_spacing) (S level)) as [lp lw].
  specialize (IHr (add (add x lw) (of_scaled s c)) (sub y y_spacing)
                (S level)).
  destruct (calc r (add (add x lw) (of_scaled s c)) (sub y y_spacing)
              (S level)) as [rp rw].
  cbn [snd] in *. rewrite IHl, IHr by lia.
  rewrite !add_of_scaled by (done || lia).
  f_equal. lia.
Qed.

(** Every entry of the dictionary is the position of a node of that id:
    the one of index [k] in the order of the layout stands at
    [(a + k * s) * 2^c]. *)
Lemma grid_positions t a y level j p :
  (0 <= a)%Z → (a + Z.of_nat (node_count t) * s < 2 ^ 53)%Z →
  (calc t (of_scaled a c) y level).1 !! j = Some p →
  ∃ k, ids t !! k = Some j ∧ xcoord p = of_scaled (a + Z.of_nat k * s) c.
Proof.
  revert a y level; induction t as [|i v l IHl r IHr];
    intros a y level Ha Hb; [cbn; by rewrite lookup_empty|].
  cbn [node_count] in Hb.
  destruct (count_bounds (node_count l) (node_count r) a Ha Hb)
    as (Hl & Hr & Hsum).
  rewrite calculate_tree_positions_eq.
  pose proof (grid_width l (of_scaled a c) (sub y y_spacing) (S level)) as Hw.
  specialize (IHl a (sub y y_spacing) (S level)).
  destruct (calc l (of_scaled a c) (sub y y_spacing) (S level)) as [lp lw].
  cbn [fst snd] in Hw, IHl. rewrite Hw by lia.
  rewrite !add_of_scaled by (done || lia).
  specialize (IHr (a + Z.of_nat (node_count l) * s + s)%Z
                (sub y y_spacing) (S level)).
  destruct (calc r (of_scaled (a + Z.of_nat (node_count l) * s + s) c)
              (sub y y_spacing) (S level)) as [rp rw].
  cbn [fst snd ids] in *. intros Hp.
  apply lookup_union_Some_raw in Hp as [Hp|[_ Hp]].
  { destruct (IHr ltac:(lia) ltac:(lia) Hp) as (k & Hk & Hx).
    exists (length (ids l) + S k)%nat. split.
    - by rewrite lookup_app_r, Nat.add_comm, Nat.add_sub by lia.
    - rewrite Hx. f_equal. rewrite ids_length. lia. }
  apply lookup_union_Some_raw in Hp as [Hp|[_ Hp]].
  { destruct (IHl Ha ltac:(lia) Hp) as (k & Hk & Hx).
    exists k. split; [|done]. by apply lookup_app_l_Some. }
  apply lookup_singleton_Some in Hp as [<- <-].
  exists (length (ids l)). split.
  - by rewrite list_lookup_middle.
  - cbn [xcoord fst]. by rewrite ids_length.
Qed.

(** With unique ids, the node of index [k] has the entry of its id. *)
Lemma grid_inorder t a y level k j :
  NoDup (ids t) →
  (0 <= a)%Z → (a + Z.of_nat (node_count t) * s < 2 ^ 53)%Z →
  ids t !! k = Some j →
  ∃ p, (calc t (of_scaled a c) y level).1 !! j = Some p
       ∧ xcoord p = of_scaled (a + Z.of_nat k * s) c.
Proof.
  intros Hnd Ha Hb Hk.
  destruct (positions_lookup_Some (of_scaled s c) y_spacing t (of_scaled a c)
              y level j) as [p Hp]; [by eapply list_elem_of_lookup_2|].
  exists p. split; [done|].
  destruct (grid_positions t a y level j p Ha Hb Hp) as (k' & Hk' & ->).
  by rewrite (NoDup_lookup _ _ _ _ Hnd Hk Hk').
Qed.

(** The coordinate of an index stays inside the exact range. *)
Lemma index_bound t a (k : nat) :
  (0 <= a)%Z → (a + Z.of_nat (node_count t) * s < 2 ^ 53)%Z →
  (k < length (ids t))%nat →
  (0 <= a + Z.of_nat k * s < 2 ^ 53)%Z.
Proof.
  intros Ha Hb Hk. rewrite ids_length in Hk.
  assert (0 <= Z.of_nat k * s)%Z by (apply Z.mul_nonneg_nonneg; lia).
  assert (Z.of_nat k * s <= Z.of_nat (node_count t) * s)%Z
    by (apply Z.mul_le_mono_nonneg_r; lia).
  lia.
Qed.

End Grid.


Lemma leb_of_scaled c a b :
  grid_exponent c → (0 <= a < 2 ^ 53)%Z → (0 <= b < 2 ^ 53)%Z →
  (a <= b)%Z → leb (of_scaled a c) (of_scaled b c) = true.
Proof.
  intros Hc Ha Hb Hle. unfold leb, SFleb.
  rewrite compare_of_scaled by done.
  destruct (Z.compare_spec a b); [done|done|lia].
Qed.


(** ** The claims on the tree layout *)




(** The call of [draw_tree] is on the grid of the halves. *)
Lemma layout_on_grid t :
  layout t
  = calculate_tree_positions t (of_scaled 0 (-1)) zero 0 (of_scaled 3 (-1))
      default_y_spacing.
Proof. reflexivity. Qed.

(** The default spacings are on the grid of the halves, and the literal
    [1.2] is the float nearest to 6/5. *)
Example default_x_spacing_exact :
  default_x_spacing = of_scaled 3 (-1) ∧ (value default_x_spacing == 3 # 2)%Q.
Proof. split; reflexivity. Qed.

Example default_y_spacing_nearest :
  (Qabs (value default_y_spacing - (6 # 5)) <= (1 # 2) * 2 ^ (-52))%Q.
Proof. by vm_compute. Qed.

(** Unique ids matter: the dictionary has one entry for each id, so two
    nodes that share an id share the position that was written last. *)
Example shared_id_one_position :
  (layout shared_id).1 !! 1%Z
  = Some (of_scaled 6 (-1), sub zero default_y_spacing)
  ∧ dom (layout shared_id).1 = {[ 0%Z; 1%Z ]}.
Proof.
  split; [by vm_compute|]. unfold layout. rewrite positions_dom.
  cbn. apply set_eq. intros z. rewrite !elem_of_union, !elem_of_singleton.
  rewrite elem_of_empty. tauto.
Qed.




(** C5.  For every non-empty tree the keys of the position mapping are
    exactly the node ids reachable from the root, and every such id has
    exactly one position; an empty subtree yields the empty mapping and
    width 0. *)
Theorem positions_cover_ids t x y level x_spacing y_spacing :
  is_null t = false →
  let positions :=
    (calculate_tree_positions t x y level x_spacing y_spacing).1 in
  dom positions = list_to_set (ids t)
  ∧ (∀ j, j ∈ ids t → exists ! p, positions !! j = Some p)
  ∧ calculate_tree_positions Null x y level x_spacing y_spacing = (∅, zero).
Proof.
  intros _ positions. subst positions.
  split; [apply positions_dom|]. split; [|done].
  intros j Hj.
  destruct (positions_lookup_Some x_spacing y_spacing t x y level j Hj)
    as [p Hp].
  exists p. split; [done|]. intros p' Hp'. congruence.
Qed.

Lemma positions_cover_ids_witness :
  is_null concat_ab = false
  ∧ dom (layout concat_ab).1 = list_to_set (ids concat_ab)
  ∧ (∀ j, j ∈ ids concat_ab →
       exists ! p, (layout concat_ab).1 !! j = Some p)
  ∧ calculate_tree_positions Null zero zero 0
      default_x_spacing default_y_spacing
    = (∅, zero).
Proof.
  assert (Hn : is_null concat_ab = false) by reflexivity.
  split; [done|].
  exact (positions_cover_ids concat_ab zero zero 0 default_x_spacing
           default_y_spacing Hn).
Defined.

(** C10 (as stated) fails in floating point: for a chain of ten nodes and
    the spacing [0.1] the width is [0.9999999999999999], which is neither
    the float product [10 * 0.1 = 1.0] nor ten times the value of the
    spacing. *)
Lemma width_counterexample :
  is_null (left_chain 10) = false
  ∧ node_count (left_chain 10) = 10%nat
  ∧ (calculate_tree_positions (left_chain 10) zero zero 0
       float_tenth default_y_spacing).2
    = S754_finite false 9007199254740991 (-53)
  ∧ mul float_10 float_tenth = float_1
  ∧ eqb (calculate_tree_positions (left_chain 10) zero zero 0
           float_tenth default_y_spacing).2
        (mul float_10 float_tenth) = false
  ∧ ¬ (value (calculate_tree_positions (left_chain 10) zero zero 0
                float_tenth default_y_spacing).2
       == 10 * value float_tenth)%Q.
Proof.
  split; [reflexivity|]. split; [reflexivity|].
  split; [by vm_compute|]. split; [by vm_compute|].
  split; [by vm_compute|]. by vm_compute.
Qed.

(** C10 (as amended).  The width returned for a non-empty subtree is the
    number [n] of its nodes times the horizontal spacing, exactly, when the
    spacing is a positive multiple [s * 2^c] of a power of two with
    [n * s < 2^53], so that no addition rounds; the default spacing 1.5 is
    of this kind for every tree of fewer than [2^51] nodes. *)
Theorem width_counts_nodes t c s x y level y_spacing :
  grid_exponent c → (0 < s)%Z →
  (Z.of_nat (node_count t) * s < 2 ^ 53)%Z →
  is_null t = false →
  let width :=
    (calculate_tree_positions t x y level (of_scaled s c) y_spacing).2 in
  width = of_scaled (Z.of_nat (node_count t) * s) c
  ∧ (value width
     == inject_Z (Z.of_nat (node_count t)) * value (of_scaled s c))%Q.
Proof.
  intros Hc Hs Hb Hnn width. subst width.
  rewrite (grid_width c s y_spacing Hc Hs t x y level Hb).
  split; [done|].
  assert (0 < Z.of_nat (node_count t))%Z by (destruct t; [done|cbn; lia]).
  assert (0 <= Z.of_nat (node_count t) * s)%Z by nia.
  rewrite !value_of_scaled by (done || nia).
  rewrite inject_Z_mult. ring.
Qed.

Lemma width_counts_nodes_witness :
  grid_exponent (-1) ∧ (0 < 3)%Z
  ∧ (Z.of_nat (node_count concat_ab) * 3 < 2 ^ 53)%Z
  ∧ is_null concat_ab = false
  ∧ (layout concat_ab).2 = of_scaled 9 (-1)
  ∧ (value (layout concat_ab).2 == inject_Z 3 * value default_x_spacing)%Q.
Proof.
  assert (Hc : grid_exponent (-1)) by (unfold grid_exponent; lia).
  assert (Hs : (0 < 3)%Z) by lia.
  assert (Hb : (Z.of_nat (node_count concat_ab) * 3 < 2 ^ 53)%Z)
    by reflexivity.
  assert (Hn : is_null concat_ab = false) by reflexivity.
  split; [exact Hc|]. split; [exact Hs|]. split; [exact Hb|].
  split; [exact Hn|].
  exact (width_counts_nodes concat_ab (-1) 3 zero zero 0 default_y_spacing
           Hc Hs Hb Hn).
Defined.

End TreeFacts.

(** * Properties of [split] and [join] *)

Module StringFacts.
Import Py.

Lemma split_comma_space_cons c rest :
  split_comma_space (String c rest) =
    let keep :=
      match split_comma_space rest with
      | tok :: toks => String c tok :: toks
      | [] => [String c ""]
      end in
    if Ascii.eqb c "," then
      match rest with
      | String c' rest' =>
          if Ascii.eqb c' " " then "" :: split_comma_space rest' else keep
      | EmptyString => keep
      end
    else keep.
Proof. reflexivity. Qed.

(** A token without separator is cut off at the separator that follows. *)
Lemma split_comma_space_app s rest :
  contains_comma_space s = false →
  split_comma_space (s +:+ ", " +:+ rest) = s :: split_comma_space rest.
Proof.
  induction s as [|c s IH]; intros Hs.
  - reflexivity.
  - cbn [contains_comma_space] in Hs.
    apply orb_false_iff in Hs as [Hc Hs].
    change (String c s +:+ ", " +:+ rest)
      with (String c (s +:+ ", " +:+ rest)).
    rewrite split_comma_space_cons. cbn zeta. rewrite (IH Hs).
    destruct (Ascii.eqb c ","); [|done].
    destruct s as [|c' s]; [done|].
    change (String c' s +:+ ", " +:+ rest)
      with (String c' (s +:+ ", " +:+ rest)).
    rewrite andb_true_l in Hc. cbv beta iota. by rewrite Hc.
Qed.

Lemma split_comma_space_token s :
  contains_comma_space s = false → split_comma_space s = [s].
Proof.
  induction s as [|c s IH]; intros Hs.
  - reflexivity.
  - cbn [contains_comma_space] in Hs.
    apply orb_false_iff in Hs as [Hc Hs].
    rewrite split_comma_space_cons. cbn zeta. rewrite (IH Hs).
    destruct (Ascii.eqb c ","); [|done].
    destruct s as [|c' s]; [done|].
    rewrite andb_true_l in Hc. cbv beta iota. by rewrite Hc.
Qed.

Lemma join_comma_space_cons s s' l :
  join_comma_space (s :: s' :: l) = s +:+ ", " +:+ join_comma_space (s' :: l).
Proof. reflexivity. Qed.

(** Splitting undoes joining, for tokens that do not contain the
    separator. *)
Lemma split_join l :
  l ≠ [] → Forall (λ s, contains_comma_space s = false) l →
  split_comma_space (join_comma_space l) = l.
Proof.
  intros Hne Hall. induction Hall as [|s l Hs Hall IH]; [done|].
  destruct l as [|s' l].
  - by apply split_comma_space_token.
  - rewrite join_comma_space_cons, split_comma_space_app by done.
    by rewrite IH.
Qed.

Lemma string_app_assoc (a b c : string) : (a +:+ b) +:+ c = a +:+ b +:+ c.
Proof.
  induction a as [|x a IH]; [done|].
  change (String x ((a +:+ b) +:+ c) = String x (a +:+ b +:+ c)).
  by rewrite IH.
Qed.

Lemma string_length_app (a b : string) :
  String.length (a +:+ b) = String.length a + String.length b.
Proof.
  induction a as [|x a IH]; [done|].
  change (S (String.length (a +:+ b)) = S (String.length a + String.length b)).
  by rewrite IH.
Qed.

Lemma join_snoc l s :
  l ≠ [] → join_comma_space (l ++ [s]) = join_comma_space l +:+ ", " +:+ s.
Proof.
  intros Hne. induction l as [|a l IH]; [done|].
  destruct l as [|b l].
  - reflexivity.
  - change ((a :: b :: l) ++ [s]) with (a :: (b :: l) ++ [s]).
    change ((b :: l) ++ [s]) with (b :: (l ++ [s])) at 1.
    rewrite join_comma_space_cons.
    change (b :: (l ++ [s])) with ((b :: l) ++ [s]).
    rewrite IH by done. rewrite join_comma_space_cons.
    by rewrite !string_app_assoc.
Qed.

End StringFacts.

(** * Properties of the transition aggregation *)

Module DfaFacts.
Import Py Dfa StringFacts.

Section Monad.
Context {D : Type}.

Lemma bind_inr {A B : Type} (m : M D A) (f : A → M D B) out a out' r :
  m = (out, inr a) → f a = (out', r) → m ≫= f = (out ++ out', r).
Proof. intros -> Hf. unfold mbind, M_bind. by rewrite Hf. Qed.

Lemma foldM_app {A S : Type} (f : S → A → M D S) l1 l2 s :
  foldM f (l1 ++ l2) s = foldM f l1 s ≫= foldM f l2.
Proof.
  revert s; induction l1 as [|a l1 IH]; intros s; cbn [foldM app].
  - unfold mret, M_ret, mbind, M_bind.
    by destruct (foldM f l2 s) as [out r].
  - unfold mbind, M_bind. destruct (f s a) as [out [e|s']]; [done|].
    rewrite IH. unfold mbind, M_bind.
    destruct (foldM f l1 s') as [out1 [e1|s1]]; [done|].
    destruct (foldM f l2 s1) as [out2 r2]. by rewrite app_assoc.
Qed.
End Monad.

(** ** The graph under construction *)

Lemma ensure_node_adj G n : adj (ensure_node G n) = adj G.
Proof. unfold ensure_node. by destruct (has_node G n). Qed.

Lemma ensure_node_elem G n : n ∈ (nodes (ensure_node G n)).*1.
Proof.
  unfold ensure_node, has_node. case_bool_decide; [done|].
  cbn. rewrite fmap_app. apply elem_of_app. right. cbn. by left.
Qed.

Lemma ensure_node_mono G n m :
  m ∈ (nodes G).*1 → m ∈ (nodes (ensure_node G n)).*1.
Proof.
  unfold ensure_node, has_node. case_bool_decide; [done|].
  cbn. rewrite fmap_app. intros ?. apply elem_of_app. by left.
Qed.

Lemma ensure_node_NoDup G n :
  NoDup (nodes G).*1 → NoDup (nodes (ensure_node G n)).*1.
Proof.
  unfold ensure_node, has_node. case_bool_decide as Hn; [done|].
  cbn. rewrite fmap_app. intros Hnd. apply NoDup_app. split; [done|].
  split; [|apply NoDup_singleton].
  cbn. by intros m Hm ->%list_elem_of_singleton.
Qed.

Lemma ensure_node_known G n : n ∈ (nodes G).*1 → ensure_node G n = G.
Proof. unfold ensure_node, has_node. by case_bool_decide. Qed.

Lemma add_node_adj G n a : adj (add_node G n a) = adj G.
Proof. unfold add_node. by destruct (has_node G n). Qed.

Lemma add_node_ids G n a :
  (nodes (add_node G n a)).*1 =
    if has_node G n then (nodes G).*1 else (nodes G).*1 ++ [n].
Proof.
  unfold add_node. destruct (has_node G n); cbn.
  - rewrite <- list_fmap_compose. apply list_fmap_ext.
    intros i [m b] _. cbn. by case_bool_decide.
  - by rewrite fmap_app.
Qed.

Lemma add_node_NoDup G n a :
  NoDup (nodes G).*1 → NoDup (nodes (add_node G n a)).*1.
Proof.
  rewrite add_node_ids. unfold has_node. case_bool_decide as Hn; [done|].
  intros Hnd. apply NoDup_app. split; [done|].
  split; [|apply NoDup_singleton].
  by intros m Hm ->%list_elem_of_singleton.
Qed.

Lemma add_states_from G states :
  NoDup (nodes G).*1 →
  let G' := fold_left (λ G state, add_node G (id state) (accepting state))
              states G in
  NoDup (nodes G').*1 ∧ adj G' = adj G ∧
  ∀ n, n ∈ (nodes G').*1 ↔ n ∈ (nodes G).*1 ∨ n ∈ id <$> states.
Proof.
  revert G; induction states as [|s states IH]; intros G Hnd; cbn.
  - split; [done|]. split; [done|]. intros n. rewrite elem_of_nil. tauto.
  - destruct (IH (add_node G (id s) (accepting s)) (add_node_NoDup _ _ _ Hnd))
      as (H1 & H2 & H3).
    split; [done|]. split; [by rewrite H2, add_node_adj|].
    intros n. rewrite H3, add_node_ids, elem_of_cons.
    unfold has_node. case_bool_decide as Hn.
    + split; [tauto|]. intros [?|[->|?]]; tauto.
    + rewrite elem_of_app, list_elem_of_singleton. tauto.
Qed.

Lemma add_states_spec states :
  NoDup (nodes (add_states states)).*1 ∧ adj (add_states states) = [] ∧
  ∀ n, n ∈ (nodes (add_states states)).*1 ↔ n ∈ id <$> states.
Proof.
  destruct (add_states_from empty_graph states) as (H1 & H2 & H3).
  { apply NoDup_nil_2. }
  split; [done|]. split; [done|]. intros n. rewrite H3. cbn.
  rewrite elem_of_nil. tauto.
Qed.

(** ** The spec-side vocabulary *)

Lemma first_seen_snoc l s :
  first_seen (l ++ [s]) =
    if bool_decide (s ∈ first_seen l) then first_seen l
    else first_seen l ++ [s].
Proof. unfold first_seen. by rewrite fold_left_app. Qed.

Lemma first_seen_elem l s : s ∈ first_seen l ↔ s ∈ l.
Proof.
  induction l as [|a l IH] using rev_ind; [done|].
  rewrite first_seen_snoc. case_bool_decide as Ha.
  - rewrite elem_of_app, list_elem_of_singleton, <- IH.
    split; [tauto|]. intros [?| ->]; done.
  - by rewrite !elem_of_app, IH.
Qed.

Lemma first_seen_NoDup l : NoDup (first_seen l).
Proof.
  induction l as [|a l IH] using rev_ind; [apply NoDup_nil_2|].
  rewrite first_seen_snoc. case_bool_decide as Ha; [done|].
  apply NoDup_app. split; [done|]. split; [|apply NoDup_singleton].
  by intros s Hs ->%list_elem_of_singleton.
Qed.

Lemma symbols_for_snoc e ts t :
  symbols_for e (ts ++ [t]) =
    if decide (pair_of t = e) then symbols_for e ts ++ [symbol t]
    else symbols_for e ts.
Proof.
  unfold symbols_for. rewrite filter_app, fmap_app.
  rewrite filter_cons, filter_nil.
  destruct (decide (pair_of t = e)); [done|]. cbn. by rewrite app_nil_r.
Qed.

Lemma symbols_for_elem e ts s :
  s ∈ symbols_for e ts ↔ ∃ t, t ∈ ts ∧ pair_of t = e ∧ symbol t = s.
Proof.
  unfold symbols_for. rewrite list_elem_of_fmap. split.
  - intros (t & -> & [? ?]%list_elem_of_filter). eauto.
  - intros (t & ? & ? & <-). exists t. split; [done|].
    by apply list_elem_of_filter.
Qed.

Lemma symbols_for_nil e ts : e ∉ pair_of <$> ts → symbols_for e ts = [].
Proof.
  intros He. destruct (symbols_for e ts) as [|s l] eqn:E; [done|].
  assert (Hs : s ∈ symbols_for e ts) by (rewrite E; by left).
  apply symbols_for_elem in Hs as (t & Ht & <- & _).
  exfalso. apply He. apply list_elem_of_fmap. eauto.
Qed.

Lemma symbols_for_nonempty e ts : e ∈ pair_of <$> ts → symbols_for e ts ≠ [].
Proof.
  intros (t & -> & Ht)%list_elem_of_fmap Hnil.
  assert (Hs : symbol t ∈ symbols_for (pair_of t) ts).
  { apply symbols_for_elem. eauto. }
  rewrite Hnil in Hs. by apply elem_of_nil in Hs.
Qed.

Lemma first_seen_nonempty l : l ≠ [] → first_seen l ≠ [].
Proof.
  destruct l as [|a l]; [done|]. intros _ Hnil.
  assert (Ha : a ∈ first_seen (a :: l)) by (apply first_seen_elem; by left).
  rewrite Hnil in Ha. by apply elem_of_nil in Ha.
Qed.

Lemma symbols_separator_free e ts :
  separator_free ts →
  Forall (λ s, contains_comma_space s = false) (first_seen (symbols_for e ts)).
Proof.
  intros Hts. apply Forall_forall. intros s Hs.
  apply first_seen_elem, symbols_for_elem in Hs as (t & Ht & _ & <-).
  unfold separator_free in Hts. rewrite Forall_forall in Hts. by apply Hts.
Qed.

(** ** One round of the loop *)

Section Step.
Context {D : Type}.

Lemma add_transition_inv ts G edge_labels t :
  graph_inv ts G edge_labels →
  ∃ G' edge_labels',
    add_transition (D:=D) (G, edge_labels) t = ([], inr (G', edge_labels'))
    ∧ graph_inv (ts ++ [t]) G' edge_labels'
    ∧ (from t ∈ (nodes G).*1 → to t ∈ (nodes G).*1 → nodes G' = nodes G)
    ∧ (separator_free (ts ++ [t]) → labels_inv ts edge_labels →
       labels_inv (ts ++ [t]) edge_labels').
Proof.
  intros [Hn Ha Hp Hd Hs]. unfold add_transition, has_edge.
  fold (pair_of t). case_bool_decide as He.
  - (* the pair already has an edge *)
    destruct (proj2 (Hd (pair_of t)) He) as [current_label Hl].
    unfold getitem. rewrite Hl. cbn.
    assert (Hpairs : ∀ e, e ∈ pair_of <$> ts ++ [t] ↔ e ∈ pair_of <$> ts).
    { intros e. rewrite fmap_app, elem_of_app. cbn.
      rewrite list_elem_of_singleton. split; [|tauto].
      intros [?| ->]; [done|]. by apply Hp. }
    case_bool_decide as Hsym.
    + exists G, edge_labels. split; [done|]. split; [|split; [done|]].
      { split; try done. intros e. by rewrite Hpairs, <- Hp. }
      intros Hsep Hlab e He'. apply Hpairs in He'.
      rewrite (Hlab e He'). f_equal. unfold spec_label.
      rewrite symbols_for_snoc. destruct (decide (pair_of t = e)) as [<-|];
        [|done].
      rewrite first_seen_snoc.
      rewrite (Hlab _ He') in Hl. injection Hl as <-.
      unfold spec_label in Hsym. rewrite split_join in Hsym.
      * by rewrite bool_decide_eq_true_2.
      * by apply first_seen_nonempty, symbols_for_nonempty.
      * apply symbols_separator_free. unfold separator_free in *.
        by apply Forall_app in Hsep as [? _].
    + exists G, (<[pair_of t := current_label +:+ ", " +:+ symbol t]>
                  edge_labels).
      split; [done|]. split; [|split; [done|]].
      { split; try done.
        - intros e. by rewrite Hpairs, <- Hp.
        - intros e. rewrite <- Hd. rewrite lookup_insert_is_Some.
          split; [intros [<-|[_ ?]]; [by eexists|done]|].
          intros ?. destruct (decide (pair_of t = e)); [by left|by right]. }
      intros Hsep Hlab e He'. apply Hpairs in He'.
      unfold spec_label. rewrite symbols_for_snoc.
      destruct (decide (pair_of t = e)) as [<-|Hne].
      * rewrite lookup_insert_eq. f_equal.
        rewrite first_seen_snoc.
        rewrite (Hlab _ He') in Hl. injection Hl as <-.
        unfold spec_label in Hsym. rewrite split_join in Hsym.
        -- rewrite bool_decide_eq_false_2 by done.
           rewrite join_snoc; [done|].
           by apply first_seen_nonempty, symbols_for_nonempty.
        -- by apply first_seen_nonempty, symbols_for_nonempty.
        -- apply symbols_separator_free. unfold separator_free in *.
           by apply Forall_app in Hsep as [? _].
      * rewrite lookup_insert_ne by done. by apply Hlab.
  - (* a new edge *)
    cbn. eexists _, _. split; [done|].
    assert (Hadj : adj (ensure_node (ensure_node G (from t)) (to t)) = adj G)
      by by rewrite !ensure_node_adj.
    assert (Hnew : add_edge G (from t) (to t) =
              {| nodes := nodes (ensure_node (ensure_node G (from t)) (to t));
                 adj := adj G ++ [pair_of t] |}).
    { unfold add_edge, has_edge. rewrite Hadj.
      by rewrite bool_decide_eq_false_2. }
    rewrite Hnew. split; [|split].
    + split; cbn.
      * by apply ensure_node_NoDup, ensure_node_NoDup.
      * apply NoDup_app. split; [done|]. split; [|apply NoDup_singleton].
        by intros e ? ->%list_elem_of_singleton.
      * intros e. rewrite fmap_app, !elem_of_app. cbn. by rewrite Hp.
      * intros e. rewrite lookup_insert_is_Some, elem_of_app,
          list_elem_of_singleton, Hd.
        split; [intros [<-|[_ ?]]; tauto|].
        intros [?| ->]; [|by left].
        destruct (decide (pair_of t = e)) as [<-|]; [done|]. by right.
      * intros e [He'| ->%list_elem_of_singleton]%elem_of_app.
        -- by apply ensure_node_mono, ensure_node_mono, Hs.
        -- apply ensure_node_mono, ensure_node_elem.
    + intros Hf Ht. cbn. rewrite (ensure_node_known G (from t)) by done.
      by rewrite ensure_node_known.
    + intros Hsep Hlab e He'.
      unfold spec_label. rewrite symbols_for_snoc.
      destruct (decide (pair_of t = e)) as [<-|Hne].
      * rewrite lookup_insert_eq. f_equal.
        rewrite symbols_for_nil by (by rewrite <- Hp). reflexivity.
      * rewrite lookup_insert_ne by done.
        rewrite fmap_app, elem_of_app in He'. cbn in He'.
        rewrite list_elem_of_singleton in He'.
        destruct He' as [He'|]; [|congruence]. by apply Hlab.
Qed.
End Step.

(** ** The whole loop *)

Section Loop.
Context {D : Type}.

Lemma add_states_inv states : graph_inv [] (add_states states) ∅.
Proof.
  destruct (add_states_spec states) as (Hn & Ha & _).
  split; rewrite ?Ha; try done.
  - apply NoDup_nil_2.
  - intros e. rewrite lookup_empty. split; [by intros [? ?]|].
    by intros ?%elem_of_nil.
  - by intros e ?%elem_of_nil.
Qed.

Lemma build_graph_inv states ts :
  ∃ G edge_labels,
    build_graph (D:=D) states ts = ([], inr (G, edge_labels))
    ∧ graph_inv ts G edge_labels
    ∧ (references_declared states ts →
       nodes G = nodes (add_states states))
    ∧ (separator_free ts → labels_inv ts edge_labels).
Proof.
  unfold build_graph.
  induction ts as [|t ts IH] using rev_ind.
  - exists (add_states states), ∅. split; [done|].
    split; [apply add_states_inv|]. split; [done|].
    by intros _ e ?%elem_of_nil.
  - destruct IH as (G & edge_labels & Hrun & Hinv & Hnodes & Hlab).
    destruct (add_transition_inv (D:=D) ts G edge_labels t Hinv)
      as (G' & edge_labels' & Hstep & Hinv' & Hnodes' & Hlab').
    exists G', edge_labels'. split; [|split; [done|split]].
    + rewrite foldM_app.
      apply (bind_inr _ _ [] (G, edge_labels) []); [exact Hrun|].
      cbn [foldM].
      by apply (bind_inr _ _ [] (G', edge_labels') []).
    + intros [Hts [[Hf Ht] _]%Forall_cons]%Forall_app.
      specialize (Hnodes Hts).
      rewrite Hnodes'; [done| |]; rewrite Hnodes;
        by apply add_states_spec.
    + intros Hsep. apply Hlab'; [done|]. apply Hlab.
      by apply Forall_app in Hsep as [? _].
Qed.
End Loop.

(** ** The edges the renderer walks *)

Lemma elem_of_edges G e : e ∈ edges G ↔ e ∈ adj G ∧ e.1 ∈ (nodes G).*1.
Proof.
  unfold edges. rewrite list_elem_of_bind. split.
  - intros (n & [<- ?]%list_elem_of_filter & Hn). done.
  - intros [? ?]. exists e.1. split; [|done]. by apply list_elem_of_filter.
Qed.

Lemma edges_NoDup G : NoDup (nodes G).*1 → NoDup (adj G) → NoDup (edges G).
Proof.
  intros Hn Ha. unfold edges. apply NoDup_bind; [| |done].
  - intros n1 n2 e _ _ [<- _]%list_elem_of_filter [<- _]%list_elem_of_filter.
    done.
  - intros n _. by apply NoDup_filter.
Qed.

Lemma edges_Permutation ts G edge_labels :
  graph_inv ts G edge_labels → edges G ≡ₚ adj G.
Proof.
  intros [Hn Ha _ _ Hs]. apply NoDup_Permutation; [by apply edges_NoDup|done|].
  intros e. rewrite elem_of_edges. split; [tauto|]. intros ?. split; auto.
Qed.

Lemma count_in_NoDup (l : list string) s :
  NoDup l → s ∈ l → length (filter (λ tok, tok = s) l) = 1.
Proof.
  induction 1 as [|a l Ha Hnd IH]; [by intros ?%elem_of_nil|].
  rewrite filter_cons. intros [->|Hs]%elem_of_cons.
  - rewrite decide_True by done. cbn. f_equal.
    destruct (filter (λ tok, tok = a) l) as [|tok toks] eqn:E; [done|].
    assert (Htok : tok ∈ filter (λ tok, tok = a) l) by (rewrite E; by left).
    by apply list_elem_of_filter in Htok as [-> ?].
  - rewrite decide_False by (intros ->; done). by apply IH.
Qed.

(** ** The claims on the aggregation *)

(** C1 (as amended).  For every DFA document in which no symbol contains
    the separator [", "], the aggregation loop succeeds; there is exactly
    one merged edge for each ordered pair that has a transition and none
    for any other pair; the label of the merged edge is the join, with
    [", "], of the distinct symbols of the transitions on that pair, in
    order of first appearance; and each of these symbols is exactly one
    token of the label. *)
Theorem aggregation_separator_free states transitions :
  separator_free transitions → aggregation_as_specified states transitions.
Proof.
  intros Hsep.
  destruct (build_graph_inv (D:=directive) states transitions)
    as (G & edge_labels & Hrun & Hinv & _ & Hlab).
  specialize (Hlab Hsep).
  exists G, edge_labels. split; [done|].
  pose proof (edges_Permutation _ _ _ Hinv) as Hperm.
  destruct Hinv as [Hn Ha Hp Hd Hs].
  split; [by apply edges_NoDup|]. split.
  - intros e. by rewrite Hperm.
  - intros e He. exists (spec_label e transitions).
    split; [by apply Hlab|]. split; [done|]. intros s Hs'.
    unfold spec_label. rewrite split_join.
    + apply count_in_NoDup; [apply first_seen_NoDup|].
      by apply first_seen_elem.
    + by apply first_seen_nonempty, symbols_for_nonempty.
    + by apply symbols_separator_free.
Qed.

Lemma aggregation_separator_free_witness :
  separator_free a_b_a
  ∧ aggregation_as_specified
      [ {| id := 0; accepting := false |}; {| id := 1; accepting := true |} ]
      a_b_a.
Proof.
  assert (Hsep : separator_free a_b_a) by repeat constructor.
  split; [done|]. by apply aggregation_separator_free.
Defined.

(** The example of the specification: [(0,1,'a')], [(0,1,'b')], [(0,1,'a')]
    give one edge from 0 to 1 with label ["a, b"]. *)
Example a_b_a_label :
  (build_graph (D:=directive) [] a_b_a).2
  = inr ({| nodes := [(0%Z, None); (1%Z, None)]; adj := [(0%Z, 1%Z)] |},
         {[ (0%Z, 1%Z) := "a, b" ]}).
Proof. by vm_compute. Qed.

(** C1 (as stated) fails on a document in which a symbol contains the
    separator: after [(0, 1, "a, b")] the label is ["a, b"], its tokens are
    ["a"] and ["b"], and the symbol ["a"] of the next transition is taken
    for one that is already there. *)
Lemma aggregation_counterexample :
  ¬ aggregation_as_specified
      [ {| id := 0; accepting := false |}; {| id := 1; accepting := true |} ]
      [ {| from := 0; to := 1; symbol := "a, b" |};
        {| from := 0; to := 1; symbol := "a" |} ].
Proof.
  intros (G & edge_labels & Hrun & _ & _ & Hlab).
  vm_compute in Hrun. injection Hrun as <- <-.
  destruct (Hlab (0, 1)%Z) as (label & Hl & Hspec & _).
  { apply list_elem_of_fmap. eexists. split; [|by left]. done. }
  vm_compute in Hl. vm_compute in Hspec. congruence.
Qed.

(** C2.  For every DFA document, the number of merged edges the
    aggregation produces is at most the number of raw transitions, and it
    equals that number exactly when no two transitions share their ordered
    pair. *)
Theorem merged_edge_count states transitions :
  ∃ G edge_labels,
    build_graph (D:=directive) states transitions = ([], inr (G, edge_labels))
    ∧ (length (edges G) ≤ length transitions)%nat
    ∧ (length (edges G) = length transitions
       ↔ NoDup (pair_of <$> transitions)).
Proof.
  destruct (build_graph_inv (D:=directive) states transitions)
    as (G & edge_labels & Hrun & Hinv & _ & _).
  exists G, edge_labels. split; [done|].
  rewrite (edges_Permutation _ _ _ Hinv).
  destruct Hinv as [Hn Ha Hp Hd Hs].
  rewrite <- (length_fmap pair_of transitions).
  assert (Hsub : adj G ⊆+ pair_of <$> transitions).
  { apply NoDup_submseteq; [done|]. intros e. by rewrite Hp. }
  split; [by apply submseteq_length|]. split.
  - intros Hlen. rewrite <- (submseteq_length_Permutation _ _ Hsub); [done|].
    by rewrite Hlen.
  - intros Hnd. apply Nat.le_antisymm; [by apply submseteq_length|].
    apply submseteq_length, NoDup_submseteq; [done|].
    intros e. by rewrite Hp.
Qed.

End DfaFacts.

(** * Properties of the loaders, of the report and of the rendering *)

Module PipelineFacts.
Import Py StringFacts DfaFacts.

Section Runs.
Context {D : Type}.

Lemma bind_output {A B : Type} (m : M D A) (f : A → M D B) :
  (m ≫= f).1 =
    m.1 ++ match m.2 with inr a => (f a).1 | inl _ => [] end.
Proof.
  unfold mbind, M_bind. destruct m as [out [e|a]]; cbn.
  - by rewrite app_nil_r.
  - by destruct (f a).
Qed.

Lemma bind_result {A B : Type} (m : M D A) (f : A → M D B) :
  (m ≫= f).2 = match m.2 with inr a => (f a).2 | inl e => inl e end.
Proof.
  unfold mbind, M_bind. destruct m as [out [e|a]]; cbn; [done|].
  by destruct (f a).
Qed.

Lemma bind_unit {A B : Type} (a : A) (f : A → M D B) :
  ([], inr a) ≫= f = f a.
Proof. unfold mbind, M_bind. by destruct (f a). Qed.

(** A loop whose rounds all return normally returns normally, and its
    events are those of its rounds. *)
Lemma for_each_ok {A : Type} (l : list A) (f : A → M D unit) :
  (∀ a, a ∈ l → (f a).2 = inr tt) →
  (for_each l f).2 = inr tt
  ∧ ∀ ev, ev ∈ (for_each l f).1 ↔ ∃ a, a ∈ l ∧ ev ∈ (f a).1.
Proof.
  induction l as [|a l IH]; intros Hf; cbn [for_each].
  - split; [done|]. intros ev. cbn. rewrite elem_of_nil.
    split; [done|]. by intros (a & ?%elem_of_nil & _).
  - destruct IH as [IH1 IH2].
    { intros b Hb. apply Hf. by right. }
    rewrite bind_result, bind_output, (Hf a) by (by left).
    split; [done|]. intros ev. rewrite elem_of_app, IH2. split.
    + intros [?|(b & ? & ?)].
      * exists a. split; [by left|done].
      * exists b. split; [by right|done].
    + intros (b & [->|?]%elem_of_cons & ?); [by left|].
      right. by exists b.
Qed.
End Runs.

(** ** The loaders *)

(** The codec on some byte sequences: ASCII and the characters of the
    console tree are text; a lone continuation byte, an overlong form, a
    surrogate, a code point above U+10FFFF and a cut sequence are not. *)
Example utf8_valid_examples :
  utf8_valid "{}" = true
  ∧ utf8_valid "└── ε (epsilon)" = true
  ∧ utf8_valid (String (ascii_of_nat 240) (String (ascii_of_nat 159)
                 (String (ascii_of_nat 152) (String (ascii_of_nat 128) ""))))
    = true
  ∧ utf8_valid (String (ascii_of_nat 128) "") = false
  ∧ utf8_valid (String (ascii_of_nat 192) (String (ascii_of_nat 128) ""))
    = false
  ∧ utf8_valid (String (ascii_of_nat 237) (String (ascii_of_nat 160)
                 (String (ascii_of_nat 128) ""))) = false
  ∧ utf8_valid (String (ascii_of_nat 244) (String (ascii_of_nat 144)
                 (String (ascii_of_nat 128) (String (ascii_of_nat 128) ""))))
    = false
  ∧ utf8_valid (String (ascii_of_nat 226) (String (ascii_of_nat 130) ""))
    = false.
Proof. repeat split; reflexivity. Qed.

Lemma messages_differ filename :
  not_found_message filename ≠ malformed_message filename.
Proof.
  unfold not_found_message, malformed_message. intros Heq.
  apply (f_equal String.length) in Heq.
  rewrite !string_length_app in Heq. cbn in Heq. lia.
Qed.

Lemma load_dfa_contract json_load :
  loader_contract json_load (Dfa.load_dfa json_load).
Proof.
  intros fs filename. unfold Dfa.load_dfa, open, load_json, read.
  destruct (fs filename) as [| | |text] eqn:Hfs; cbn.
  - right. by left.
  - do 3 right. exists PermissionError. split; [by left|done].
  - do 3 right. exists IsADirectoryError. split; [right; by left|done].
  - destruct (utf8_valid text) eqn:Hvalid; cbn.
    + destruct (json_load text) as [data|] eqn:Hparse; cbn.
      * left. by exists text, data.
      * right. right. left. by exists text.
    + do 3 right. exists UnicodeDecodeError. split; [|done].
      right. right. split; [by exists text|done].
Qed.

Lemma load_syntax_tree_contract json_load :
  loader_contract json_load (SyntaxTree.load_syntax_tree json_load).
Proof.
  intros fs filename.
  unfold SyntaxTree.load_syntax_tree, open, load_json, read.
  destruct (fs filename) as [| | |text] eqn:Hfs; cbn.
  - right. by left.
  - do 3 right. exists PermissionError. split; [by left|done].
  - do 3 right. exists IsADirectoryError. split; [right; by left|done].
  - destruct (utf8_valid text) eqn:Hvalid; cbn.
    + destruct (json_load text) as [data|] eqn:Hparse; cbn.
      * left. by exists text, data.
      * right. right. left. by exists text.
    + do 3 right. exists UnicodeDecodeError. split; [|done].
      right. right. split; [by exists text|done].
Qed.

(** A file that is there, is UTF-8 text and parses is loaded. *)
Lemma load_dfa_ok json_load fs filename text data :
  fs filename = Regular text → utf8_valid text = true →
  json_load text = Some data →
  Dfa.load_dfa json_load fs filename = ([], inr data).
Proof.
  intros Hfs Hvalid Hparse. unfold Dfa.load_dfa, open, load_json, read.
  rewrite Hfs. cbn. rewrite Hvalid. cbn. by rewrite Hparse.
Qed.

Lemma load_syntax_tree_ok json_load fs filename text data :
  fs filename = Regular text → utf8_valid text = true →
  json_load text = Some data →
  SyntaxTree.load_syntax_tree json_load fs filename = ([], inr data).
Proof.
  intros Hfs Hvalid Hparse.
  unfold SyntaxTree.load_syntax_tree, open, load_json, read.
  rewrite Hfs. cbn. rewrite Hvalid. cbn. by rewrite Hparse.
Qed.

(** ** Rendering a DFA *)

Import Dfa.

Lemma add_states_attributes_from G states :
  (∀ na, na ∈ nodes G → is_Some na.2) →
  ∀ na,
    na ∈ nodes (fold_left (λ G state, add_node G (id state) (accepting state))
                  states G) →
    is_Some na.2.
Proof.
  revert G; induction states as [|s states IH]; intros G HG; [done|].
  cbn [fold_left]. apply IH. intros na. unfold add_node.
  destruct (has_node G (id s)); cbn.
  - intros (nb & -> & Hnb)%list_elem_of_fmap.
    case_bool_decide; [by eexists|by apply HG].
  - intros [?| ->%list_elem_of_singleton]%elem_of_app; [by apply HG|].
    by eexists.
Qed.

Lemma add_states_attributes states na :
  na ∈ nodes (add_states states) → is_Some na.2.
Proof.
  apply add_states_attributes_from. by intros ? ?%elem_of_nil.
Qed.

Section Render.
Context {D : Type}.

(** A node that carries the attribute answers [G.nodes[n]['accepting']]. *)
Lemma node_accepting_declared G n :
  (∀ na, na ∈ nodes G → is_Some na.2) → n ∈ (nodes G).*1 →
  ∃ a, node_accepting (D:=D) G n = ([], inr a).
Proof.
  intros Hattr (na & -> & Hna)%list_elem_of_fmap. unfold node_accepting.
  destruct (list_find_elem_of (λ nb, nb.1 = na.1) (nodes G) na Hna eq_refl)
    as [[i [m b]] Hfind].
  rewrite Hfind. apply list_find_Some in Hfind as (Hi & _ & _).
  apply list_elem_of_lookup_2 in Hi.
  destruct (Hattr _ Hi) as [a Ha]. cbn in Ha. subst b. by exists a.
Qed.
End Render.

Lemma draw_edge_events edge_labels e :
  is_Some (edge_labels !! e) →
  (draw_edge edge_labels e).2 = inr tt
  ∧ ∀ ev, ev ∈ (draw_edge edge_labels e).1 →
      ∃ label,
        ev = Draw (LoopCircle e.1) ∨ ev = Draw (LoopLabel e.1 label)
        ∨ ev = Draw (EdgeArrow e.1 e.2) ∨ ev = Draw (EdgeLabel e.1 e.2 label).
Proof.
  intros [label Hl]. destruct e as [u v]. unfold draw_edge, getitem.
  rewrite Hl. case_bool_decide; cbn; (split; [done|]);
    intros ev Hev; exists label;
    repeat (apply elem_of_cons in Hev as [->|Hev]; [tauto|]);
    by apply elem_of_nil in Hev.
Qed.

(** A node that is not the start state gets one of the two styles that are
    not start styles, and no start indicator. *)
Lemma draw_node_not_start G start_state_id n a :
  node_accepting (D:=directive) G n = ([], inr a) →
  Some n ≠ start_state_id →
  draw_node G start_state_id n =
    ((if a then [Draw (OuterCircle n "#DC143C")] else [])
     ++ [ Draw (MainCircle n (if a then "#FFB6C1" else "#F0F0F0")
                 (if a then "#DC143C" else "#696969"));
          Draw (NodeLabel n (str n)) ],
     inr tt).
Proof.
  intros Hacc Hne. unfold draw_node. rewrite Hacc.
  rewrite bool_decide_eq_false_2 by done. by destruct a.
Qed.

(** Whatever the start state, drawing a node only draws. *)
Lemma draw_node_events G start_state_id n a :
  node_accepting (D:=directive) G n = ([], inr a) →
  (draw_node G start_state_id n).2 = inr tt
  ∧ ∀ ev, ev ∈ (draw_node G start_state_id n).1 → ∃ d, ev = Draw d.
Proof.
  intros Hacc. unfold draw_node. rewrite Hacc.
  destruct (bool_decide (Some n = start_state_id)), a; cbn;
    (split; [done|]); intros ev Hev;
    repeat (apply elem_of_cons in Hev as [->|Hev]; [eauto|]);
    by apply elem_of_nil in Hev.
Qed.

(** A document with at least one state whose transitions connect declared
    states is rendered to the end. *)
Lemma draw_dfa_renders data :
  states data ≠ [] →
  references_declared (states data) (transitions data) →
  ∃ G edge_labels,
    (∀ n, n ∈ (nodes G).*1 ↔ n ∈ id <$> states data)
    ∧ (∀ n, n ∈ (nodes G).*1 →
         ∃ a, node_accepting (D:=directive) G n = ([], inr a))
    ∧ (∀ e, e ∈ edges G → is_Some (edge_labels !! e))
    ∧ (draw_dfa data).2 = inr tt
    ∧ ∀ ev, ev ∈ (draw_dfa data).1 ↔
        (∃ e, e ∈ edges G ∧ ev ∈ (draw_edge edge_labels e).1)
        ∨ (∃ n, n ∈ (nodes G).*1
                ∧ ev ∈ (draw_node G (start_state data) n).1)
        ∨ ev ∈ closing_events data.
Proof.
  intros Hne Hrefs. unfold draw_dfa.
  destruct (states data) as [|s ss] eqn:Hstates; [done|].
  cbv iota. rewrite <- Hstates in Hrefs |- *. clear Hne Hstates s ss.
  destruct (build_graph_inv (D:=directive) (states data) (transitions data))
    as (G & edge_labels & Hrun & Hinv & Hnodes & _).
  specialize (Hnodes Hrefs).
  exists G, edge_labels.
  assert (Hids : ∀ n, n ∈ (nodes G).*1 ↔ n ∈ id <$> states data).
  { intros n. rewrite Hnodes. apply add_states_spec. }
  assert (Hacc : ∀ n, n ∈ (nodes G).*1 →
            ∃ a, node_accepting (D:=directive) G n = ([], inr a)).
  { intros n Hn. apply node_accepting_declared; [|done].
    rewrite Hnodes. apply add_states_attributes. }
  assert (Hlab : ∀ e, e ∈ edges G → is_Some (edge_labels !! e)).
  { intros e [He _]%elem_of_edges. by apply (inv_labels_dom _ _ _ Hinv). }
  split; [done|]. split; [done|]. split; [done|].
  destruct (for_each_ok (edges G) (draw_edge edge_labels)) as [He1 He2].
  { intros e He. by apply draw_edge_events, Hlab. }
  destruct (for_each_ok (nodes G).*1 (draw_node G (start_state data)))
    as [Hn1 Hn2].
  { intros n Hn. destruct (Hacc n Hn) as [a Ha].
    by apply (draw_node_events _ _ _ a). }
  rewrite bind_result, bind_output, Hrun. cbn [fst snd app].
  rewrite !bind_result, !bind_output, He1, Hn1.
  unfold draw, savefig, print. cbn [fst snd app].
  split; [done|]. intros ev.
  rewrite elem_of_app, He2, elem_of_app, Hn2. unfold closing_events.
  reflexivity.
Qed.

(** ** The report *)

Lemma for_each_print {D A : Type} (l : list A) (g : A → string) :
  for_each (D:=D) l (λ a, print (g a)) = (Print <$> (g <$> l), inr tt).
Proof.
  induction l as [|a l IH]; [done|].
  cbn [for_each]. unfold mbind, M_bind. cbn. by rewrite IH.
Qed.

(** Once the document is loaded, [main] prints the report and goes on with
    [draw_dfa]. *)
Lemma main_loaded json_load fs text data :
  fs "dfa.json" = Regular text → utf8_valid text = true →
  json_load text = Some data →
  main json_load fs =
    ((Print <$> report_lines data) ++ (draw_dfa data).1, (draw_dfa data).2).
Proof.
  intros Hfs Hvalid Hparse.
  pose proof (load_dfa_ok json_load fs "dfa.json" text data Hfs Hvalid Hparse)
    as Hload.
  unfold main. rewrite Hload, bind_unit. cbv beta zeta.
  rewrite
    (for_each_print (D:=directive) (sorted (transitions data)) table_row).
  unfold mbind, M_bind, print.
  destruct (draw_dfa data) as [out r]. cbn [fst snd app].
  f_equal. unfold report_lines.
  rewrite !fmap_app. cbn [fmap list_fmap app].
  by rewrite <- !app_assoc.
Qed.

(** ** The claims on the report, the soft conditions and the loaders *)

(** Nothing sorts the accepting states: two accepting states listed with
    the larger id first are shown in that order. *)
Example accepting_states_not_sorted :
  accepting_line two_accepting = "Accepting States:  {2, 1}"
  ∧ ¬ accepting_in_numeric_order two_accepting.
Proof.
  split; [reflexivity|].
  unfold accepting_in_numeric_order. intros Hs.
  change (Sorted Z.le [2%Z; 1%Z]) in Hs.
  apply Sorted_inv in Hs as [_ Hhd]. apply HdRel_inv in Hhd. lia.
Qed.

(** C6.  The summary shows the accepting-state ids between braces,
    separated by [", "], in the order in which the accepting states appear
    in the document, which is the first of the two orders the claim
    allows. *)
Theorem accepting_states_in_document_order json_load fs text data :
  fs "dfa.json" = Regular text → utf8_valid text = true →
  json_load text = Some data →
  let shown := id <$> filter (λ s, accepting s = true) (states data) in
  Print ("Accepting States:  {" +:+ join_comma_space (str <$> shown) +:+ "}")
    ∈ (main json_load fs).1
  ∧ shown `sublist_of` (id <$> states data).
Proof.
  intros Hfs Hvalid Hparse shown. split.
  - rewrite (main_loaded json_load fs text data Hfs Hvalid Hparse). cbn [fst].
    apply elem_of_app. left. apply list_elem_of_fmap.
    exists (accepting_line (states data)). split; [done|].
    unfold report_lines. apply elem_of_app. left.
    do 5 right. by left.
  - apply fmap_sublist, sublist_filter.
Qed.

Lemma accepting_states_in_document_order_witness :
  let fs : filesystem := λ _, Regular "{}" in
  let json_load : string → option dfa_data :=
    λ _, Some {| states := two_accepting; start_state := None;
                 transitions := [] |} in
  fs "dfa.json" = Regular "{}" ∧ utf8_valid "{}" = true
  ∧ json_load "{}"
    = Some {| states := two_accepting; start_state := None;
              transitions := [] |}
  ∧ Print "Accepting States:  {2, 1}" ∈ (main json_load fs).1.
Proof.
  intros fs json_load.
  assert (Hfs : fs "dfa.json" = Regular "{}") by reflexivity.
  assert (Hvalid : utf8_valid "{}" = true) by reflexivity.
  assert (Hparse : json_load "{}"
                   = Some {| states := two_accepting; start_state := None;
                             transitions := [] |}) by reflexivity.
  split; [exact Hfs|]. split; [exact Hvalid|]. split; [exact Hparse|].
  exact (proj1 (accepting_states_in_document_order json_load fs "{}" _
                  Hfs Hvalid Hparse)).
Defined.

(** What a rendered DFA document leaves behind: the figure is exported and
    the only console line is the confirmation. *)
Lemma draw_dfa_exports data :
  states data ≠ [] →
  references_declared (states data) (transitions data) →
  exports "dfa.png" (draw_dfa data).
Proof.
  intros Hne Hrefs.
  destruct (draw_dfa_renders data Hne Hrefs)
    as (G & edge_labels & _ & Hacc & Hlab & Hres & Hout).
  split; [done|]. split.
  - apply Hout. right. right. unfold closing_events. do 4 right. by left.
  - intros line [(e & He & Hev)|[(n & Hn & Hev)|Hev]]%Hout.
    + destruct (draw_edge_events edge_labels e (Hlab e He)) as [_ Hshape].
      destruct (Hshape _ Hev) as (label & [?|[?|[?|?]]]); done.
    + destruct (Hacc n Hn) as [a Ha].
      destruct (draw_node_events G (start_state data) n a Ha) as [_ Hshape].
      by destruct (Hshape _ Hev) as [d ?].
    + unfold closing_events in Hev.
      repeat (apply elem_of_cons in Hev as [Hev|Hev]; [try done|]).
      * by injection Hev as ->.
      * by apply elem_of_nil in Hev.
Qed.

Lemma draw_dfa_no_states data :
  states data = [] → skips_export (draw_dfa data).
Proof.
  intros Hs. unfold draw_dfa. rewrite Hs. split; [done|]. split.
  - exists "Error: No states found in DFA.". split; [by left|done].
  - intros filename [?|?%elem_of_nil]%elem_of_cons; done.
Qed.

Lemma draw_tree_no_root json_data :
  SyntaxTree.root json_data = Null →
  skips_export (SyntaxTree.draw_tree json_data).
Proof.
  intros Hr. unfold SyntaxTree.draw_tree. rewrite Hr. split; [done|]. split.
  - exists "Error: No root node found in syntax tree.".
    split; [by left|done].
  - intros filename [?|?%elem_of_nil]%elem_of_cons; done.
Qed.

(** No line of the report is a diagnostic. *)
Lemma str_not_diagnostic n rest : is_diagnostic (str n +:+ rest) = false.
Proof.
  unfold str.
  destruct (Z.to_int n) as [u|u]; [|reflexivity].
  destruct u; reflexivity.
Qed.

Lemma report_lines_not_diagnostic data line :
  line ∈ report_lines data → is_diagnostic line = false.
Proof.
  unfold report_lines.
  intros [Hl|[Hl|Hl]%elem_of_app]%elem_of_app.
  - repeat (apply elem_of_cons in Hl as [->|Hl]; [reflexivity|]).
    by apply elem_of_nil in Hl.
  - apply list_elem_of_fmap in Hl as (t & -> & _).
    unfold table_row, ljust. rewrite string_app_assoc.
    apply str_not_diagnostic.
  - repeat (apply elem_of_cons in Hl as [->|Hl]; [reflexivity|]).
    by apply elem_of_nil in Hl.
Qed.

(** The report that precedes the rendering changes neither the outcome nor
    the export. *)
Lemma main_skips_export json_load fs text data :
  fs "dfa.json" = Regular text → utf8_valid text = true →
  json_load text = Some data →
  skips_export (draw_dfa data) → skips_export (main json_load fs).
Proof.
  intros Hfs Hvalid Hparse (Hres & (line & Hline & Hdiag) & Hno).
  rewrite (main_loaded json_load fs text data Hfs Hvalid Hparse).
  split; [done|]. split.
  - exists line. split; [|done]. apply elem_of_app. by right.
  - intros filename [Hin|Hin]%elem_of_app; [|by eapply Hno].
    by apply list_elem_of_fmap in Hin as (? & ? & _).
Qed.

Lemma main_exports json_load fs text data :
  fs "dfa.json" = Regular text → utf8_valid text = true →
  json_load text = Some data →
  exports "dfa.png" (draw_dfa data) → exports "dfa.png" (main json_load fs).
Proof.
  intros Hfs Hvalid Hparse (Hres & Hsave & Hno).
  rewrite (main_loaded json_load fs text data Hfs Hvalid Hparse).
  split; [done|]. split.
  - apply elem_of_app. by right.
  - intros line [Hin|Hin]%elem_of_app; [|by apply Hno].
    apply list_elem_of_fmap in Hin as (l & Hl & Hin).
    injection Hl as ->. by apply (report_lines_not_diagnostic data).
Qed.

Lemma normal_exit {D : Type} (m : M D unit) :
  m.2 = inr tt → exit_status m = 0%Z.
Proof. unfold exit_status. by intros ->. Qed.

(** The tree script on a document without root: the report, then the
    diagnostic. *)
Lemma tree_main_no_root json_load fs text data :
  fs "syntax_tree.json" = Regular text → utf8_valid text = true →
  json_load text = Some data →
  SyntaxTree.root data = Null →
  skips_export (SyntaxTree.main json_load fs).
Proof.
  intros Hfs Hvalid Hparse Hroot.
  pose proof (load_syntax_tree_ok json_load fs "syntax_tree.json" text data
                Hfs Hvalid Hparse) as Hload.
  unfold SyntaxTree.main. rewrite Hload, bind_unit. cbv beta.
  unfold SyntaxTree.draw_tree. rewrite Hroot.
  unfold mbind, M_bind, mret, M_ret, print. cbn [fst snd app].
  split; [done|]. split.
  - exists "Error: No root node found in syntax tree.".
    split; [|done]. do 7 right. by left.
  - intros filename Hin.
    repeat (apply elem_of_cons in Hin as [?|Hin]; [done|]).
    by apply elem_of_nil in Hin.
Qed.

(** C7 (as stated) fails: a document with one state, no start state and no
    transition is rendered and exported like any other, without a
    diagnostic. *)
Lemma soft_condition_counterexample :
  degenerate lone_state
  ∧ ¬ skips_export (draw_dfa lone_state)
  ∧ ¬ skips_export (main (λ _, Some lone_state) (λ _, Regular "{}")).
Proof.
  split; [by left|]. split; intros (_ & _ & Hno); apply (Hno "dfa.png").
  - vm_compute.
    repeat first [apply list_elem_of_here | apply list_elem_of_further].
  - vm_compute.
    repeat first [apply list_elem_of_here | apply list_elem_of_further].
Qed.

(** C7 (as amended).  A syntax-tree document without root node and a DFA
    document without states are soft conditions: the pipeline prints a
    diagnostic, does not export the image and ends normally, with status 0.
    A DFA document that has states, with transitions between declared
    states, is rendered and exported without diagnostic, also when it has
    no start state or no transition.  Each script reads its own file
    only. *)
Theorem soft_conditions json_load_tree json_load_dfa fs :
  (∀ text doc,
     fs "syntax_tree.json" = Regular text → utf8_valid text = true →
     json_load_tree text = Some doc →
     SyntaxTree.root doc = Null →
     skips_export (SyntaxTree.main json_load_tree fs)
     ∧ exit_status (SyntaxTree.main json_load_tree fs) = 0%Z)
  ∧ (∀ text doc,
       fs "dfa.json" = Regular text → utf8_valid text = true →
       json_load_dfa text = Some doc →
       states doc = [] →
       skips_export (main json_load_dfa fs)
       ∧ exit_status (main json_load_dfa fs) = 0%Z)
  ∧ (∀ text doc,
       fs "dfa.json" = Regular text → utf8_valid text = true →
       json_load_dfa text = Some doc →
       states doc ≠ [] →
       references_declared (states doc) (transitions doc) →
       exports "dfa.png" (main json_load_dfa fs)
       ∧ exit_status (main json_load_dfa fs) = 0%Z).
Proof.
  split; [|split].
  - intros text doc Hfs Hvalid Hparse Hroot.
    pose proof (tree_main_no_root _ _ _ _ Hfs Hvalid Hparse Hroot) as Hskip.
    split; [done|]. apply normal_exit, Hskip.
  - intros text doc Hfs Hvalid Hparse Hempty.
    pose proof (main_skips_export _ _ _ _ Hfs Hvalid Hparse
                  (draw_dfa_no_states _ Hempty)) as Hskip.
    split; [done|]. apply normal_exit, Hskip.
  - intros text doc Hfs Hvalid Hparse Hne Hrefs.
    pose proof (main_exports _ _ _ _ Hfs Hvalid Hparse
                  (draw_dfa_exports _ Hne Hrefs)) as Hexp.
    split; [done|]. apply normal_exit, Hexp.
Qed.

(** The tree script finds its document although there is no DFA file, and
    the DFA script finds its document although there is no tree file. *)
Lemma soft_conditions_witness :
  let tree_only : filesystem :=
    λ name, if String.eqb name "syntax_tree.json" then Regular "{}"
            else Missing in
  let dfa_only : filesystem :=
    λ name, if String.eqb name "dfa.json" then Regular "{}" else Missing in
  skips_export
    (SyntaxTree.main (λ _, Some SyntaxTree.no_root) tree_only)
  ∧ skips_export (main (λ _, Some no_states) dfa_only)
  ∧ exports "dfa.png" (main (λ _, Some lone_state) dfa_only).
Proof.
  intros tree_only dfa_only.
  assert (Ht : tree_only "syntax_tree.json" = Regular "{}") by reflexivity.
  assert (Hd : dfa_only "dfa.json" = Regular "{}") by reflexivity.
  assert (Hvalid : utf8_valid "{}" = true) by reflexivity.
  assert (Hne : states lone_state ≠ []) by (simpl; congruence).
  assert (Hrefs : references_declared (states lone_state)
                    (transitions lone_state)) by (simpl; constructor).
  split; [|split].
  - exact (proj1 (proj1 (soft_conditions (λ _, Some SyntaxTree.no_root)
                           (λ _, @None dfa_data) tree_only)
                    "{}" SyntaxTree.no_root Ht Hvalid eq_refl eq_refl)).
  - exact (proj1 (proj1 (proj2 (soft_conditions
                                  (λ _, @None SyntaxTree.tree_data)
                                  (λ _, Some no_states) dfa_only))
                    "{}" no_states Hd Hvalid eq_refl eq_refl)).
  - exact (proj1 (proj2 (proj2 (soft_conditions
                                  (λ _, @None SyntaxTree.tree_data)
                                  (λ _, Some lone_state) dfa_only))
                    "{}" lone_state Hd Hvalid eq_refl Hne Hrefs)).
Defined.

(** C8 (as stated) fails: a file that is there but is not UTF-8 text, and
    so is not valid structured data whatever the parser, makes both loaders
    end with [UnicodeDecodeError], which no [except] clause names: no
    message is printed. *)
Lemma loaders_counterexample :
  let fs : filesystem := λ _, Regular (String (ascii_of_nat 255) "") in
  utf8_valid (String (ascii_of_nat 255) "") = false
  ∧ load_dfa (λ _, None) fs "dfa.json" = ([], inl UnicodeDecodeError)
  ∧ SyntaxTree.load_syntax_tree (λ _, None) fs "syntax_tree.json"
    = ([], inl UnicodeDecodeError)
  ∧ ¬ reports_failure (load_dfa (λ _, None) fs "dfa.json")
  ∧ ¬ reports_failure
        (SyntaxTree.load_syntax_tree (λ _, None) fs "syntax_tree.json").
Proof.
  intros fs. split; [reflexivity|]. split; [reflexivity|].
  split; [reflexivity|].
  split; intros [(message & Hin & _) _]; by apply elem_of_nil in Hin.
Qed.

(** C8 (as amended).  Each loader returns the parsed document when the file
    is present, is UTF-8 text and parses.  When the file is absent, and
    when its text does not parse, and only then, it prints one message that
    names the failure and ends the process with status 1 without returning
    anything; the two messages differ.  In every other failure (a file that
    cannot be read, a directory, bytes that are not UTF-8) the exception
    leaves the loader: nothing is returned and no message is printed. *)
Theorem loaders_contract
    (json_load_dfa : string → option dfa_data)
    (json_load_tree : string → option SyntaxTree.tree_data) :
  loader_contract json_load_dfa (load_dfa json_load_dfa)
  ∧ loader_contract json_load_tree (SyntaxTree.load_syntax_tree json_load_tree)
  ∧ ∀ filename, not_found_message filename ≠ malformed_message filename.
Proof.
  split; [apply load_dfa_contract|].
  split; [apply load_syntax_tree_contract|apply messages_differ].
Qed.

(** The cross-references of the transitions are not validated: with a
    transition to a state that is not declared, the node that only the edge
    has created carries no ['accepting'] attribute, and drawing it raises
    [KeyError], whether the start state is declared or not. *)
Example undeclared_target_raises :
  states undeclared_target ≠ []
  ∧ dangling_start undeclared_target
  ∧ (main (λ _, Some undeclared_target) (λ _, Regular "{}")).2
    = inl (KeyError "accepting")
  ∧ exit_status (main (λ _, Some undeclared_target) (λ _, Regular "{}")) = 1%Z
  ∧ (main (λ _, Some declared_start) (λ _, Regular "{}")).2
    = inl (KeyError "accepting").
Proof.
  split; [done|]. split; [|by vm_compute].
  intros s ->%list_elem_of_singleton. done.
Qed.

(** C9.  A DFA document that has states, whose transitions go between
    declared states (the invariant of the document) and whose start state
    is the id of no state is reported and rendered to the end: [main]
    returns normally with status 0 and exports the image; every state is
    drawn in one of the two styles that are not start styles, and neither
    the start arrow nor the ['Start'] text is drawn. *)
Theorem dangling_start_tolerated json_load fs text data :
  fs "dfa.json" = Regular text → utf8_valid text = true →
  json_load text = Some data →
  states data ≠ [] →
  dangling_start data →
  references_declared (states data) (transitions data) →
  let run := main json_load fs in
  run.2 = inr tt
  ∧ exit_status run = 0%Z
  ∧ SaveFig "dfa.png" ∈ run.1
  ∧ (∀ s, s ∈ states data →
       ∃ node_color edge_color,
         Draw (MainCircle (id s) node_color edge_color) ∈ run.1)
  ∧ (∀ n node_color edge_color,
       Draw (MainCircle n node_color edge_color) ∈ run.1 →
       non_start_style node_color edge_color)
  ∧ (∀ n edge_color, Draw (StartArrow n edge_color) ∉ run.1)
  ∧ (∀ n, Draw (StartText n) ∉ run.1).
Proof.
  intros Hfs Hvalid Hparse Hne Hdangling Hrefs run. subst run.
  rewrite (main_loaded json_load fs text data Hfs Hvalid Hparse).
  destruct (draw_dfa_renders data Hne Hrefs)
    as (G & edge_labels & Hids & Hacc & Hlab & Hres & Hout).
  assert (Hnode : ∀ n, n ∈ (nodes G).*1 →
            ∃ a : bool, draw_node G (start_state data) n =
                   ((if a then [Draw (OuterCircle n "#DC143C")] else [])
                    ++ [ Draw (MainCircle n
                                 (if a then "#FFB6C1" else "#F0F0F0")
                                 (if a then "#DC143C" else "#696969"));
                         Draw (NodeLabel n (str n)) ],
                    inr tt)).
  { intros n Hn. destruct (Hacc n Hn) as [a Ha]. exists a.
    apply draw_node_not_start; [done|].
    apply Hids in Hn as (s & -> & Hs)%list_elem_of_fmap.
    by apply Hdangling. }
  assert (Hdrawn : ∀ d,
            Draw d ∈ (Print <$> report_lines data) ++ (draw_dfa data).1 →
            Draw d ∈ (draw_dfa data).1).
  { intros d [(line & ? & _)%list_elem_of_fmap|?]%elem_of_app; done. }
  assert (Hcases : ∀ d, Draw d ∈ (draw_dfa data).1 →
            (∃ u v label, d = LoopCircle u ∨ d = LoopLabel u label
                          ∨ d = EdgeArrow u v ∨ d = EdgeLabel u v label)
            ∨ (∃ n (a : bool), d = OuterCircle n "#DC143C"
                      ∨ d = MainCircle n (if a then "#FFB6C1" else "#F0F0F0")
                              (if a then "#DC143C" else "#696969")
                      ∨ d = NodeLabel n (str n))
            ∨ Draw d ∈ closing_events data).
  { intros d [(e & He & Hev)|[(n & Hn & Hev)|Hev]]%Hout.
    - left. exists e.1, e.2.
      destruct (draw_edge_events edge_labels e (Hlab e He)) as [_ Hshape].
      destruct (Hshape _ Hev) as (label & Hd). exists label.
      destruct Hd as [Hd|[Hd|[Hd|Hd]]]; injection Hd as ->; tauto.
    - right. left. destruct (Hnode n Hn) as [a Ha]. rewrite Ha in Hev.
      exists n, a. cbn [fst] in Hev.
      apply elem_of_app in Hev as [Hev|Hev].
      + destruct a; [|by apply elem_of_nil in Hev].
        apply list_elem_of_singleton in Hev. injection Hev as ->. tauto.
      + apply elem_of_cons in Hev as [Hev|Hev];
          [injection Hev as ->; tauto|].
        apply list_elem_of_singleton in Hev. injection Hev as ->. tauto.
    - by right; right. }
  cbn [fst snd]. split; [done|]. split; [unfold exit_status; by rewrite Hres|].
  split.
  { apply elem_of_app. right. apply Hout. right. right.
    unfold closing_events. do 4 right. by left. }
  split.
  { intros s Hs.
    assert (Hn : id s ∈ (nodes G).*1).
    { apply Hids, list_elem_of_fmap. eauto. }
    destruct (Hnode _ Hn) as [a Ha]. eexists _, _.
    apply elem_of_app. right. apply Hout. right. left.
    exists (id s). split; [done|]. rewrite Ha. cbn [fst].
    apply elem_of_app. right. by left. }
  split.
  { intros n c1 c2 Hd%Hdrawn.
    destruct (Hcases _ Hd) as [(u & v & l & Hd')|[(m & a & Hd')|Hd']].
    - destruct Hd' as [?|[?|[?|?]]]; done.
    - destruct Hd' as [?|[Hd'|?]]; [done| |done].
      injection Hd' as -> -> ->. unfold non_start_style.
      destruct a; tauto.
    - unfold closing_events in Hd'.
      repeat (apply elem_of_cons in Hd' as [?|Hd']; [done|]).
      by apply elem_of_nil in Hd'. }
  split.
  { intros n c Hd%Hdrawn.
    destruct (Hcases _ Hd) as [(u & v & l & Hd')|[(m & a & Hd')|Hd']].
    - destruct Hd' as [?|[?|[?|?]]]; done.
    - destruct Hd' as [?|[?|?]]; done.
    - unfold closing_events in Hd'.
      repeat (apply elem_of_cons in Hd' as [?|Hd']; [done|]).
      by apply elem_of_nil in Hd'. }
  { intros n Hd%Hdrawn.
    destruct (Hcases _ Hd) as [(u & v & l & Hd')|[(m & a & Hd')|Hd']].
    - destruct Hd' as [?|[?|[?|?]]]; done.
    - destruct Hd' as [?|[?|?]]; done.
    - unfold closing_events in Hd'.
      repeat (apply elem_of_cons in Hd' as [?|Hd']; [done|]).
      by apply elem_of_nil in Hd'. }
Qed.

Lemma dangling_start_tolerated_witness :
  let fs : filesystem := λ _, Regular "{}" in
  let json_load : string → option dfa_data := λ _, Some dangling in
  fs "dfa.json" = Regular "{}" ∧ utf8_valid "{}" = true
  ∧ json_load "{}" = Some dangling
  ∧ states dangling ≠ []
  ∧ dangling_start dangling
  ∧ references_declared (states dangling) (transitions dangling)
  ∧ (main json_load fs).2 = inr tt
  ∧ exit_status (main json_load fs) = 0%Z.
Proof.
  intros fs json_load.
  assert (Hfs : fs "dfa.json" = Regular "{}") by reflexivity.
  assert (Hvalid : utf8_valid "{}" = true) by reflexivity.
  assert (Hparse : json_load "{}" = Some dangling) by reflexivity.
  assert (Hne : states dangling ≠ []) by (simpl; congruence).
  assert (Hd : dangling_start dangling).
  { intros s Hs. simpl in Hs.
    apply elem_of_cons in Hs as [->|Hs]; [simpl; congruence|].
    apply list_elem_of_singleton in Hs as ->. simpl; congruence. }
  assert (Hr : references_declared (states dangling) (transitions dangling)).
  { simpl. repeat constructor. }
  repeat (split; [done|]).
  destruct (dangling_start_tolerated json_load fs "{}" dangling
              Hfs Hvalid Hparse Hne Hd Hr) as (H1 & H2 & _).
  by split.
Defined.

End PipelineFacts.

(** * More on the tree layout *)

Module TreeLayoutFacts.
Import Binary64 SyntaxTree FloatFacts TreeFacts.

(** The layout is the in-order traversal.  In a tree with unique ids whose
    anchor [a * 2^c] and spacing [s * 2^c] are multiples of one power of
    two, with [a + n * s < 2^53] for the number [n] of nodes, the node that
    comes [k]-th in order (left subtree, node, right subtree) stands
    exactly [k] spacings to the right of the anchor. *)
Theorem inorder_position t c a s y level y_spacing k j :
  grid_exponent c → (0 <= a)%Z → (0 < s)%Z →
  (a + Z.of_nat (node_count t) * s < 2 ^ 53)%Z →
  NoDup (ids t) → ids t !! k = Some j →
  ∃ p,
    (calculate_tree_positions t (of_scaled a c) y level (of_scaled s c)
       y_spacing).1 !! j = Some p
    ∧ xcoord p = of_scaled (a + Z.of_nat k * s) c
    ∧ (value (xcoord p)
       == value (of_scaled a c)
          + inject_Z (Z.of_nat k) * value (of_scaled s c))%Q.
Proof.
  intros Hc Ha Hs Hb Hnd Hk.
  destruct (grid_inorder c s y_spacing Hc Hs t a y level k j Hnd Ha Hb Hk)
    as (p & Hp & Hx).
  exists p. split; [done|]. split; [done|]. rewrite Hx.
  pose proof (index_bound s Hs t a k Ha Hb (lookup_lt_Some _ _ _ Hk)) as Hkb.
  assert (0 <= Z.of_nat k * s)%Z by nia.
  assert (0 <= Z.of_nat (node_count t) * s)%Z by nia.
  assert (0 < Z.of_nat (node_count t))%Z.
  { apply lookup_lt_Some in Hk. rewrite ids_length in Hk. lia. }
  rewrite !value_of_scaled by (done || nia).
  rewrite inject_Z_plus, inject_Z_mult. ring.
Qed.

Lemma inorder_position_witness :
  grid_exponent (-1) ∧ (0 <= 0)%Z ∧ (0 < 3)%Z
  ∧ (0 + Z.of_nat (node_count concat_ab) * 3 < 2 ^ 53)%Z
  ∧ NoDup (ids concat_ab) ∧ ids concat_ab !! 2%nat = Some 2%Z
  ∧ ∃ p, (layout concat_ab).1 !! 2%Z = Some p
         ∧ xcoord p = of_scaled 6 (-1).
Proof.
  assert (Hc : grid_exponent (-1)) by (unfold grid_exponent; lia).
  assert (Ha : (0 <= 0)%Z) by lia.
  assert (Hs : (0 < 3)%Z) by lia.
  assert (Hb : (0 + Z.of_nat (node_count concat_ab) * 3 < 2 ^ 53)%Z)
    by reflexivity.
  assert (Hnd : NoDup (ids concat_ab)).
  { apply (bool_decide_unpack (NoDup (ids concat_ab))). by vm_compute. }
  assert (Hk : ids concat_ab !! 2%nat = Some 2%Z) by reflexivity.
  split; [exact Hc|]. split; [exact Ha|]. split; [exact Hs|].
  split; [exact Hb|]. split; [exact Hnd|]. split; [exact Hk|].
  destruct (inorder_position concat_ab (-1) 0 3 zero 0 default_y_spacing
              2 2 Hc Ha Hs Hb Hnd Hk) as (p & Hp & Hx & _).
  exists p. split; [exact Hp|exact Hx].
Defined.

(** The horizontal extent of the drawing.  On the grid, every position of
    the dictionary of a tree with [n] nodes lies between the anchor and
    [n - 1] spacings to its right, with repeated ids or not. *)
Theorem positions_bounding_box t c a s y level y_spacing j p :
  grid_exponent c → (0 <= a)%Z → (0 < s)%Z →
  (a + Z.of_nat (node_count t) * s < 2 ^ 53)%Z →
  (calculate_tree_positions t (of_scaled a c) y level (of_scaled s c)
     y_spacing).1 !! j = Some p →
  leb (of_scaled a c) (xcoord p) = true
  ∧ leb (xcoord p) (of_scaled (a + (Z.of_nat (node_count t) - 1) * s) c)
    = true.
Proof.
  intros Hc Ha Hs Hb Hp.
  destruct (grid_positions c s y_spacing Hc Hs t a y level j p Ha Hb Hp)
    as (k & Hk & ->).
  apply lookup_lt_Some in Hk.
  pose proof (index_bound s Hs t a k Ha Hb Hk) as Hkb.
  rewrite ids_length in Hk.
  assert (0 <= Z.of_nat k * s)%Z by nia.
  assert (Z.of_nat k * s <= (Z.of_nat (node_count t) - 1) * s)%Z
    by (apply Z.mul_le_mono_nonneg_r; lia).
  split; apply leb_of_scaled; (done || nia).
Qed.

Lemma positions_bounding_box_witness :
  grid_exponent (-1) ∧ (0 <= 0)%Z ∧ (0 < 3)%Z
  ∧ (0 + Z.of_nat (node_count concat_ab) * 3 < 2 ^ 53)%Z
  ∧ (layout concat_ab).1 !! 2%Z
    = Some (of_scaled 6 (-1), sub zero default_y_spacing)
  ∧ leb zero (of_scaled 6 (-1)) = true
  ∧ leb (of_scaled 6 (-1)) (of_scaled 6 (-1)) = true.
Proof.
  assert (Hc : grid_exponent (-1)) by (unfold grid_exponent; lia).
  assert (Ha : (0 <= 0)%Z) by lia.
  assert (Hs : (0 < 3)%Z) by lia.
  assert (Hb : (0 + Z.of_nat (node_count concat_ab) * 3 < 2 ^ 53)%Z)
    by reflexivity.
  assert (Hp : (layout concat_ab).1 !! 2%Z
               = Some (of_scaled 6 (-1), sub zero default_y_spacing))
    by (by vm_compute).
  split; [exact Hc|]. split; [exact Ha|]. split; [exact Hs|].
  split; [exact Hb|]. split; [exact Hp|].
  exact (positions_bounding_box concat_ab (-1) 0 3 zero 0 default_y_spacing
           2 _ Hc Ha Hs Hb Hp).
Defined.

(** Rows.  In a tree with unique ids, the y of a node at depth [d] is the
    anchor after [d] subtractions of the vertical spacing, each one
    rounded; it is the same float for all the nodes of that depth, whatever
    the floats are. *)
Theorem depth_position t x y level x_spacing y_spacing d j :
  NoDup (ids t) → j ∈ ids_at_depth t d →
  ∃ p,
    (calculate_tree_positions t x y level x_spacing y_spacing).1 !! j = Some p
    ∧ ycoord p = row y y_spacing d.
Proof.
  revert x y level d; induction t as [|i v l IHl r IHr];
    intros x y level d Hnd Hj; [by apply elem_of_nil in Hj|].
  pose proof Hnd as Hnd'. cbn [ids] in Hnd'.
  apply NoDup_app in Hnd' as (Hl & _ & Hr). apply NoDup_cons in Hr as [_ Hr].
  cbn [ids_at_depth] in Hj. destruct d as [|d].
  - apply list_elem_of_singleton in Hj as ->. rewrite lookup_root by done.
    eexists. split; [done|]. done.
  - unfold row. rewrite Nat.iter_succ_r. fold (row (sub y y_spacing) y_spacing d).
    apply elem_of_app in Hj as [Hj|Hj].
    + rewrite lookup_in_left; [|done|by eapply ids_at_depth_ids].
      by apply IHl.
    + rewrite lookup_in_right; [|done|by eapply ids_at_depth_ids].
      by apply IHr.
Qed.

Lemma depth_position_witness :
  NoDup (ids concat_ab) ∧ 2%Z ∈ ids_at_depth concat_ab 1
  ∧ ∃ p, (layout concat_ab).1 !! 2%Z = Some p
         ∧ ycoord p = sub zero default_y_spacing.
Proof.
  assert (Hnd : NoDup (ids concat_ab)).
  { apply (bool_decide_unpack (NoDup (ids concat_ab))). by vm_compute. }
  assert (Hj : 2%Z ∈ ids_at_depth concat_ab 1) by (cbn; right; by left).
  split; [exact Hnd|]. split; [exact Hj|].
  exact (depth_position concat_ab zero zero 0 default_x_spacing
           default_y_spacing 1 2 Hnd Hj).
Defined.

(** The rows are not at multiples of the spacing: with the default 1.2 the
    subtractions round, and the row of depth 6 is [-7.2000000000000002],
    while the float product [6 * 1.2] is [7.199999999999999]. *)
Example row_six_rounds :
  row zero default_y_spacing 6 = S754_finite true 8106479329266893 (-50)
  ∧ mul (of_scaled 6 0) default_y_spacing
    = S754_finite false 8106479329266892 (-50).
Proof. split; by vm_compute. Qed.

Lemma lookup_union_fmap {A B : Type} (f : A → B) (m1 m2 m1' m2' : gmap Z A) j :
  f <$> m1 !! j = f <$> m1' !! j →
  f <$> m2 !! j = f <$> m2' !! j →
  f <$> (m1 ∪ m2) !! j = f <$> (m1' ∪ m2') !! j.
Proof.
  rewrite !lookup_union.
  destruct (m1 !! j), (m1' !! j), (m2 !! j), (m2' !! j); cbn; congruence.
Qed.

Lemma lookup_singleton_fmap {A B : Type} (f : A → B) i (a a' : A) j :
  f a = f a' →
  f <$> ({[ i := a ]} : gmap Z A) !! j = f <$> ({[ i := a' ]} : gmap Z A) !! j.
Proof.
  intros Hf. destruct (decide (i = j)) as [->|Hne].
  - rewrite !lookup_singleton_eq. cbn. by rewrite Hf.
  - by rewrite !lookup_singleton_ne.
Qed.

(** The x-coordinates do not depend on [y] and [level]. *)
Lemma xcoord_free t x y level y' level' xs ys j :
  xcoord <$> (calculate_tree_positions t x y level xs ys).1 !! j
  = xcoord <$> (calculate_tree_positions t x y' level' xs ys).1 !! j.
Proof.
  revert x y level y' level'; induction t as [|i v l IHl r IHr];
    intros x y level y' level'; [done|].
  rewrite !calculate_tree_positions_eq.
  pose proof (width_anchor_free xs ys l x (sub y ys) (S level)
                x (sub y' ys) (S level')) as Hw.
  specialize (IHl x (sub y ys) (S level) (sub y' ys) (S level')).
  destruct (calculate_tree_positions l x (sub y ys) (S level) xs ys)
    as [lp lw].
  destruct (calculate_tree_positions l x (sub y' ys) (S level') xs ys)
    as [lp' lw'].
  cbn [fst snd] in *. subst lw'.
  specialize (IHr (add (add x lw) xs) (sub y ys) (S level)
                (sub y' ys) (S level')).
  destruct (calculate_tree_positions r (add (add x lw) xs) (sub y ys)
              (S level) xs ys) as [rp rw].
  destruct (calculate_tree_positions r (add (add x lw) xs) (sub y' ys)
              (S level') xs ys) as [rp' rw'].
  cbn [fst snd] in *.
  apply lookup_union_fmap; [done|].
  apply lookup_union_fmap; [done|]. by apply lookup_singleton_fmap.
Qed.

(** The y-coordinates do not depend on [x] and [level]. *)
Lemma ycoord_free t x y level x' level' xs ys j :
  ycoord <$> (calculate_tree_positions t x y level xs ys).1 !! j
  = ycoord <$> (calculate_tree_positions t x' y level' xs ys).1 !! j.
Proof.
  revert x y level x' level'; induction t as [|i v l IHl r IHr];
    intros x y level x' level'; [done|].
  rewrite !calculate_tree_positions_eq.
  pose proof (width_anchor_free xs ys l x (sub y ys) (S level)
                x' (sub y ys) (S level')) as Hw.
  specialize (IHl x (sub y ys) (S level) x' (S level')).
  destruct (calculate_tree_positions l x (sub y ys) (S level) xs ys)
    as [lp lw].
  destruct (calculate_tree_positions l x' (sub y ys) (S level') xs ys)
    as [lp' lw'].
  cbn [fst snd] in *. subst lw'.
  specialize (IHr (add (add x lw) xs) (sub y ys) (S level)
                (add (add x' lw) xs) (S level')).
  destruct (calculate_tree_positions r (add (add x lw) xs) (sub y ys)
              (S level) xs ys) as [rp rw].
  destruct (calculate_tree_positions r (add (add x' lw) xs) (sub y ys)
              (S level') xs ys) as [rp' rw'].
  cbn [fst snd] in *.
  apply lookup_union_fmap; [done|].
  apply lookup_union_fmap; [done|]. by apply lookup_singleton_fmap.
Qed.

(** What the arguments do not influence, for any floats: the width depends
    neither on the anchor nor on the level; the x-coordinates do not depend
    on [y], the y-coordinates do not depend on [x], and the [level]
    argument has no effect at all. *)
Theorem layout_independence t x y level x' y' level' x_spacing y_spacing :
  (calculate_tree_positions t x y level x_spacing y_spacing).2
  = (calculate_tree_positions t x' y' level' x_spacing y_spacing).2
  ∧ calculate_tree_positions t x y level x_spacing y_spacing
    = calculate_tree_positions t x y level' x_spacing y_spacing
  ∧ ∀ j,
      xcoord <$> (calculate_tree_positions t x y level
                    x_spacing y_spacing).1 !! j
      = xcoord <$> (calculate_tree_positions t x y' level'
                      x_spacing y_spacing).1 !! j
      ∧ ycoord <$> (calculate_tree_positions t x y level
                      x_spacing y_spacing).1 !! j
        = ycoord <$> (calculate_tree_positions t x' y level'
                        x_spacing y_spacing).1 !! j.
Proof.
  split; [apply width_anchor_free|]. split.
  - pose proof (width_anchor_free x_spacing y_spacing t x y level x y level')
      as Hw.
    assert (Hp : (calculate_tree_positions t x y level x_spacing y_spacing).1
                 = (calculate_tree_positions t x y level'
                      x_spacing y_spacing).1).
    { apply map_eq. intros j.
      pose proof (xcoord_free t x y level y level' x_spacing y_spacing j)
        as Hx.
      pose proof (ycoord_free t x y level x level' x_spacing y_spacing j)
        as Hy.
      destruct (_ !! j) as [[px py]|], (_ !! j) as [[px' py']|];
        cbn in Hx, Hy; congruence. }
    destruct (calculate_tree_positions t x y level x_spacing y_spacing),
      (calculate_tree_positions t x y level' x_spacing y_spacing).
    cbn [fst snd] in *. congruence.
  - intros j. split; [apply xcoord_free|apply ycoord_free].
Qed.

End TreeLayoutFacts.

(** * More on the tree script *)

Module TreeScriptFacts.
Import Py Binary64 SyntaxTree TreeFacts StringFacts PipelineFacts.

Lemma draw_edges_eq positions i v l r :
  draw_edges positions (Node i v l r) =
    (node_pos ← getitem positions i (str i);
     match l with
     | Node left_id _ _ _ =>
         left_pos ← getitem positions left_id (str left_id);
         draw (PlotLine node_pos left_pos);;
         draw_edges positions l
     | Null => mret tt
     end;;
     match r with
     | Node right_id _ _ _ =>
         right_pos ← getitem positions right_id (str right_id);
         draw (PlotLine node_pos right_pos);;
         draw_edges positions r
     | Null => mret tt
     end).
Proof. reflexivity. Qed.

Lemma draw_nodes_eq positions i v l r :
  draw_nodes positions (Node i v l r) =
    (pos ← getitem positions i (str i);
     let '(color, edge_color) :=
       if is_operator v then ("#FFD700", "#FF8C00")
       else ("#87CEEB", "#4682B4") in
     draw (Circle pos color edge_color);;
     draw (Text pos v);;
     match l with
     | Node _ _ _ _ => draw_nodes positions l
     | Null => mret tt
     end;;
     match r with
     | Node _ _ _ _ => draw_nodes positions r
     | Null => mret tt
     end).
Proof. reflexivity. Qed.

Lemma getitem_Some {D : Type} (positions : gmap Z (float * float)) j repr :
  is_Some (positions !! j) →
  ∃ p, getitem (D:=D) positions j repr = ([], inr p).
Proof. intros [p Hp]. exists p. unfold getitem. by rewrite Hp. Qed.

Lemma ids_left_covered (P : Z → Prop) i v l r :
  (∀ j, j ∈ ids (Node i v l r) → P j) → ∀ j, j ∈ ids l → P j.
Proof. intros H j Hj. apply H. cbn [ids]. apply elem_of_app. by left. Qed.

Lemma ids_right_covered (P : Z → Prop) i v l r :
  (∀ j, j ∈ ids (Node i v l r) → P j) → ∀ j, j ∈ ids r → P j.
Proof.
  intros H j Hj. apply H. cbn [ids]. apply elem_of_app. right. by right.
Qed.

Lemma count_lines_app evs evs' :
  count_lines (evs ++ evs') = count_lines evs + count_lines evs'.
Proof. unfold count_lines. by rewrite filter_app, length_app. Qed.

Lemma count_circles_app evs evs' :
  count_circles (evs ++ evs') = count_circles evs + count_circles evs'.
Proof. unfold count_circles. by rewrite filter_app, length_app. Qed.

Lemma count_texts_app evs evs' :
  count_texts (evs ++ evs') = count_texts evs + count_texts evs'.
Proof. unfold count_texts. by rewrite filter_app, length_app. Qed.

(** The loop over the edges: one line for each child, nothing else. *)
Lemma draw_edges_ok positions t :
  (∀ j, j ∈ ids t → is_Some (positions !! j)) →
  ∃ evs,
    draw_edges positions t = (evs, inr tt)
    ∧ count_lines evs = pred (node_count t)
    ∧ count_circles evs = 0 ∧ count_texts evs = 0
    ∧ ∀ ev, ev ∈ evs → ∃ d, ev = Draw d.
Proof.
  induction t as [|i v l IHl r IHr]; intros Hcov.
  - exists []. repeat split; try done. by intros ev ?%elem_of_nil.
  - destruct (IHl (ids_left_covered _ _ _ _ _ Hcov))
      as (el & Hl & Hl1 & Hl2 & Hl3 & Hl4).
    destruct (IHr (ids_right_covered _ _ _ _ _ Hcov))
      as (er & Hr & Hr1 & Hr2 & Hr3 & Hr4).
    rewrite draw_edges_eq.
    destruct (getitem_Some (D:=directive) positions i (str i)) as [p Hp].
    { apply Hcov, root_in_ids. }
    rewrite Hp, bind_unit.
    assert (Hleft : ∃ evl,
      match l with
      | Node left_id _ _ _ =>
          left_pos ← getitem positions left_id (str left_id);
          draw (PlotLine p left_pos);;
          draw_edges positions l
      | Null => mret tt
      end = (evl, inr tt)
      ∧ count_lines evl = node_count l
      ∧ count_circles evl = 0 ∧ count_texts evl = 0
      ∧ ∀ ev, ev ∈ evl → ∃ d, ev = Draw d).
    { destruct l as [|li lv ll lr].
      - exists []. repeat split; try done. by intros ev ?%elem_of_nil.
      - destruct (getitem_Some (D:=directive) positions li (str li))
          as [pl Hpl].
        { apply Hcov. cbn [ids]. apply elem_of_app. left.
          apply (root_in_ids li lv ll lr). }
        rewrite Hpl, bind_unit, Hl. eexists. split; [reflexivity|].
        rewrite count_lines_app, count_circles_app, count_texts_app.
        rewrite Hl1, Hl2, Hl3. cbn [node_count].
        change (count_lines [Draw (PlotLine p pl)]) with 1.
        split; [lia|]. split; [done|]. split; [done|].
        intros ev [->|?]%elem_of_cons; [by eexists|by apply Hl4]. }
    assert (Hright : ∃ evr,
      match r with
      | Node right_id _ _ _ =>
          right_pos ← getitem positions right_id (str right_id);
          draw (PlotLine p right_pos);;
          draw_edges positions r
      | Null => mret tt
      end = (evr, inr tt)
      ∧ count_lines evr = node_count r
      ∧ count_circles evr = 0 ∧ count_texts evr = 0
      ∧ ∀ ev, ev ∈ evr → ∃ d, ev = Draw d).
    { destruct r as [|ri rv rl rr].
      - exists []. repeat split; try done. by intros ev ?%elem_of_nil.
      - destruct (getitem_Some (D:=directive) positions ri (str ri))
          as [pr Hpr].
        { apply Hcov. cbn [ids]. apply elem_of_app. right. right.
          apply (root_in_ids ri rv rl rr). }
        rewrite Hpr, bind_unit, Hr. eexists. split; [reflexivity|].
        rewrite count_lines_app, count_circles_app, count_texts_app.
        rewrite Hr1, Hr2, Hr3. cbn [node_count].
        change (count_lines [Draw (PlotLine p pr)]) with 1.
        split; [lia|]. split; [done|]. split; [done|].
        intros ev [->|?]%elem_of_cons; [by eexists|by apply Hr4]. }
    destruct Hleft as (evl & -> & Ha1 & Ha2 & Ha3 & Ha4).
    destruct Hright as (evr & -> & Hb1 & Hb2 & Hb3 & Hb4).
    exists (evl ++ evr). split; [done|].
    rewrite count_lines_app, count_circles_app, count_texts_app.
    rewrite Ha1, Ha2, Ha3, Hb1, Hb2, Hb3. cbn [node_count].
    split; [lia|]. split; [done|]. split; [done|].
    intros ev [?|?]%elem_of_app; auto.
Qed.

Lemma circle_text_counts (p : float * float) (v : string) :
  (∀ c e, count_lines [Draw (Circle p c e); Draw (Text p v)] = 0
          ∧ count_circles [Draw (Circle p c e); Draw (Text p v)] = 1)
  ∧ ∀ c e, count_texts [Draw (Circle p c e); Draw (Text p v)] = 1.
Proof. done. Qed.

(** The loop over the nodes: one circle and one text for each node. *)
Lemma draw_nodes_ok positions t :
  (∀ j, j ∈ ids t → is_Some (positions !! j)) →
  ∃ evs,
    draw_nodes positions t = (evs, inr tt)
    ∧ count_lines evs = 0
    ∧ count_circles evs = node_count t ∧ count_texts evs = node_count t
    ∧ ∀ ev, ev ∈ evs → ∃ d, ev = Draw d.
Proof.
  induction t as [|i v l IHl r IHr]; intros Hcov.
  - exists []. repeat split; try done. by intros ev ?%elem_of_nil.
  - destruct (IHl (ids_left_covered _ _ _ _ _ Hcov))
      as (el & Hl & Hl1 & Hl2 & Hl3 & Hl4).
    destruct (IHr (ids_right_covered _ _ _ _ _ Hcov))
      as (er & Hr & Hr1 & Hr2 & Hr3 & Hr4).
    rewrite draw_nodes_eq.
    destruct (getitem_Some (D:=directive) positions i (str i)) as [p Hp].
    { apply Hcov, root_in_ids. }
    rewrite Hp, bind_unit.
    assert (Hleft :
      match l with
      | Node _ _ _ _ => draw_nodes positions l
      | Null => mret tt
      end = (el, inr tt)).
    { destruct l; [|done]. cbn in Hl. by injection Hl as <-. }
    assert (Hright :
      match r with
      | Node _ _ _ _ => draw_nodes positions r
      | Null => mret tt
      end = (er, inr tt)).
    { destruct r; [|done]. cbn in Hr. by injection Hr as <-. }
    rewrite Hleft, Hright.
    destruct (is_operator v); eexists; (split; [reflexivity|]);
      cbn [app];
      change (?a :: ?b :: el ++ er) with ([a; b] ++ el ++ er);
      rewrite !count_lines_app, !count_circles_app, !count_texts_app,
        Hl1, Hl2, Hl3, Hr1, Hr2, Hr3; cbn [node_count];
      destruct (circle_text_counts p v) as [E1 E2];
      rewrite ?(proj1 (E1 _ _)), ?(proj2 (E1 _ _)), ?E2;
      (split; [done|]); (split; [lia|]); (split; [lia|]);
      intros ev [->|[->|[?|?]%elem_of_app]%elem_of_cons]%elem_of_cons;
      eauto.
Qed.

(** What [draw_tree] does on a document that has a root. *)
Lemma draw_tree_run data :
  is_null (root data) = false →
  ∃ lines circles,
    draw_tree data =
      (lines ++ circles ++
       [ Draw (Title ("Syntax Tree" +:+ newline +:+
                      "Original: " +:+ get_or_na (original_regex data)
                      +:+ newline +:+
                      "With Concat: " +:+ get_or_na (regex_with_concat data)
                      +:+ newline +:+
                      "Postfix: " +:+ get_or_na (postfix data)));
         Draw Legend; Draw AxisLimits; SaveFig "syntax_tree.png";
         Print "Syntax tree visualization saved as 'syntax_tree.png'" ],
       inr tt)
    ∧ count_lines lines = pred (node_count (root data))
    ∧ count_circles lines = 0 ∧ count_texts lines = 0
    ∧ count_lines circles = 0
    ∧ count_circles circles = node_count (root data)
    ∧ count_texts circles = node_count (root data)
    ∧ (∀ ev, ev ∈ lines → ∃ d, ev = Draw d)
    ∧ (∀ ev, ev ∈ circles → ∃ d, ev = Draw d).
Proof.
  intros Hroot. unfold draw_tree.
  destruct (root data) as [|i v l r] eqn:Hr; [done|].
  pose proof (positions_lookup_Some default_x_spacing default_y_spacing
                (Node i v l r) zero zero 0) as Hcov.
  destruct (calculate_tree_positions (Node i v l r) zero zero 0
              default_x_spacing
              default_y_spacing) as [positions w].
  cbn [fst] in Hcov.
  destruct (draw_edges_ok positions (Node i v l r) Hcov)
    as (lines & -> & H1 & H2 & H3 & H4).
  destruct (draw_nodes_ok positions (Node i v l r) Hcov)
    as (circles & -> & H5 & H6 & H7 & H8).
  exists lines, circles. split; [|done].
  unfold mbind, M_bind, draw, savefig, print. reflexivity.
Qed.

(** Every document that has a root is drawn to the end: no position lookup
    fails, whatever the ids are, the figure is exported to
    ['syntax_tree.png'], and the only line printed is the confirmation. *)
Theorem draw_tree_renders data :
  is_null (root data) = false →
  (draw_tree data).2 = inr tt
  ∧ SaveFig "syntax_tree.png" ∈ (draw_tree data).1
  ∧ Print "Syntax tree visualization saved as 'syntax_tree.png'"
    ∈ (draw_tree data).1
  ∧ ∀ line,
      Print line ∈ (draw_tree data).1 →
      line = "Syntax tree visualization saved as 'syntax_tree.png'".
Proof.
  intros Hroot.
  destruct (draw_tree_run data Hroot)
    as (lines & circles & -> & _ & _ & _ & _ & _ & _ & Hl & Hc).
  split; [done|]. cbn [fst]. split; [|split].
  - rewrite !elem_of_app. right. right. do 3 right. by left.
  - rewrite !elem_of_app. right. right. do 4 right. by left.
  - intros line. rewrite !elem_of_app.
    intros [Hin|[Hin|Hin]].
    + by destruct (Hl _ Hin).
    + by destruct (Hc _ Hin).
    + repeat (apply elem_of_cons in Hin as [Hin|Hin]; [try done|]).
      * by injection Hin as ->.
      * by apply elem_of_nil in Hin.
Qed.

Lemma draw_tree_renders_witness :
  is_null (root {| root := concat_ab; original_regex := Some "ab";
                   regex_with_concat := Some "a.b"; postfix := Some "ab." |})
  = false
  ∧ SaveFig "syntax_tree.png"
    ∈ (draw_tree {| root := concat_ab; original_regex := Some "ab";
                    regex_with_concat := Some "a.b";
                    postfix := Some "ab." |}).1.
Proof.
  split; [reflexivity|].
  exact (proj1 (proj2 (draw_tree_renders
                         {| root := concat_ab; original_regex := Some "ab";
                            regex_with_concat := Some "a.b";
                            postfix := Some "ab." |} eq_refl))).
Defined.

(** The drawing has one circle and one text for each node of the tree and
    one line for each node but the root. *)
Theorem draw_tree_counts data :
  is_null (root data) = false →
  count_circles (draw_tree data).1 = node_count (root data)
  ∧ count_texts (draw_tree data).1 = node_count (root data)
  ∧ S (count_lines (draw_tree data).1) = node_count (root data).
Proof.
  intros Hroot.
  destruct (draw_tree_run data Hroot)
    as (lines & circles & -> & H1 & H2 & H3 & H4 & H5 & H6 & _ & _).
  cbn [fst].
  rewrite !count_lines_app, !count_circles_app, !count_texts_app.
  rewrite H1, H2, H3, H4, H5, H6.
  change (count_circles [_; _; _; _; _]) with 0.
  change (count_texts [_; _; _; _; _]) with 0.
  change (count_lines [_; _; _; _; _]) with 0.
  destruct (root data); [done|]. cbn [node_count]. lia.
Qed.

Lemma draw_tree_counts_witness :
  is_null (root {| root := concat_ab; original_regex := None;
                   regex_with_concat := None; postfix := None |}) = false
  ∧ count_circles
      (draw_tree {| root := concat_ab; original_regex := None;
                    regex_with_concat := None; postfix := None |}).1 = 3.
Proof.
  split; [reflexivity|].
  exact (proj1 (draw_tree_counts
                  {| root := concat_ab; original_regex := None;
                     regex_with_concat := None; postfix := None |}
                  eq_refl)).
Defined.

(** ** The console tree *)

Lemma len_app (a b : string) : len (a +:+ b) = len a + len b.
Proof.
  induction a as [|c a IH]; [done|].
  change (String c a +:+ b) with (String c (a +:+ b)).
  cbn [len]. rewrite IH. lia.
Qed.

Lemma print_tree_eq i v l r prefix is_tail :
  print_tree (Node i v l r) prefix is_tail =
    (print (prefix +:+ (if is_tail then "└── " else "├── ")
            +:+ display_value v);;
     print_tree l (prefix +:+ (if is_tail then "    " else "│   "))
       (is_null r);;
     print_tree r (prefix +:+ (if is_tail then "    " else "│   ")) true).
Proof.
  cbn [print_tree]. rewrite Bool.negb_involutive. by destruct l, r.
Qed.

Lemma print_tree_ok t prefix is_tail :
  ∃ lines,
    print_tree t prefix is_tail = (Print <$> lines, inr tt)
    ∧ length lines = node_count t.
Proof.
  revert prefix is_tail; induction t as [|i v l IHl r IHr];
    intros prefix is_tail.
  - by exists [].
  - rewrite print_tree_eq.
    destruct (IHl (prefix +:+ (if is_tail then "    " else "│   "))
                (is_null r)) as (ll & -> & Hll).
    destruct (IHr (prefix +:+ (if is_tail then "    " else "│   ")) true)
      as (lr & -> & Hlr).
    exists ((prefix +:+ (if is_tail then "└── " else "├── ")
             +:+ display_value v) :: ll ++ lr).
    split.
    + unfold mbind, M_bind, print. cbn. by rewrite fmap_app.
    + cbn [length node_count]. rewrite length_app. lia.
Qed.

(** [print_tree] prints one line for each node, in preorder; a line is the
    prefix, an indentation of four columns for each level down to the node,
    and the value of the node, with ["(epsilon)"] added to an epsilon. *)
Theorem print_tree_lines t prefix is_tail d :
  ∃ lines,
    print_tree t prefix is_tail = (Print <$> lines, inr tt)
    ∧ Forall2
        (λ line dv,
           ∃ indent,
             line = prefix +:+ indent +:+ display_value dv.2
             ∧ len indent + 4 * d = 4 * S dv.1)
        lines (preorder t d).
Proof.
  revert prefix is_tail d; induction t as [|i v l IHl r IHr];
    intros prefix is_tail d.
  - exists []. split; [done|]. constructor.
  - rewrite print_tree_eq.
    set (extension := if is_tail then "    " else "│   ").
    assert (Hext : len extension = 4) by (by destruct is_tail).
    destruct (IHl (prefix +:+ extension) (is_null r) (S d))
      as (ll & -> & Hll).
    destruct (IHr (prefix +:+ extension) true (S d)) as (lr & -> & Hlr).
    exists ((prefix +:+ (if is_tail then "└── " else "├── ")
             +:+ display_value v) :: ll ++ lr).
    split.
    { unfold mbind, M_bind, print. cbn. by rewrite fmap_app. }
    cbn [preorder]. constructor.
    + exists (if is_tail then "└── " else "├── "). split; [done|].
      assert (Hconn : len (if is_tail then "└── " else "├── ") = 4)
        by (by destruct is_tail).
      rewrite Hconn. cbn [fst]. lia.
    + apply Forall2_app.
      * eapply Forall2_impl; [exact Hll|].
        intros line dv (indent & -> & Hlen).
        exists (extension +:+ indent).
        split; [by rewrite !string_app_assoc|]. rewrite len_app, Hext. lia.
      * eapply Forall2_impl; [exact Hlr|].
        intros line dv (indent & -> & Hlen).
        exists (extension +:+ indent).
        split; [by rewrite !string_app_assoc|]. rewrite len_app, Hext. lia.
Qed.

Lemma print_tree_head i v l r prefix is_tail :
  ∃ rest,
    print_tree (Node i v l r) prefix is_tail =
      (Print <$> (prefix +:+ (if is_tail then "└── " else "├── ")
                  +:+ display_value v) :: rest, inr tt)
    ∧ length rest = node_count l + node_count r.
Proof.
  rewrite print_tree_eq.
  destruct (print_tree_ok l
              (prefix +:+ (if is_tail then "    " else "│   "))
              (is_null r)) as (ll & -> & Hll).
  destruct (print_tree_ok r
              (prefix +:+ (if is_tail then "    " else "│   ")) true)
    as (lr & -> & Hlr).
  exists (ll ++ lr).
  unfold mbind, M_bind, print. cbn.
  rewrite fmap_app. split; [done|]. rewrite length_app. lia.
Qed.

(** The branch marks.  Under a node, the line of the left child comes
    right after the line of the node and carries ["├── "] when there is a
    right child and ["└── "] when there is none; the line of the right
    child comes after the whole left subtree and carries ["└── "].  Both
    are indented by the extension of the node: four blanks under a tail,
    a bar and three blanks otherwise. *)
Theorem print_tree_children i v l r prefix is_tail :
  ∃ lines,
    print_tree (Node i v l r) prefix is_tail = (Print <$> lines, inr tt)
    ∧ lines !! 0%nat
      = Some (prefix +:+ (if is_tail then "└── " else "├── ")
              +:+ display_value v)
    ∧ (∀ li lv ll lr, l = Node li lv ll lr →
         lines !! 1%nat
         = Some ((prefix +:+ (if is_tail then "    " else "│   "))
                 +:+ (if is_null r then "└── " else "├── ")
                 +:+ display_value lv))
    ∧ (∀ ri rv rl rr, r = Node ri rv rl rr →
         lines !! (1 + node_count l)%nat
         = Some ((prefix +:+ (if is_tail then "    " else "│   "))
                 +:+ "└── " +:+ display_value rv)).
Proof.
  rewrite print_tree_eq.
  set (new_prefix := prefix +:+ (if is_tail then "    " else "│   ")).
  destruct (print_tree_ok l new_prefix (is_null r)) as (ll & Hl & Hlen).
  destruct (print_tree_ok r new_prefix true) as (lr & Hr & _).
  exists ((prefix +:+ (if is_tail then "└── " else "├── ")
           +:+ display_value v) :: ll ++ lr).
  split.
  { rewrite Hl, Hr. unfold mbind, M_bind, print. cbn.
    by rewrite fmap_app. }
  split; [done|]. split.
  - intros li lv l1 l2 ->.
    destruct (print_tree_head li lv l1 l2 new_prefix (is_null r))
      as (rest & Hhead & _).
    rewrite Hhead in Hl. destruct ll as [|line ll]; [done|].
    cbn in Hl. by injection Hl as <- _.
  - intros ri rv r1 r2 ->.
    destruct (print_tree_head ri rv r1 r2 new_prefix true)
      as (rest & Hhead & _).
    rewrite Hhead in Hr. destruct lr as [|line lr]; [done|].
    cbn in Hr. injection Hr as <- _.
    change (1 + node_count l)%nat with (S (node_count l)).
    rewrite <- Hlen. rewrite lookup_cons. by apply list_lookup_middle.
Qed.

(** ** The whole tree script *)

(** Once the document is loaded the tree script cannot fail: it ends with
    status 0 whatever the tree is, with repeated ids or not, and it exports
    the figure exactly when the document has a root. *)
Theorem tree_main_completes json_load fs text data :
  fs "syntax_tree.json" = Regular text → utf8_valid text = true →
  json_load text = Some data →
  (main json_load fs).2 = inr tt
  ∧ exit_status (main json_load fs) = 0%Z
  ∧ (SaveFig "syntax_tree.png" ∈ (main json_load fs).1
     ↔ is_null (root data) = false).
Proof.
  intros Hfs Hvalid Hparse.
  pose proof (load_syntax_tree_ok json_load fs "syntax_tree.json" text data
                Hfs Hvalid Hparse) as Hload.
  unfold exit_status, main. rewrite Hload, bind_unit. cbv beta.
  destruct (root data) as [|i v l r] eqn:Hroot.
  - unfold draw_tree. rewrite Hroot.
    unfold mbind, M_bind, mret, M_ret, print. cbn.
    split; [done|]. split; [done|]. split; [|done].
    intros Hin.
    repeat (apply elem_of_cons in Hin as [?|Hin]; [done|]).
    by apply elem_of_nil in Hin.
  - destruct (print_tree_ok (Node i v l r) "" true) as (lines & Hp & _).
    destruct (draw_tree_run data) as (edges & nodes & Hrun & _);
      [by rewrite Hroot|].
    rewrite Hp, Hrun. unfold mbind, M_bind, mret, M_ret, print.
    cbn [fst snd app].
    split; [done|]. split; [done|]. split; [done|]. intros _.
    repeat first [ apply list_elem_of_here | apply list_elem_of_further
                 | apply elem_of_app; right ].
Qed.

Lemma tree_main_completes_witness :
  let doc := {| root := concat_ab; original_regex := Some "ab";
                regex_with_concat := Some "a.b"; postfix := Some "ab." |} in
  (λ _ : string, Regular "{}") "syntax_tree.json" = Regular "{}"
  ∧ utf8_valid "{}" = true
  ∧ (λ _ : string, Some doc) "{}" = Some doc
  ∧ exit_status (main (λ _, Some doc) (λ _, Regular "{}")) = 0%Z
  ∧ SaveFig "syntax_tree.png" ∈ (main (λ _, Some doc) (λ _, Regular "{}")).1.
Proof.
  intros doc.
  destruct (tree_main_completes (λ _, Some doc) (λ _, Regular "{}") "{}" doc
              eq_refl eq_refl eq_refl) as (_ & Hexit & Hsave).
  split; [reflexivity|]. split; [reflexivity|]. split; [reflexivity|].
  split; [exact Hexit|]. by apply Hsave.
Defined.

(** Either the document loads, or the script stops at once with status 1:
    it has printed nothing, or one message, which is an ['Error: ...']
    diagnostic; no line of the report, no draw call and no export.  The
    message is there exactly when the file is missing or is UTF-8 text that
    does not parse. *)
Theorem main_stops_on_load_failure json_load_tree json_load_dfa
    (fs : filesystem) :
  ((∃ text data,
      fs "syntax_tree.json" = Regular text ∧ utf8_valid text = true
      ∧ json_load_tree text = Some data)
   ∨ exit_status (main json_load_tree fs) = 1%Z
     ∧ ((main json_load_tree fs).1 = []
        ∧ fs "syntax_tree.json" ≠ Missing
        ∧ (∀ text, fs "syntax_tree.json" = Regular text →
                   utf8_valid text = false)
        ∨ ∃ message,
            (main json_load_tree fs).1 = [Print message]
            ∧ is_diagnostic message = true
            ∧ (fs "syntax_tree.json" = Missing
               ∨ ∃ text, fs "syntax_tree.json" = Regular text
                         ∧ utf8_valid text = true
                         ∧ json_load_tree text = None)))
  ∧ ((∃ text data,
        fs "dfa.json" = Regular text ∧ utf8_valid text = true
        ∧ json_load_dfa text = Some data)
     ∨ exit_status (Dfa.main json_load_dfa fs) = 1%Z
       ∧ ((Dfa.main json_load_dfa fs).1 = []
          ∧ fs "dfa.json" ≠ Missing
          ∧ (∀ text, fs "dfa.json" = Regular text → utf8_valid text = false)
          ∨ ∃ message,
              (Dfa.main json_load_dfa fs).1 = [Print message]
              ∧ is_diagnostic message = true
              ∧ (fs "dfa.json" = Missing
                 ∨ ∃ text, fs "dfa.json" = Regular text
                           ∧ utf8_valid text = true
                           ∧ json_load_dfa text = None))).
Proof.
  split.
  - unfold main, load_syntax_tree, open, load_json, read.
    destruct (fs "syntax_tree.json") as [| | |text] eqn:Hfs; cbn.
    + right. split; [done|]. right. eexists. split; [done|].
      split; [done|]. by left.
    + right. split; [done|]. left. done.
    + right. split; [done|]. left. done.
    + destruct (utf8_valid text) eqn:Hvalid; cbn.
      * destruct (json_load_tree text) as [data|] eqn:Hparse; cbn.
        -- left. by exists text, data.
        -- right. split; [done|]. right. eexists. split; [done|].
           split; [done|]. right. by exists text.
      * right. split; [done|]. left. split; [done|]. split; [done|].
        intros text' Heq. by injection Heq as <-.
  - unfold Dfa.main, Dfa.load_dfa, open, load_json, read.
    destruct (fs "dfa.json") as [| | |text] eqn:Hfs; cbn.
    + right. split; [done|]. right. eexists. split; [done|].
      split; [done|]. by left.
    + right. split; [done|]. left. done.
    + right. split; [done|]. left. done.
    + destruct (utf8_valid text) eqn:Hvalid; cbn.
      * destruct (json_load_dfa text) as [data|] eqn:Hparse; cbn.
        -- left. by exists text, data.
        -- right. split; [done|]. right. eexists. split; [done|].
           split; [done|]. right. by exists text.
      * right. split; [done|]. left. split; [done|]. split; [done|].
        intros text' Heq. by injection Heq as <-.
Qed.

End TreeScriptFacts.

(** * More on the transition aggregation *)

Module AggregationFacts.
Import Py Dfa StringFacts DfaFacts PipelineFacts.

Lemma bind_mret {D A B : Type} (a : A) (f : A → M D B) : mret a ≫= f = f a.
Proof. apply bind_unit. Qed.

(** A transition that has been seen before changes nothing. *)
Lemma add_transition_seen ts G edge_labels t :
  graph_inv ts G edge_labels → labels_inv ts edge_labels →
  separator_free ts → t ∈ ts →
  add_transition (D:=directive) (G, edge_labels) t
  = ([], inr (G, edge_labels)).
Proof.
  intros Hinv Hlab Hsep Ht. unfold add_transition, has_edge.
  fold (pair_of t).
  assert (Hp : pair_of t ∈ pair_of <$> ts).
  { apply list_elem_of_fmap. eauto. }
  rewrite bool_decide_eq_true_2 by (by apply (inv_adj_pairs _ _ _ Hinv)).
  unfold getitem. rewrite (Hlab _ Hp). cbv beta iota. rewrite bind_mret.
  unfold spec_label. rewrite split_join.
  - rewrite bool_decide_eq_true_2; [done|].
    apply first_seen_elem, symbols_for_elem. eauto.
  - by apply first_seen_nonempty, symbols_for_nonempty.
  - by apply symbols_separator_free.
Qed.

Lemma refeed ts G edge_labels ts' :
  graph_inv ts G edge_labels → labels_inv ts edge_labels →
  separator_free ts → (∀ t, t ∈ ts' → t ∈ ts) →
  foldM (D:=directive) add_transition ts' (G, edge_labels)
  = ([], inr (G, edge_labels)).
Proof.
  intros Hinv Hlab Hsep. induction ts' as [|t ts' IH]; intros Hsub; [done|].
  cbn [foldM]. rewrite (add_transition_seen ts) by (done || apply Hsub; by left).
  rewrite bind_unit. apply IH. intros t' Ht'. apply Hsub. by right.
Qed.

(** Merging is idempotent: when no symbol contains the separator, feeding
    again transitions that have already been fed leaves the graph and every
    label as they are. *)
Theorem aggregation_idempotent states ts ts' :
  separator_free ts → (∀ t, t ∈ ts' → t ∈ ts) →
  build_graph (D:=directive) states (ts ++ ts')
  = build_graph (D:=directive) states ts.
Proof.
  intros Hsep Hsub.
  destruct (build_graph_inv (D:=directive) states ts)
    as (G & edge_labels & Hrun & Hinv & _ & Hlab).
  rewrite Hrun. unfold build_graph in Hrun |- *.
  rewrite foldM_app, Hrun, bind_unit. by apply (refeed ts); [| apply Hlab | |].
Qed.

Lemma aggregation_idempotent_witness :
  separator_free a_b_a ∧ (∀ t, t ∈ a_b_a → t ∈ a_b_a)
  ∧ build_graph (D:=directive) [] (a_b_a ++ a_b_a)
    = build_graph (D:=directive) [] a_b_a.
Proof.
  assert (Hsep : separator_free a_b_a) by repeat constructor.
  assert (Hsub : ∀ t, t ∈ a_b_a → t ∈ a_b_a) by (intros t Ht; exact Ht).
  split; [exact Hsep|]. split; [exact Hsub|].
  exact (aggregation_idempotent [] a_b_a a_b_a Hsep Hsub).
Defined.

(** Merging does not depend on the order of the transitions, up to the
    order inside a label: when no symbol contains the separator, two
    orderings of the same transitions give the same merged edges, and for
    each edge labels with the same tokens. *)
Theorem aggregation_order_independent states ts1 ts2 :
  ts1 ≡ₚ ts2 → separator_free ts1 →
  ∃ G1 labels1 G2 labels2,
    build_graph (D:=directive) states ts1 = ([], inr (G1, labels1))
    ∧ build_graph (D:=directive) states ts2 = ([], inr (G2, labels2))
    ∧ edges G1 ≡ₚ edges G2
    ∧ ∀ e,
        match labels1 !! e, labels2 !! e with
        | Some label1, Some label2 =>
            split_comma_space label1 ≡ₚ split_comma_space label2
        | None, None => True
        | _, _ => False
        end.
Proof.
  intros Hperm Hsep1.
  assert (Hsep2 : separator_free ts2).
  { unfold separator_free in *. by rewrite <- Hperm. }
  destruct (build_graph_inv (D:=directive) states ts1)
    as (G1 & labels1 & Hrun1 & Hinv1 & _ & Hlab1).
  destruct (build_graph_inv (D:=directive) states ts2)
    as (G2 & labels2 & Hrun2 & Hinv2 & _ & Hlab2).
  specialize (Hlab1 Hsep1). specialize (Hlab2 Hsep2).
  exists G1, labels1, G2, labels2. split; [done|]. split; [done|].
  assert (Hpairs : ∀ e, e ∈ pair_of <$> ts1 ↔ e ∈ pair_of <$> ts2).
  { intros e. by rewrite Hperm. }
  split.
  - rewrite (edges_Permutation _ _ _ Hinv1), (edges_Permutation _ _ _ Hinv2).
    apply NoDup_Permutation.
    + apply (inv_adj_NoDup _ _ _ Hinv1).
    + apply (inv_adj_NoDup _ _ _ Hinv2).
    + intros e. rewrite (inv_adj_pairs _ _ _ Hinv1),
        (inv_adj_pairs _ _ _ Hinv2). apply Hpairs.
  - intros e. destruct (decide (e ∈ pair_of <$> ts1)) as [He|He].
    + rewrite (Hlab1 e He), (Hlab2 e (proj1 (Hpairs e) He)).
      unfold spec_label. rewrite !split_join.
      * apply NoDup_Permutation; [apply first_seen_NoDup ..|].
        intros s. rewrite !first_seen_elem. unfold symbols_for.
        by rewrite Hperm.
      * by apply first_seen_nonempty, symbols_for_nonempty, Hpairs.
      * by apply symbols_separator_free.
      * by apply first_seen_nonempty, symbols_for_nonempty.
      * by apply symbols_separator_free.
    + assert (H1 : labels1 !! e = None).
      { apply eq_None_not_Some. intros Hs.
        by apply (inv_labels_dom _ _ _ Hinv1), (inv_adj_pairs _ _ _ Hinv1)
          in Hs. }
      assert (H2 : labels2 !! e = None).
      { apply eq_None_not_Some. intros Hs.
        apply (inv_labels_dom _ _ _ Hinv2), (inv_adj_pairs _ _ _ Hinv2)
          in Hs. by apply He, Hpairs. }
      by rewrite H1, H2.
Qed.

Lemma aggregation_order_independent_witness :
  a_b_a ≡ₚ reverse a_b_a ∧ separator_free a_b_a
  ∧ ∃ G1 labels1 G2 labels2,
      build_graph (D:=directive) [] a_b_a = ([], inr (G1, labels1))
      ∧ build_graph (D:=directive) [] (reverse a_b_a)
        = ([], inr (G2, labels2))
      ∧ edges G1 ≡ₚ edges G2.
Proof.
  assert (Hperm : a_b_a ≡ₚ reverse a_b_a)
    by (symmetry; apply reverse_Permutation).
  assert (Hsep : separator_free a_b_a) by repeat constructor.
  split; [exact Hperm|]. split; [exact Hsep|].
  destruct (aggregation_order_independent [] a_b_a (reverse a_b_a) Hperm Hsep)
    as (G1 & l1 & G2 & l2 & H1 & H2 & H3 & _).
  by exists G1, l1, G2, l2.
Defined.

(** ** What holds of the labels for every document *)

Lemma head_snoc_nonempty {A : Type} (l : list A) (x : A) :
  l ≠ [] → head (l ++ [x]) = head l.
Proof. by destruct l. Qed.

Lemma add_transition_sound ts G edge_labels t G' edge_labels' :
  graph_inv ts G edge_labels → labels_sound ts edge_labels →
  add_transition (D:=directive) (G, edge_labels) t
  = ([], inr (G', edge_labels')) →
  labels_sound (ts ++ [t]) edge_labels'.
Proof.
  intros Hinv Hsound. unfold add_transition, has_edge. fold (pair_of t).
  assert (Hsplit : ∀ e, e ∈ pair_of <$> ts ++ [t] →
            e = pair_of t ∨ (e ≠ pair_of t ∧ e ∈ pair_of <$> ts)).
  { intros e. rewrite fmap_app, elem_of_app. cbn.
    rewrite list_elem_of_singleton.
    destruct (decide (e = pair_of t)); [by left|]. intros [?|?]; [|done].
    by right. }
  assert (Hother : ∀ e, e ≠ pair_of t →
            symbols_for e (ts ++ [t]) = symbols_for e ts).
  { intros e He. rewrite symbols_for_snoc. by rewrite decide_False. }
  assert (Hsame : symbols_for (pair_of t) (ts ++ [t])
                  = symbols_for (pair_of t) ts ++ [symbol t]).
  { rewrite symbols_for_snoc. by rewrite decide_True. }
  case_bool_decide as He.
  - apply (inv_adj_pairs _ _ _ Hinv) in He.
    destruct (Hsound _ He) as (kept & Hl & Hsub & Hhead & Hne).
    unfold getitem. rewrite Hl. cbv beta iota. rewrite bind_mret.
    case_bool_decide as Hsym; intros [= <- <-]; intros e He'.
    + destruct (Hsplit e He') as [->|[Hne' Hin]].
      * exists kept. split; [done|]. rewrite Hsame.
        split; [by apply sublist_inserts_r|]. split; [|done].
        rewrite head_snoc_nonempty; [done|by apply symbols_for_nonempty].
      * rewrite Hother by done. by apply Hsound.
    + destruct (Hsplit e He') as [->|[Hne' Hin]].
      * exists (kept ++ [symbol t]). rewrite lookup_insert_eq.
        split; [by rewrite join_snoc|]. rewrite Hsame.
        split; [by apply sublist_app|]. split; [|by destruct kept].
        rewrite !head_snoc_nonempty; [done| by apply symbols_for_nonempty
                                     | done].
      * rewrite lookup_insert_ne, Hother by done. by apply Hsound.
  - intros [= <- <-]. intros e He'.
    rewrite (inv_adj_pairs _ _ _ Hinv) in He.
    destruct (Hsplit e He') as [->|[Hne' Hin]].
    + exists [symbol t]. rewrite lookup_insert_eq, Hsame.
      rewrite (symbols_for_nil _ _ He). done.
    + rewrite lookup_insert_ne, Hother by done. by apply Hsound.
Qed.

(** For every document, with or without separators in the symbols, the
    loop succeeds and the label of every merged edge is the join of some of
    the symbols of its pair, in document order and beginning with the first
    one: the loop may drop a symbol but never invents or reorders one. *)
Theorem labels_always_sound states ts :
  ∃ G edge_labels,
    build_graph (D:=directive) states ts = ([], inr (G, edge_labels))
    ∧ labels_sound ts edge_labels.
Proof.
  unfold build_graph.
  cut (∃ G edge_labels,
         foldM (D:=directive) add_transition ts (add_states states, ∅)
         = ([], inr (G, edge_labels))
         ∧ graph_inv ts G edge_labels ∧ labels_sound ts edge_labels).
  { intros (G & edge_labels & ? & _ & ?). by exists G, edge_labels. }
  induction ts as [|t ts IH] using rev_ind.
  - exists (add_states states), ∅. split; [done|].
    split; [apply add_states_inv|]. by intros e ?%elem_of_nil.
  - destruct IH as (G & edge_labels & Hrun & Hinv & Hsound).
    destruct (add_transition_inv (D:=directive) ts G edge_labels t Hinv)
      as (G' & edge_labels' & Hstep & Hinv' & _).
    exists G', edge_labels'. split; [|split; [done|]].
    + rewrite foldM_app, Hrun, bind_unit. cbn [foldM].
      by rewrite Hstep, bind_unit.
    + by eapply add_transition_sound.
Qed.

End AggregationFacts.

(** * More on the report *)

Module ReportFacts.
Import Py Dfa StringFacts DfaFacts PipelineFacts.

Lemma string_compare_refl (s : string) : String.compare s s = Eq.
Proof.
  pose proof (String.compare_antisym s s) as H.
  by destruct (String.compare s s).
Qed.

Lemma string_compare_Lt_trans (s1 s2 s3 : string) :
  String.compare s1 s2 = Lt → String.compare s2 s3 = Lt →
  String.compare s1 s3 = Lt.
Proof.
  intros H12 H23.
  assert (Hle : String.le s1 s3).
  { transitivity s2; unfold String.le, String.leb; by rewrite ?H12, ?H23. }
  unfold String.le, String.leb in Hle.
  destruct (String.compare s1 s3) eqn:H13; [|done|done].
  apply String.compare_eq_iff in H13 as ->.
  rewrite String.compare_antisym, H12 in H23. done.
Qed.

Lemma key_le_total t1 t2 : key_le t1 t2 = false → key_le t2 t1 = true.
Proof.
  unfold key_le. rewrite (Z.compare_antisym (from t1) (from t2)).
  rewrite (String.compare_antisym (symbol t2) (symbol t1)).
  destruct (from t1 ?= from t2)%Z; cbn; try done.
  destruct (String.compare (symbol t1) (symbol t2)); cbn; try done.
  intros H. apply Z.leb_gt in H. apply Z.leb_le. lia.
Qed.

Lemma key_le_trans t1 t2 t3 :
  key_le t1 t2 = true → key_le t2 t3 = true → key_le t1 t3 = true.
Proof.
  unfold key_le.
  destruct (Z.compare_spec (from t1) (from t2)) as [E12|L12|G12];
    [|intros _|done].
  - rewrite E12.
    destruct (Z.compare_spec (from t2) (from t3)) as [E23|L23|G23];
      [|done|done].
    destruct (String.compare (symbol t1) (symbol t2)) eqn:S12; [| |done].
    + apply String.compare_eq_iff in S12. rewrite S12.
      destruct (String.compare (symbol t2) (symbol t3)); [|done|done].
      intros H1%Z.leb_le H2%Z.leb_le. apply Z.leb_le. lia.
    + destruct (String.compare (symbol t2) (symbol t3)) eqn:S23; [| |done].
      * apply String.compare_eq_iff in S23. by rewrite <- S23, S12.
      * by rewrite (string_compare_Lt_trans _ _ _ S12 S23).
  - destruct (Z.compare_spec (from t2) (from t3)) as [E23|L23|G23];
      [| |done]; intros _.
    + rewrite <- E23. by rewrite (proj2 (Z.compare_lt_iff _ _) L12).
    + assert (L13 : (from t1 < from t3)%Z) by lia.
      by rewrite (proj2 (Z.compare_lt_iff _ _) L13).
Qed.

Lemma insert_sorted_Permutation t l : insert_sorted t l ≡ₚ t :: l.
Proof.
  induction l as [|t' l IH]; [done|]. cbn [insert_sorted].
  destruct (key_le t t'); [done|]. rewrite IH. apply Permutation_swap.
Qed.

Lemma insert_sorted_StronglySorted t l :
  StronglySorted (λ a b, key_le a b = true) l →
  StronglySorted (λ a b, key_le a b = true) (insert_sorted t l).
Proof.
  induction 1 as [|t' l Hl IH Hall]; cbn [insert_sorted].
  - repeat constructor.
  - destruct (key_le t t') eqn:Hle.
    + constructor; [by constructor|]. constructor; [done|].
      eapply Forall_impl; [exact Hall|]. intros c Hc.
      by eapply key_le_trans.
    + constructor; [done|]. rewrite insert_sorted_Permutation.
      constructor; [by apply key_le_total|done].
Qed.

Lemma sorted_Permutation l : sorted l ≡ₚ l.
Proof.
  induction l as [|t l IH]; [done|]. unfold sorted in *. cbn [foldr].
  by rewrite insert_sorted_Permutation, IH.
Qed.

Lemma sorted_StronglySorted l :
  StronglySorted (λ a b, key_le a b = true) (sorted l).
Proof.
  induction l as [|t l IH]; [constructor|]. unfold sorted in *.
  cbn [foldr]. by apply insert_sorted_StronglySorted.
Qed.

(** The transition table of the report: after the twelve prints of summary
    and heading, one row for each original transition, merged or not, in
    non-decreasing order of the key (from, symbol, to). *)
Theorem transition_table_sorted json_load fs text data :
  fs "dfa.json" = Regular text → utf8_valid text = true →
  json_load text = Some data →
  ∃ heading rows rest,
    (main json_load fs).1
    = (Print <$> heading) ++ (Print <$> (table_row <$> rows)) ++ rest
    ∧ length heading = 12
    ∧ rows ≡ₚ transitions data
    ∧ StronglySorted (λ a b, key_le a b = true) rows.
Proof.
  intros Hfs Hvalid Hparse.
  rewrite (main_loaded json_load fs text data Hfs Hvalid Hparse). cbn [fst].
  unfold report_lines. rewrite !fmap_app, <- !app_assoc.
  eexists _, (sorted (transitions data)), _. split; [reflexivity|].
  split; [done|]. split; [apply sorted_Permutation|].
  apply sorted_StronglySorted.
Qed.

Lemma transition_table_sorted_witness :
  (λ _ : string, Regular "{}") "dfa.json" = Regular "{}"
  ∧ utf8_valid "{}" = true
  ∧ (λ _ : string, Some dangling) "{}" = Some dangling
  ∧ ∃ heading rows rest,
      (main (λ _, Some dangling) (λ _, Regular "{}")).1
      = (Print <$> heading) ++ (Print <$> (table_row <$> rows)) ++ rest
      ∧ length heading = 12
      ∧ rows ≡ₚ transitions dangling.
Proof.
  split; [reflexivity|]. split; [reflexivity|]. split; [reflexivity|].
  destruct (transition_table_sorted (λ _, Some dangling) (λ _, Regular "{}")
              "{}" dangling eq_refl eq_refl eq_refl)
    as (heading & rows & rest & H1 & H2 & H3 & _).
  by exists heading, rows, rest.
Defined.

Lemma len_repeat_blank n : len (repeat_string " " n) = n.
Proof.
  induction n as [|n IH]; [done|]. cbn [repeat_string].
  rewrite TreeScriptFacts.len_app, IH. done.
Qed.

Lemma len_ljust width s : len (ljust width s) = Nat.max width (len s).
Proof.
  unfold ljust. rewrite TreeScriptFacts.len_app, len_repeat_blank. lia.
Qed.

(** The table has fixed-width columns: a row is 8 + 1 + 10 + 1 + 8 = 28
    characters wide, and wider only by what a field exceeds its column
    (characters counted as Python's [len] counts them). *)
Theorem table_row_width trans :
  len (table_row trans)
  = Nat.max 8 (len (str (from trans))) + 1
    + Nat.max 10 (len (symbol trans)) + 1
    + Nat.max 8 (len (str (to trans))).
Proof.
  unfold table_row.
  rewrite !TreeScriptFacts.len_app, !len_ljust.
  change (len " ") with 1. lia.
Qed.

End ReportFacts.

(** * More on the rendering of a DFA *)

Module RenderFacts.
Import Py Dfa StringFacts DfaFacts PipelineFacts.

Section Runs.
Context {D : Type}.

(** The events of a loop are events of its rounds, whether it ends
    normally or not. *)
Lemma for_each_events {A : Type} (l : list A) (f : A → M D unit) ev :
  ev ∈ (for_each l f).1 → ∃ a, a ∈ l ∧ ev ∈ (f a).1.
Proof.
  induction l as [|a l IH]; cbn [for_each].
  - by intros ?%elem_of_nil.
  - rewrite bind_output. intros [Hev|Hev]%elem_of_app.
    + exists a. split; [by left|done].
    + destruct (f a).2; [by apply elem_of_nil in Hev|].
      destruct (IH Hev) as (b & ? & ?). exists b. split; [by right|done].
Qed.

(** A loop in which some round raises [e], and no round raises anything
    else, raises [e]. *)
Lemma for_each_raises {A : Type} (l : list A) (f : A → M D unit) e :
  (∀ a, a ∈ l → (f a).2 = inr tt ∨ (f a).2 = inl e) →
  (∃ a, a ∈ l ∧ (f a).2 = inl e) →
  (for_each l f).2 = inl e.
Proof.
  induction l as [|a l IH]; intros Hall (b & Hb & Hraise).
  - by apply elem_of_nil in Hb.
  - cbn [for_each]. rewrite bind_result.
    destruct (Hall a) as [Ha|Ha]; [by left| |by rewrite Ha].
    rewrite Ha. apply IH.
    + intros c Hc. apply Hall. by right.
    + apply elem_of_cons in Hb as [->|Hb]; [congruence|]. eauto.
Qed.
End Runs.

(** ** The nodes of the graph *)

(** With unique ids the loop over the states makes one node for each state,
    in document order, with its flag. *)
Lemma add_states_unique states :
  NoDup (id <$> states) →
  nodes (add_states states) = (λ s, (id s, Some (accepting s))) <$> states.
Proof.
  unfold add_states. induction states as [|s states IH] using rev_ind;
    intros Hnd; [done|].
  rewrite fmap_app in Hnd. apply NoDup_app in Hnd as (Hnd & Hfresh & _).
  rewrite fold_left_app. cbn [fold_left]. specialize (IH Hnd).
  set (G := fold_left _ states empty_graph) in *.
  unfold add_node, has_node. rewrite IH. rewrite bool_decide_eq_false_2.
  - cbn. by rewrite fmap_app.
  - rewrite <- list_fmap_compose. intros Hin.
    apply (Hfresh (id s)); [done|]. cbn. by left.
Qed.

Lemma NoDup_fst_unique {A B : Type} (l : list (A * B)) x y1 y2 :
  NoDup l.*1 → (x, y1) ∈ l → (x, y2) ∈ l → y1 = y2.
Proof.
  intros Hnd [i Hi]%list_elem_of_lookup [j Hj]%list_elem_of_lookup.
  assert (i = j) as ->.
  { apply (NoDup_lookup _ _ _ x Hnd); rewrite list_lookup_fmap.
    - by rewrite Hi.
    - by rewrite Hj. }
  congruence.
Qed.

(** [G.nodes[n]['accepting']] reads the attribute of the one node [n]. *)
Lemma node_accepting_lookup {D : Type} G n a :
  NoDup (nodes G).*1 → (n, a) ∈ nodes G →
  node_accepting (D:=D) G n
  = match a with
    | Some flag => ([], inr flag)
    | None => ([], inl (KeyError "accepting"))
    end.
Proof.
  intros Hnd Hin. unfold node_accepting.
  destruct (list_find_elem_of (λ na, na.1 = n) (nodes G) (n, a) Hin eq_refl)
    as [[i [m b]] Hfind].
  rewrite Hfind. apply list_find_Some in Hfind as (Hi & Hm & _).
  cbn in Hm. subst m. apply list_elem_of_lookup_2 in Hi.
  rewrite (NoDup_fst_unique _ _ _ _ Hnd Hin Hi). by destruct b.
Qed.

Lemma ensure_node_nodes G n :
  ∃ extra,
    nodes (ensure_node G n) = nodes G ++ extra
    ∧ Forall (λ na, na.2 = None) extra.
Proof.
  unfold ensure_node. destruct (has_node G n).
  - exists []. by rewrite app_nil_r.
  - exists [(n, None)]. split; [done|]. by repeat constructor.
Qed.

Lemma add_edge_nodes G u v :
  nodes (add_edge G u v) = nodes (ensure_node (ensure_node G u) v).
Proof. unfold add_edge. by destruct (has_edge _ u v). Qed.

(** One round of the loop either finds the edge and leaves the graph as it
    is, or adds the edge and, without attributes, the endpoints that are
    not nodes yet. *)
Lemma add_transition_nodes G edge_labels t G' edge_labels' :
  add_transition (D:=directive) (G, edge_labels) t
  = ([], inr (G', edge_labels')) →
  (pair_of t ∈ adj G ∧ G' = G)
  ∨ ((pair_of t ∉ adj G)
     ∧ (∃ extra,
          nodes G' = nodes G ++ extra
          ∧ Forall (λ na, na.2 = None) extra
          ∧ from t ∈ (nodes G').*1 ∧ to t ∈ (nodes G').*1)).
Proof.
  unfold add_transition, has_edge. fold (pair_of t).
  case_bool_decide as He.
  - unfold getitem. destruct (edge_labels !! pair_of t); [|done].
    cbv beta iota. rewrite AggregationFacts.bind_mret.
    case_bool_decide; intros [= <- _]; by left.
  - intros [= <- _]. right. split; [done|].
    destruct (ensure_node_nodes G (from t)) as (x1 & H1 & F1).
    destruct (ensure_node_nodes (ensure_node G (from t)) (to t))
      as (x2 & H2 & F2).
    exists (x1 ++ x2). rewrite add_edge_nodes.
    split; [by rewrite H2, H1, app_assoc|].
    split; [by apply Forall_app|]. split.
    + apply ensure_node_mono, ensure_node_elem.
    + apply ensure_node_elem.
Qed.

(** After the loop, the nodes are those of the states followed by the
    endpoints that no state declares, and these carry no attribute. *)
Lemma build_graph_nodes states ts :
  ∃ G edge_labels extra,
    build_graph (D:=directive) states ts = ([], inr (G, edge_labels))
    ∧ graph_inv ts G edge_labels
    ∧ nodes G = nodes (add_states states) ++ extra
    ∧ Forall (λ na, na.2 = None) extra
    ∧ ∀ t, t ∈ ts → from t ∈ (nodes G).*1 ∧ to t ∈ (nodes G).*1.
Proof.
  unfold build_graph. induction ts as [|t ts IH] using rev_ind.
  - exists (add_states states), ∅, []. split; [done|].
    split; [apply add_states_inv|]. split; [by rewrite app_nil_r|].
    split; [constructor|]. by intros t ?%elem_of_nil.
  - destruct IH as (G & edge_labels & extra & Hrun & Hinv & Hn & Hx & Hts).
    destruct (add_transition_inv (D:=directive) ts G edge_labels t Hinv)
      as (G' & edge_labels' & Hstep & Hinv' & _).
    destruct (add_transition_nodes _ _ _ _ _ Hstep)
      as [[He ->]|(He & extra' & Hn' & Hx' & Hf & Ht)].
    + exists G, edge_labels', extra. split.
      { rewrite foldM_app, Hrun, bind_unit. cbn [foldM].
        by rewrite Hstep, bind_unit. }
      split; [done|]. split; [done|]. split; [done|].
      intros t' [Hin| ->%list_elem_of_singleton]%elem_of_app; [by apply Hts|].
      apply (inv_adj_pairs _ _ _ Hinv) in He.
      apply list_elem_of_fmap in He as (t0 & Heq & Hin).
      injection Heq as -> ->. by apply Hts.
    + exists G', edge_labels', (extra ++ extra'). split.
      { rewrite foldM_app, Hrun, bind_unit. cbn [foldM].
        by rewrite Hstep, bind_unit. }
      split; [done|]. split; [by rewrite Hn', Hn, app_assoc|].
      split; [by apply Forall_app|].
      intros t' [Hin| ->%list_elem_of_singleton]%elem_of_app; [|done].
      destruct (Hts t' Hin) as [H1 H2].
      rewrite Hn', fmap_app, !elem_of_app. auto.
Qed.

(** ** The run of [draw_dfa] *)

Lemma draw_edge_eq edge_labels u v label :
  edge_labels !! (u, v) = Some label →
  draw_edge edge_labels (u, v)
  = (if bool_decide (u = v)
     then [Draw (LoopCircle u); Draw (LoopLabel u label)]
     else [Draw (EdgeArrow u v); Draw (EdgeLabel u v label)],
     inr tt).
Proof.
  intros Hl. unfold draw_edge, getitem. rewrite Hl. by case_bool_decide.
Qed.

Lemma draw_node_eq G start_state_id n flag :
  node_accepting (D:=directive) G n = ([], inr flag) →
  draw_node G start_state_id n
  = (let is_start := bool_decide (Some n = start_state_id) in
     let '(node_color, edge_color) := node_style is_start flag in
     (if flag then [Draw (OuterCircle n edge_color)] else [])
     ++ [Draw (MainCircle n node_color edge_color);
         Draw (NodeLabel n (str n))]
     ++ (if is_start
         then [Draw (StartArrow n edge_color); Draw (StartText n)]
         else []),
     inr tt).
Proof.
  intros Hacc. unfold draw_node. rewrite Hacc.
  by destruct (bool_decide (Some n = start_state_id)), flag.
Qed.

Lemma draw_node_missing G start_state_id n :
  node_accepting (D:=directive) G n = ([], inl (KeyError "accepting")) →
  draw_node G start_state_id n = ([], inl (KeyError "accepting")).
Proof. intros Hacc. unfold draw_node. by rewrite Hacc. Qed.

(** [draw_dfa] on a document that has states: the loop over the edges,
    then the loop over the nodes and, if that one returns, the rest. *)
Lemma draw_dfa_run data G edge_labels :
  states data ≠ [] →
  build_graph (D:=directive) (states data) (transitions data)
  = ([], inr (G, edge_labels)) →
  (∀ e, e ∈ edges G → is_Some (edge_labels !! e)) →
  let edge_loop := for_each (edges G) (draw_edge edge_labels) in
  let node_loop := for_each (nodes G).*1 (draw_node G (start_state data)) in
  edge_loop.2 = inr tt
  ∧ (draw_dfa data).2
    = match node_loop.2 with inr _ => inr tt | inl e => inl e end
  ∧ (draw_dfa data).1
    = edge_loop.1 ++ node_loop.1
      ++ match node_loop.2 with
         | inr _ => closing_events data
         | inl _ => []
         end.
Proof.
  intros Hne Hrun Hlab edge_loop node_loop. subst edge_loop node_loop.
  destruct (for_each_ok (edges G) (draw_edge edge_labels)) as [He _].
  { intros e He. by apply draw_edge_events, Hlab. }
  split; [done|]. unfold draw_dfa.
  destruct (states data) as [|s ss] eqn:Hstates; [done|].
  cbv iota. rewrite Hrun, bind_unit. rewrite <- Hstates.
  rewrite !bind_result, !bind_output. rewrite He.
  destruct (for_each (nodes G).*1 (draw_node G (start_state data))).2
    as [e|[]]; [done|].
  unfold draw, savefig, print. cbn [fst snd app]. done.
Qed.

(** What a round of the node loop draws. *)
Lemma draw_node_events_iff G start_state_id n flag ev :
  node_accepting (D:=directive) G n = ([], inr flag) →
  let is_start := bool_decide (Some n = start_state_id) in
  let style := node_style is_start flag in
  ev ∈ (draw_node G start_state_id n).1 ↔
    (flag = true ∧ ev = Draw (OuterCircle n style.2))
    ∨ ev = Draw (MainCircle n style.1 style.2)
    ∨ ev = Draw (NodeLabel n (str n))
    ∨ (is_start = true
       ∧ (ev = Draw (StartArrow n style.2) ∨ ev = Draw (StartText n))).
Proof.
  intros Hacc is_start style. subst is_start style.
  rewrite (draw_node_eq _ _ _ _ Hacc). cbn [fst].
  destruct (bool_decide (Some n = start_state_id)), flag; cbn;
    rewrite ?elem_of_cons, ?elem_of_nil; intuition congruence.
Qed.

Lemma node_accepting_cases G n :
  (∃ flag, node_accepting (D:=directive) G n = ([], inr flag))
  ∨ node_accepting (D:=directive) G n = ([], inl (KeyError "accepting")).
Proof.
  unfold node_accepting.
  destruct (list_find _ _) as [[? [? [?|]]]|]; eauto.
Qed.

Lemma node_loop_events G start_state_id ev :
  ev ∈ (for_each (nodes G).*1 (draw_node G start_state_id)).1 →
  is_node_event ev = true ∧ is_edge_event ev = false.
Proof.
  intros (n & _ & Hev)%for_each_events.
  destruct (node_accepting_cases G n) as [[flag Hacc]|Hacc].
  - apply (draw_node_events_iff _ _ _ _ _ Hacc) in Hev.
    destruct Hev as [[_ ->]|[->|[->|[_ [->| ->]]]]]; done.
  - rewrite (draw_node_missing _ _ _ Hacc) in Hev.
    by apply elem_of_nil in Hev.
Qed.

Lemma edge_loop_events G edge_labels ev :
  (∀ e, e ∈ edges G → is_Some (edge_labels !! e)) →
  ev ∈ (for_each (edges G) (draw_edge edge_labels)).1 →
  is_edge_event ev = true ∧ is_node_event ev = false.
Proof.
  intros Hlab ([u v] & He & Hev)%for_each_events.
  destruct (Hlab _ He) as [label Hl].
  rewrite (draw_edge_eq _ _ _ _ Hl) in Hev. cbn [fst] in Hev.
  case_bool_decide;
    repeat (apply elem_of_cons in Hev as [->|Hev]; [done|]);
    by apply elem_of_nil in Hev.
Qed.

Lemma closing_events_kinds data ev :
  ev ∈ closing_events data →
  is_edge_event ev = false ∧ is_node_event ev = false.
Proof.
  unfold closing_events. intros Hev.
  repeat (apply elem_of_cons in Hev as [->|Hev]; [done|]).
  by apply elem_of_nil in Hev.
Qed.

(** ** Undeclared endpoints *)

Lemma undeclared_node_raises states ts G edge_labels extra n :
  graph_inv ts G edge_labels →
  nodes G = nodes (add_states states) ++ extra →
  Forall (λ na, na.2 = None) extra →
  n ∈ (nodes G).*1 → n ∉ id <$> states →
  node_accepting (D:=directive) G n = ([], inl (KeyError "accepting")).
Proof.
  intros Hinv Hn Hx Hin Hundeclared.
  assert (Hextra : (n, None) ∈ extra).
  { rewrite Hn, fmap_app in Hin. apply elem_of_app in Hin as [Hin|Hin].
    - by apply add_states_spec in Hin.
    - apply list_elem_of_fmap in Hin as ([m a] & -> & Hin).
      rewrite Forall_forall in Hx. pose proof (Hx _ Hin) as Ha.
      cbn in Ha. by subst a. }
  rewrite (node_accepting_lookup G n None); [done| |].
  - apply (inv_nodes_NoDup _ _ _ Hinv).
  - rewrite Hn. apply elem_of_app. by right.
Qed.

(** [draw_dfa] on a document that has states returns normally exactly
    when every transition goes between declared states.  Otherwise it
    raises [KeyError] on the ['accepting'] attribute of a node that only an
    edge has created, after the edges have been drawn and before anything
    is exported or printed. *)
Theorem draw_dfa_completes_iff data :
  states data ≠ [] →
  ((draw_dfa data).2 = inr tt
   ↔ references_declared (states data) (transitions data))
  ∧ (¬ references_declared (states data) (transitions data) →
     (draw_dfa data).2 = inl (KeyError "accepting")
     ∧ ∀ ev, ev ∈ (draw_dfa data).1 → ∃ d, ev = Draw d).
Proof.
  intros Hne.
  assert (Hfail : ¬ references_declared (states data) (transitions data) →
            (draw_dfa data).2 = inl (KeyError "accepting")
            ∧ ∀ ev, ev ∈ (draw_dfa data).1 → ∃ d, ev = Draw d).
  { intros Hrefs. unfold references_declared in Hrefs.
    apply not_Forall_Exists in Hrefs; [|intros t; apply _].
    apply Exists_exists in Hrefs as (t & Ht & Hbad). cbn in Hbad.
    destruct (build_graph_nodes (states data) (transitions data))
      as (G & edge_labels & extra & Hrun & Hinv & Hn & Hx & Hts).
    assert (Hlab : ∀ e, e ∈ edges G → is_Some (edge_labels !! e)).
    { intros e [He _]%elem_of_edges. by apply (inv_labels_dom _ _ _ Hinv). }
    destruct (draw_dfa_run data G edge_labels Hne Hrun Hlab)
      as (He & Hres & Hout).
    assert (Hraise : (for_each (nodes G).*1
                        (draw_node G (start_state data))).2
                     = inl (KeyError "accepting")).
    { apply for_each_raises.
      - intros m _. destruct (node_accepting_cases G m) as [[flag Ha]|Ha].
        + left. by rewrite (draw_node_eq _ _ _ _ Ha).
        + right. by rewrite (draw_node_missing _ _ _ Ha).
      - destruct (Hts t Ht) as [Hf Hto].
        destruct (decide (from t ∈ id <$> states data)) as [Hdecl|Hundecl].
        + exists (to t). split; [done|].
          rewrite (draw_node_missing G _ (to t)); [done|].
          eapply undeclared_node_raises; eauto.
        + exists (from t). split; [done|].
          rewrite (draw_node_missing G _ (from t)); [done|].
          eapply undeclared_node_raises; eauto. }
    rewrite Hres, Hout, Hraise. split; [done|].
    intros ev [Hev|[Hev|Hev]%elem_of_app]%elem_of_app.
    - apply (edge_loop_events _ _ _ Hlab) in Hev as [Hev _].
      destruct ev as [?|d|?]; [done|by exists d|done].
    - apply node_loop_events in Hev as [Hev _].
      destruct ev as [?|d|?]; [done|by exists d|done].
    - by apply elem_of_nil in Hev. }
  split; [|done]. split.
  - intros Hres.
    destruct (decide (Forall (λ t, from t ∈ id <$> states data
                                   ∧ to t ∈ id <$> states data)
                        (transitions data))) as [?|Hno]; [done|].
    destruct (Hfail Hno) as [Hraise _]. congruence.
  - intros Hrefs.
    by destruct (draw_dfa_renders data Hne Hrefs) as (? & ? & _ & _ & _ & ? & _).
Qed.

Lemma draw_dfa_completes_iff_witness :
  states undeclared_target ≠ []
  ∧ (draw_dfa undeclared_target).2 ≠ inr tt
  ∧ ¬ references_declared (states undeclared_target)
        (transitions undeclared_target).
Proof.
  assert (Hne : states undeclared_target ≠ []) by (simpl; congruence).
  assert (Hres : (draw_dfa undeclared_target).2 ≠ inr tt)
    by (vm_compute; congruence).
  split; [exact Hne|]. split; [exact Hres|].
  intros Hrefs.
  exact (Hres (proj2 (proj1 (draw_dfa_completes_iff undeclared_target Hne))
                 Hrefs)).
Defined.

(** ** What is drawn for the edges and for the nodes *)

Lemma edge_event_drawn data G edge_labels ev :
  states data ≠ [] →
  build_graph (D:=directive) (states data) (transitions data)
  = ([], inr (G, edge_labels)) →
  graph_inv (transitions data) G edge_labels →
  is_edge_event ev = true →
  ev ∈ (draw_dfa data).1
  ↔ ∃ u v label,
      (u, v) ∈ pair_of <$> transitions data
      ∧ edge_labels !! (u, v) = Some label
      ∧ ev ∈ (if bool_decide (u = v)
              then [Draw (LoopCircle u); Draw (LoopLabel u label)]
              else [Draw (EdgeArrow u v); Draw (EdgeLabel u v label)]).
Proof.
  intros Hne Hrun Hinv Hkind.
  assert (Hlab : ∀ e, e ∈ edges G → is_Some (edge_labels !! e)).
  { intros e [He _]%elem_of_edges. by apply (inv_labels_dom _ _ _ Hinv). }
  destruct (draw_dfa_run data G edge_labels Hne Hrun Hlab)
    as (_ & _ & ->).
  destruct (for_each_ok (edges G) (draw_edge edge_labels)) as [_ Hev].
  { intros e He. by apply draw_edge_events, Hlab. }
  rewrite !elem_of_app, Hev. split.
  - intros [([u v] & He & Hin)|[Hin|Hin]].
    + destruct (Hlab _ He) as [label Hl].
      rewrite (draw_edge_eq _ _ _ _ Hl) in Hin. exists u, v, label.
      split; [|done].
      by rewrite <- (inv_adj_pairs _ _ _ Hinv),
        <- (edges_Permutation _ _ _ Hinv).
    + apply node_loop_events in Hin as [_ Hin]. congruence.
    + destruct (for_each _ _).2; [by apply elem_of_nil in Hin|].
      apply closing_events_kinds in Hin as [Hin _]. congruence.
  - intros (u & v & label & Hp & Hl & Hin). left. exists (u, v).
    rewrite (draw_edge_eq _ _ _ _ Hl). split; [|done].
    by rewrite (edges_Permutation _ _ _ Hinv), (inv_adj_pairs _ _ _ Hinv).
Qed.

(** Each merged edge is drawn with the geometry of its kind: a pair
    (u, u) as a loop circle with its label above, a pair (u, v) with u
    different from v as an arrow with its label; the label is the
    aggregated one.  Nothing else is drawn as an edge, and a self-loop
    never gets an arrow. *)
Theorem edges_drawn data :
  states data ≠ [] →
  ∃ G edge_labels,
    build_graph (D:=directive) (states data) (transitions data)
    = ([], inr (G, edge_labels))
    ∧ ∀ u v label,
        (Draw (EdgeArrow u v) ∈ (draw_dfa data).1
         ↔ u ≠ v ∧ (u, v) ∈ pair_of <$> transitions data)
        ∧ (Draw (EdgeLabel u v label) ∈ (draw_dfa data).1
           ↔ u ≠ v ∧ edge_labels !! (u, v) = Some label)
        ∧ (Draw (LoopCircle u) ∈ (draw_dfa data).1
           ↔ (u, u) ∈ pair_of <$> transitions data)
        ∧ (Draw (LoopLabel u label) ∈ (draw_dfa data).1
           ↔ edge_labels !! (u, u) = Some label).
Proof.
  intros Hne.
  destruct (build_graph_inv (D:=directive) (states data) (transitions data))
    as (G & edge_labels & Hrun & Hinv & _ & _).
  exists G, edge_labels. split; [done|]. intros u v label.
  assert (Hdom : ∀ e l, edge_labels !! e = Some l →
            e ∈ pair_of <$> transitions data).
  { intros e l Hl. apply (inv_adj_pairs _ _ _ Hinv),
      (inv_labels_dom _ _ _ Hinv). by eexists. }
  assert (Hhas : ∀ e, e ∈ pair_of <$> transitions data →
            ∃ l, edge_labels !! e = Some l).
  { intros e He. by apply (inv_labels_dom _ _ _ Hinv),
      (inv_adj_pairs _ _ _ Hinv). }
  assert (Hcases : ∀ ev, is_edge_event ev = true →
            ev ∈ (draw_dfa data).1 →
            ∃ u' v' l,
              (u', v') ∈ pair_of <$> transitions data
              ∧ edge_labels !! (u', v') = Some l
              ∧ ((u' = v' ∧ (ev = Draw (LoopCircle u')
                             ∨ ev = Draw (LoopLabel u' l)))
                 ∨ (u' ≠ v' ∧ (ev = Draw (EdgeArrow u' v')
                               ∨ ev = Draw (EdgeLabel u' v' l))))).
  { intros ev Hkind
      (u' & v' & l & Hp & Hl & Hin)%(edge_event_drawn _ G edge_labels);
      [|done..].
    exists u', v', l. split; [done|]. split; [done|].
    case_bool_decide; [left|right]; (split; [done|]);
      apply elem_of_cons in Hin as [->|Hin]; [by left| |by left|];
      apply list_elem_of_singleton in Hin as ->; by right. }
  split; [|split; [|split]]; split.
  - intros (u' & v' & l & Hp & Hl & [[_ [?|?]]|[Hne' [Heq|?]]])%Hcases;
      [done|done| |done|done].
    by injection Heq as -> ->.
  - intros [Hne' Hp]. apply (edge_event_drawn _ G edge_labels); [done..|].
    destruct (Hhas _ Hp) as [l Hl]. exists u, v, l.
    rewrite bool_decide_eq_false_2 by done. split; [done|].
    split; [done|]. by left.
  - intros (u' & v' & l & Hp & Hl & [[_ [?|?]]|[Hne' [?|Heq]]])%Hcases;
      [done|done|done| |done].
    by injection Heq as -> -> ->.
  - intros [Hne' Hl]. apply (edge_event_drawn _ G edge_labels); [done..|].
    exists u, v, label. rewrite bool_decide_eq_false_2 by done.
    split; [by eapply Hdom|]. split; [done|]. right. by left.
  - intros (u' & v' & l & Hp & Hl & [[Heq' [Heq|?]]|[_ [?|?]]])%Hcases;
      [ |done|done|done|done].
    injection Heq as ->. by subst.
  - intros Hp. apply (edge_event_drawn _ G edge_labels); [done..|].
    destruct (Hhas _ Hp) as [l Hl]. exists u, u, l.
    rewrite bool_decide_eq_true_2 by done. split; [done|].
    split; [done|]. by left.
  - intros (u' & v' & l & Hp & Hl & [[Heq' [?|Heq]]|[_ [?|?]]])%Hcases;
      [done| |done|done|done].
    injection Heq as -> ->. by subst.
  - intros Hl. apply (edge_event_drawn _ G edge_labels); [done..|].
    exists u, u, label. rewrite bool_decide_eq_true_2 by done.
    split; [by eapply Hdom|]. split; [done|]. right. by left.
Qed.

Lemma edges_drawn_witness :
  states dangling ≠ []
  ∧ Draw (EdgeArrow 0 1) ∈ (draw_dfa dangling).1
  ∧ Draw (LoopCircle 1) ∈ (draw_dfa dangling).1.
Proof.
  assert (Hne : states dangling ≠ []) by (simpl; congruence).
  split; [exact Hne|].
  destruct (edges_drawn dangling Hne) as (G & edge_labels & _ & H).
  destruct (H 0%Z 1%Z "") as (H1 & _ & _ & _).
  destruct (H 1%Z 1%Z "") as (_ & _ & H3 & _).
  split.
  - apply H1. split; [lia|]. simpl. by left.
  - apply H3. simpl. right. by left.
Defined.

Lemma node_event_drawn data G edge_labels ev :
  states data ≠ [] →
  build_graph (D:=directive) (states data) (transitions data)
  = ([], inr (G, edge_labels)) →
  graph_inv (transitions data) G edge_labels →
  (∀ m, m ∈ (nodes G).*1 →
     ∃ flag, node_accepting (D:=directive) G m = ([], inr flag)) →
  is_node_event ev = true →
  ev ∈ (draw_dfa data).1
  ↔ ∃ m, m ∈ (nodes G).*1 ∧ ev ∈ (draw_node G (start_state data) m).1.
Proof.
  intros Hne Hrun Hinv Hacc Hkind.
  assert (Hlab : ∀ e, e ∈ edges G → is_Some (edge_labels !! e)).
  { intros e [He _]%elem_of_edges. by apply (inv_labels_dom _ _ _ Hinv). }
  destruct (draw_dfa_run data G edge_labels Hne Hrun Hlab)
    as (_ & _ & ->).
  destruct (for_each_ok (nodes G).*1 (draw_node G (start_state data)))
    as [Hres Hev].
  { intros m Hm. destruct (Hacc m Hm) as [flag Ha].
    by rewrite (draw_node_eq _ _ _ _ Ha). }
  rewrite Hres, !elem_of_app, Hev. split; [|by intros ?; right; left].
  intros [Hin|[?|Hin]]; [|done|].
  - apply (edge_loop_events _ _ _ Hlab) in Hin as [_ Hin]. congruence.
  - apply closing_events_kinds in Hin as [_ Hin]. congruence.
Qed.

(** Node classification.  In a document with unique state ids and
    transitions between declared states, every state is drawn with the
    style of its two flags: the main circle in the colours of
    (is start, is accepting), the outer circle exactly when it is
    accepting, the start arrow and the ['Start'] text exactly when it is
    the start state, and its label. *)
Theorem node_styles data s :
  NoDup (id <$> states data) →
  references_declared (states data) (transitions data) →
  s ∈ states data →
  let style := node_style (is_start_state data s) (accepting s) in
  (∀ node_color edge_color,
     Draw (MainCircle (id s) node_color edge_color) ∈ (draw_dfa data).1
     ↔ (node_color, edge_color) = style)
  ∧ (∀ edge_color,
       Draw (OuterCircle (id s) edge_color) ∈ (draw_dfa data).1
       ↔ accepting s = true ∧ edge_color = style.2)
  ∧ (∀ edge_color,
       Draw (StartArrow (id s) edge_color) ∈ (draw_dfa data).1
       ↔ is_start_state data s = true ∧ edge_color = style.2)
  ∧ (Draw (StartText (id s)) ∈ (draw_dfa data).1
     ↔ is_start_state data s = true)
  ∧ Draw (NodeLabel (id s) (str (id s))) ∈ (draw_dfa data).1.
Proof.
  intros Hnd Hrefs Hs style.
  assert (Hne : states data ≠ []).
  { intros Hnil. rewrite Hnil in Hs. by apply elem_of_nil in Hs. }
  destruct (build_graph_inv (D:=directive) (states data) (transitions data))
    as (G & edge_labels & Hrun & Hinv & Hnodes & _).
  specialize (Hnodes Hrefs). rewrite (add_states_unique _ Hnd) in Hnodes.
  assert (Hattr : ∀ m, m ∈ (nodes G).*1 →
            ∃ flag, node_accepting (D:=directive) G m = ([], inr flag)).
  { intros m Hm. apply node_accepting_declared; [|done].
    rewrite Hnodes. intros na (s' & -> & _)%list_elem_of_fmap. by eexists. }
  assert (Hself : node_accepting (D:=directive) G (id s)
                  = ([], inr (accepting s))).
  { rewrite (node_accepting_lookup G (id s) (Some (accepting s))); [done| |].
    - apply (inv_nodes_NoDup _ _ _ Hinv).
    - rewrite Hnodes. apply list_elem_of_fmap. by exists s. }
  assert (Hin : id s ∈ (nodes G).*1).
  { rewrite Hnodes, <- list_fmap_compose. apply list_elem_of_fmap.
    by exists s. }
  assert (Hown : ∀ ev, is_node_event ev = true →
            ev ∈ (draw_dfa data).1 →
            ∃ m flag,
              node_accepting (D:=directive) G m = ([], inr flag)
              ∧ ev ∈ (draw_node G (start_state data) m).1).
  { intros ev Hkind (m & Hm & Hev)%(node_event_drawn _ G edge_labels);
      [|done..].
    destruct (Hattr m Hm) as [flag Ha]. by exists m, flag. }
  assert (Hmine : ∀ ev, is_node_event ev = true →
            ev ∈ (draw_node G (start_state data) (id s)).1 →
            ev ∈ (draw_dfa data).1).
  { intros ev Hkind Hev. apply (node_event_drawn _ G edge_labels); [done..|].
    by exists (id s). }
  pose proof (λ ev, draw_node_events_iff G (start_state data) (id s)
                      (accepting s) ev Hself) as Hiff.
  cbn zeta in Hiff. fold (is_start_state data s) in Hiff. fold style in Hiff.
  split; [|split; [|split; [|split]]].
  - intros c1 c2. split.
    + intros (m & flag & Ha & Hev)%Hown; [|done].
      apply (draw_node_events_iff _ _ _ _ _ Ha) in Hev.
      destruct Hev as [[_ ?]|[Heq|[?|[_ [?|?]]]]]; try done.
      injection Heq as <- -> ->. rewrite Hself in Ha.
      injection Ha as <-. symmetry. apply surjective_pairing.
    + intros Heq. apply Hmine; [done|]. apply Hiff. right. left.
      by rewrite <- Heq.
  - intros c. split.
    + intros (m & flag & Ha & Hev)%Hown; [|done].
      apply (draw_node_events_iff _ _ _ _ _ Ha) in Hev.
      destruct Hev as [[Hflag Heq]|[?|[?|[_ [?|?]]]]]; try done.
      injection Heq as <- ->. rewrite Hself in Ha. injection Ha as <-.
      done.
    + intros [Hflag ->]. apply Hmine; [done|]. apply Hiff. by left.
  - intros c. split.
    + intros (m & flag & Ha & Hev)%Hown; [|done].
      apply (draw_node_events_iff _ _ _ _ _ Ha) in Hev.
      destruct Hev as [[_ ?]|[?|[?|[Hstart [Heq|?]]]]]; try done.
      injection Heq as <- ->. rewrite Hself in Ha. injection Ha as <-.
      done.
    + intros [Hstart ->]. apply Hmine; [done|]. apply Hiff.
      do 3 right. split; [done|]. by left.
  - split.
    + intros (m & flag & Ha & Hev)%Hown; [|done].
      apply (draw_node_events_iff _ _ _ _ _ Ha) in Hev.
      destruct Hev as [[_ ?]|[?|[?|[Hstart [?|Heq]]]]]; try done.
      by injection Heq as <-.
    + intros Hstart. apply Hmine; [done|]. apply Hiff.
      do 3 right. split; [done|]. by right.
  - apply Hmine; [done|]. apply Hiff. right. right. by left.
Qed.

Lemma node_styles_witness :
  NoDup (id <$> states dangling)
  ∧ references_declared (states dangling) (transitions dangling)
  ∧ {| id := 1; accepting := true |} ∈ states dangling
  ∧ Draw (MainCircle 1 "#FFB6C1" "#DC143C") ∈ (draw_dfa dangling).1.
Proof.
  assert (Hnd : NoDup (id <$> states dangling)).
  { apply (bool_decide_unpack (NoDup (id <$> states dangling))).
    by vm_compute. }
  assert (Hrefs : references_declared (states dangling)
                    (transitions dangling)).
  { simpl. repeat constructor. }
  assert (Hs : {| id := 1; accepting := true |} ∈ states dangling).
  { simpl. right. by left. }
  split; [exact Hnd|]. split; [exact Hrefs|]. split; [exact Hs|].
  destruct (node_styles dangling _ Hnd Hrefs Hs) as (H1 & _).
  by apply (H1 "#FFB6C1" "#DC143C").
Defined.

End RenderFacts.
